(** * text-2-midi-2-acid: the symbol mappers and the playback scheduler

    A shallow embedding of [acid2midi.py], [speedcore2midi.py] and
    [acidtrack.py].  Python integers are [Z]; a Python [str] is a [string]
    whose characters are code points below 256; the event tuple
    [(tick, device, action, value, param)] is the record [Event]; the
    module-level generator of [random] is an explicit state that is threaded
    through every draw; [heapq.heappush] and [sorted] are written out. *)

From Stdlib Require Import ZArith String Ascii List OrderedTypeEx Permutation Sorted Lia.
From stdpp Require Import base list gmap strings.

Open Scope string_scope.
Open Scope list_scope.
Open Scope Z_scope.

(** ** The random module

    [random.random()] returns [k / 2^53] for an integer [0 <= k < 2^53];
    [random53] returns that numerator.  [random.randint(a, b)] is
    [a + _randbelow(b - a + 1)].  The Mersenne Twister itself is the
    interpreter's: the embedding takes any generator with these draws. *)

Class PyRandom (G : Type) := {
  seed_str : string -> G;
  seed_int : Z -> G;
  random53 : G -> Z * G;
  randbelow : Z -> G -> Z * G;
  random53_range : forall g, 0 <= fst (random53 g) < 2 ^ 53;
  randbelow_range : forall n g, 0 < n -> 0 <= fst (randbelow n g) < n
}.

(** A double literal as the exact fraction [num / den] it denotes. *)
Record pyfloat := Float { fl_num : Z; fl_den : Z }.

Definition f0_95 := Float 4278419646001971 4503599627370496.
Definition f0_8 := Float 3602879701896397 4503599627370496.
Definition f0_7 := Float 3152519739159347 4503599627370496.
Definition f0_6 := Float 5404319552844595 9007199254740992.
Definition f0_5 := Float 1 2.
Definition f0_4 := Float 3602879701896397 9007199254740992.
Definition f0_3 := Float 5404319552844595 18014398509481984.
Definition f0_2 := Float 3602879701896397 18014398509481984.

Section RandomDraws.
Context {G : Type} `{PyRandom G}.

(** [random.random() < c] *)
Definition random_lt (c : pyfloat) (g : G) : bool * G :=
  let '(k, g') := random53 g in
  (k * fl_den c <? fl_num c * 2 ^ 53, g').

(** [random.randint(a, b)] *)
Definition randint (a b : Z) (g : G) : Z * G :=
  let '(r, g') := randbelow (b - a + 1) g in
  (a + r, g').

End RandomDraws.

(** ** Events and the order of Python tuples *)

Record Event := Ev {
  ev_tick : Z;
  ev_device : string;
  ev_action : string;
  ev_value : Z;
  ev_param : Z
}.

#[global] Instance Event_eq_dec : EqDecision Event.
Proof. solve_decision. Defined.

Definition lex (c : comparison) (k : comparison) : comparison :=
  match c with Eq => k | _ => c end.

(** Tuples compare field by field, integers by value and strings by code
    point. *)
Definition tuple_compare (a b : Event) : comparison :=
  lex (ev_tick a ?= ev_tick b)
  (lex (String.compare (ev_device a) (ev_device b))
  (lex (String.compare (ev_action a) (ev_action b))
  (lex (ev_value a ?= ev_value b)
       (ev_param a ?= ev_param b)))).

Definition tuple_ltb (a b : Event) : bool :=
  match tuple_compare a b with Lt => true | _ => false end.

(** ** heapq *)

Section Heapq.
Context {A : Type} (ltb : A -> A -> bool).

(** The loop of [heapq._siftdown]: the parent moves down while the new
    item is smaller; [pos] strictly decreases, so [pos] rounds suffice. *)
Fixpoint _siftdown_loop (fuel : nat) (heap : list A) (startpos : nat)
    (newitem : A) (pos : nat) : list A * nat :=
  match fuel with
  | O => (heap, pos)
  | S fuel' =>
      if (startpos <? pos)%nat then
        let parentpos := ((pos - 1) / 2)%nat in
        match heap !! parentpos with
        | Some parent =>
            if ltb newitem parent
            then _siftdown_loop fuel' (<[pos := parent]> heap) startpos newitem parentpos
            else (heap, pos)
        | None => (heap, pos)
        end
      else (heap, pos)
  end.

Definition _siftdown (heap : list A) (startpos pos : nat) : list A :=
  match heap !! pos with
  | Some newitem =>
      let '(heap', pos') := _siftdown_loop pos heap startpos newitem pos in
      <[pos' := newitem]> heap'
  | None => heap
  end.

(** [heapq.heappush(heap, item)] *)
Definition heappush (heap : list A) (item : A) : list A :=
  _siftdown (heap ++ [item]) 0 (length heap).

(** ** sorted

    [sorted] and [list.sort] are stable and compare with [<] only; a
    stable sort is determined by its order, so the insertion sort below
    computes the same list. *)
Fixpoint sort_insert (x : A) (l : list A) : list A :=
  match l with
  | [] => [x]
  | y :: l' => if ltb y x then y :: sort_insert x l' else x :: y :: l'
  end.

Fixpoint py_sorted (l : list A) : list A :=
  match l with
  | [] => []
  | x :: l' => sort_insert x (py_sorted l')
  end.

(** The order read off [<]: [a] may stand before [b]. *)
Definition le_of (a b : A) : Prop := ltb b a = false.

End Heapq.

(** ** Characters *)

Definition ord (c : ascii) : Z := Z.of_N (N_of_ascii c).
Definition chr (n : Z) : ascii := ascii_of_N (Z.to_N n).

(** [str.lower] on a code point below 256: the ASCII capitals and the
    Latin-1 capitals U+00C0..U+00DE (U+00D7 is the multiplication sign). *)
Definition lower (c : ascii) : ascii :=
  let n := ord c in
  if ((65 <=? n) && (n <=? 90)) || ((192 <=? n) && (n <=? 222) && negb (n =? 215))
  then chr (n + 32) else c.

Definition chars (s : string) : list ascii := list_ascii_of_string s.

(** [c in s] for a one-character [c] and a set or string [s] *)
Definition char_in (c : ascii) (s : string) : bool :=
  existsb (Ascii.eqb c) (chars s).

(** [s.index(c)] *)
Fixpoint str_index (c : ascii) (l : list ascii) : Z :=
  match l with
  | [] => 0
  | x :: l' => if Ascii.eqb x c then 0 else 1 + str_index c l'
  end.

(** [int(c)] for a decimal digit *)
Definition int_of_digit (c : ascii) : Z := ord c - 48.

(** [min(max(note, 0), 127)] *)
Definition clamp (note : Z) : Z := Z.min (Z.max note 0) 127.

(** [l[i]] for an index within the list *)
Definition item (l : list Z) (i : Z) : Z := nth (Z.to_nat i) l 0.

Definition len {A} (l : list A) : Z := Z.of_nat (length l).

(** ** Constants shared by the three programs *)

Definition ENCODABLE := "etaoinshrdlucmfwypvbgkqjxz0123456789".
Definition VOWELS := "aeiou".
Definition DIGITS := "0123456789".
Definition PUNCTUATION := ".,".
Definition VOWEL_ORDER := "aeiou".
Definition CONSONANT_ORDER := "tnshrdlucmfwypvbgkqjxz".

Definition TICKS_PER_BEAT := 4.
Definition OCTAVE := 12.
Definition MINOR_PENTATONIC := [0; 3; 5; 7; 10].
Definition PAD_CHORD_NOTES := [0; 3; 7].

Definition DRUM_kick := 48.
Definition DRUM_snare := 50.
Definition DRUM_ltom := 52.
Definition DRUM_htom := 53.
Definition DRUM_rim := 55.
Definition DRUM_clap := 57.
Definition DRUM_ch := 59.
Definition DRUM_oh := 60.
Definition DRUM_crash := 62.
Definition DRUM_ride := 64.

(** The queue of one run: the tuples in the order of their [heappush]
    calls are pushed on an empty heap, and the heap list is then sorted. *)
Definition heap_of (pushes : list Event) : list Event :=
  fold_left (heappush tuple_ltb) pushes [].

Definition merged (pushes : list Event) : list Event :=
  py_sorted tuple_ltb (heap_of pushes).

(** An entry [(tick, i, ch)] of [char_timing] *)
Record CharTiming := CT { ct_tick : Z; ct_index : Z; ct_ch : ascii }.

(** [sorted(char_timing, key=lambda x: x[1])] *)
Definition sorted_by_index (l : list CharTiming) : list CharTiming :=
  py_sorted (fun a b => ct_index a <? ct_index b) l.

(** The state of the loop of [text_to_event_queue]: the generator, the
    tuples pushed so far in program order, [char_timing] and
    [current_time]. *)
Record mapper (G : Type) := Mapper {
  rng : G;
  pushes : list Event;
  char_timing : list CharTiming;
  current_time : Z
}.
Arguments Mapper {G}.
Arguments rng {G}.
Arguments pushes {G}.
Arguments char_timing {G}.
Arguments current_time {G}.

(** [for i, ch in enumerate(text)] from index [i] on *)
Fixpoint enumerate_from {S : Type} (body : S -> Z -> ascii -> S) (i : Z)
    (text : list ascii) (st : S) : S :=
  match text with
  | [] => st
  | ch :: rest => enumerate_from body (i + 1) rest (body st i ch)
  end.

(** [" ".join(args)] *)
Fixpoint join_spaces (args : list string) : string :=
  match args with
  | [] => ""
  | [a] => a
  | a :: rest => a +:+ " " +:+ join_spaces rest
  end.

(** ** Code that draws random numbers

    A computation that draws from the module generator takes its state and
    returns the new one. *)
Definition Rand (G A : Type) : Type := G -> A * G.

Definition rret {G A} (a : A) : Rand G A := fun g => (a, g).

Definition rbind {G A B} (m : Rand G A) (k : A -> Rand G B) : Rand G B :=
  fun g => let '(a, g') := m g in k a g'.

Notation "x <- m ;; k" := (rbind m (fun x => k))
  (at level 100, m at next level, right associativity).

(** [for x in l: body(x)], the tuples pushed by the rounds in order *)
Fixpoint for_each {G A} (body : A -> Rand G (list Event)) (l : list A)
    : Rand G (list Event) :=
  match l with
  | [] => rret []
  | x :: rest =>
      es <- body x ;;
      es' <- for_each body rest ;;
      rret (es ++ es')
  end.

(** [range(a, b)] and [range(a, b, step)] *)
Definition range (a b : Z) : list Z :=
  map (fun k => a + Z.of_nat k) (seq 0 (Z.to_nat (b - a))).

Definition range_step (a b step : Z) : list Z :=
  map (fun k => a + step * Z.of_nat k) (seq 0 (Z.to_nat ((b - a + step - 1) / step))).

(** * The playback scheduler

    [play_event_queue] is the same loop in the three programs; they differ
    in the device table, in the status byte (acid2midi sends the bare
    status, the others or it with the channel of the device) and in the
    echo of the consumed text. *)

(** What a run does to the outside *)
Inductive output :=
| Send (device : string) (msg : list Z)
| Echo (ch : ascii)
| Sleep
| AllNotesOff.

#[global] Instance output_eq_dec : EqDecision output.
Proof. solve_decision. Defined.

(** What a run meets outside.  [send_raises]: which calls of
    [send_message], counted from 0 over the whole call of
    [play_event_queue], raise.  [stop_signal]: the tick, if any, during
    whose sleep a stop signal ([KeyboardInterrupt]) arrives.
    [stop_after_send]: the calls of [send_message] on whose return a stop
    signal arrives, so that it is raised before the statement after the
    call runs; in the loop that statement is [active_notes[device].add] or
    [.discard], in the [finally] block the next note-off or the closing
    line.  A stop signal that arrives just before a call of
    [send_message] shows as that call raising.  At any other moment a stop
    signal leaves the messages sent, [active_notes] and the exception as
    one of these does; only what is printed differs. *)
Record outside := Outside {
  send_raises : nat -> bool;
  stop_signal : option Z;
  stop_after_send : nat -> bool
}.

(** Every message is accepted and no signal arrives. *)
Definition quiet : outside := Outside (fun _ => false) None (fun _ => false).

(** [max(l, default=0)] *)
Definition py_max_default (l : list Z) : Z :=
  match l with
  | [] => 0
  | x :: l' => fold_left Z.max l' x
  end.

(** [events.sort(key=lambda x: x[0])] *)
Definition sort_by_tick (events : list Event) : list Event :=
  py_sorted (fun a b => ev_tick a <? ev_tick b) events.

Section Scheduler.

(** The keys of [DEVICES]; a device outside them is a [KeyError]. *)
Variable devices : list string.
(** The status byte for a message kind and a device *)
Variable status : Z -> string -> Z.
(** The echo of one tick on its state [E]; [None] is an exception. *)
Variable E : Type.
Variable echo : E -> Z -> option (E * list ascii).
Variable env : outside.

(** The state of a run: what was sent and printed, [active_notes], the
    number of [send_message] calls made, and the state of the echo *)
Record sched := Sched {
  out : list output;
  active_notes : list (string * gset Z);
  sent : nat;
  echo_state : E
}.

(** A statement of the [try] block either falls through or raises. *)
Inductive flow :=
| Next (s : sched)
| Raise (s : sched).

Definition state_of (f : flow) : sched :=
  match f with Next s => s | Raise s => s end.

Definition raised (f : flow) : bool :=
  match f with Next _ => false | Raise _ => true end.

(** [midiout.send_message(msg)] *)
Definition send_message (device : string) (msg : list Z) (s : sched) : flow :=
  if send_raises env (sent s)
  then Raise (Sched (out s) (active_notes s) (S (sent s)) (echo_state s))
  else Next (Sched (out s ++ [Send device msg]) (active_notes s)
                   (S (sent s)) (echo_state s)).

(** A call of [send_message] and the return from it: a stop signal that
    arrives on the return is raised with the message sent and the
    statement after the call not run. *)
Definition call_send (device : string) (msg : list Z) (s : sched) : flow :=
  match send_message device msg s with
  | Next s' => if stop_after_send env (sent s) then Raise s' else Next s'
  | Raise s' => Raise s'
  end.

(** [active_notes[device].add(value)] and [.discard(value)] *)
Definition update_notes (f : gset Z -> gset Z) (device : string)
    (a : list (string * gset Z)) : list (string * gset Z) :=
  map (fun dn => if String.eqb (fst dn) device then (fst dn, f (snd dn)) else dn) a.

Definition with_notes (a : list (string * gset Z)) (s : sched) : sched :=
  Sched (out s) a (sent s) (echo_state s).

(** The body of the inner loop for one event *)
Definition dispatch (e : Event) (s : sched) : flow :=
  let device := ev_device e in
  let action := ev_action e in
  let value := ev_value e in
  let param := ev_param e in
  if negb (bool_decide (device ∈ devices)) then Raise s
  else if String.eqb action "on" then
    match call_send device [status 144 device; value; param] s with
    | Next s' => Next (with_notes (update_notes (fun ns => {[value]} ∪ ns) device
                                                (active_notes s')) s')
    | Raise s' => Raise s'
    end
  else if String.eqb action "off" then
    match call_send device [status 128 device; value; 0] s with
    | Next s' => Next (with_notes (update_notes (fun ns => ns ∖ {[value]}) device
                                                (active_notes s')) s')
    | Raise s' => Raise s'
    end
  else if String.eqb action "cc" then
    call_send device [status 176 device; value; param] s
  else Next s.

(** [while event_ptr < len(events) and events[event_ptr][0] == tick]; the
    events from [event_ptr] on are [rest]. *)
Fixpoint dispatch_due (tick : Z) (rest : list Event) (s : sched)
    : list Event * flow :=
  match rest with
  | [] => ([], Next s)
  | e :: rest' =>
      if ev_tick e =? tick then
        match dispatch e s with
        | Next s' => dispatch_due tick rest' s'
        | Raise s' => (rest, Raise s')
        end
      else (rest, Next s)
  end.

(** The echo at the head of a round of the loop *)
Definition echo_tick (tick : Z) (s : sched) : flow :=
  match echo (echo_state s) tick with
  | Some (st, cs) => Next (Sched (out s ++ map Echo cs) (active_notes s) (sent s) st)
  | None => Raise s
  end.

(** [time.sleep(TICK_DURATION)] *)
Definition sleep (tick : Z) (s : sched) : flow :=
  if bool_decide (stop_signal env = Some tick) then Raise s
  else Next (Sched (out s ++ [Sleep]) (active_notes s) (sent s) (echo_state s)).

(** [while tick <= max_tick]; the loop has [max_tick + 1] rounds at most,
    and with no round left the test fails. *)
Fixpoint tick_loop (rounds : nat) (tick max_tick : Z) (rest : list Event)
    (s : sched) : flow :=
  match rounds with
  | O => Next s
  | S rounds' =>
      if tick <=? max_tick then
        match echo_tick tick s with
        | Raise s1 => Raise s1
        | Next s1 =>
            match dispatch_due tick rest s1 with
            | (_, Raise s2) => Raise s2
            | (rest', Next s2) =>
                match sleep tick s2 with
                | Raise s3 => Raise s3
                | Next s3 => tick_loop rounds' (tick + 1) max_tick rest' s3
                end
            end
        end
      else Next s
  end.

(** [max([e[0] for e in events] + echo_ticks, default=0) + 1] *)
Definition max_tick_of (events : list Event) (echo_ticks : list Z) : Z :=
  py_max_default (map ev_tick events ++ echo_ticks) + 1.

(** The [try] block *)
Definition running (event_queue : list Event) (echo_ticks : list Z) (e0 : E)
    : flow :=
  let active := map (fun device => (device, (∅ : gset Z))) devices in
  let events := sort_by_tick event_queue in
  let max_tick := max_tick_of events echo_ticks in
  tick_loop (Z.to_nat (max_tick + 1)) 0 max_tick events (Sched [] active 0 e0).

(** The note-offs of the [finally] block: one for every note of every
    device.  The devices come in the order of the table; the notes of one
    set come here in the order of [elements], where Python follows the
    hash table of the set, an order that is not modelled. *)
Definition drain (active : list (string * gset Z)) : list output :=
  flat_map (fun dn =>
    map (fun note => Send (fst dn) [status 128 (fst dn); note; 0])
        (elements (snd dn))) active.

(** [for note in notes: midiout.send_message([0x80 | channel, note, 0])] *)
Fixpoint drain_notes (device : string) (notes : list Z) (s : sched) : flow :=
  match notes with
  | [] => Next s
  | note :: notes' =>
      match call_send device [status 128 device; note; 0] s with
      | Next s' => drain_notes device notes' s'
      | Raise s' => Raise s'
      end
  end.

(** [for device, notes in active_notes.items()] *)
Fixpoint drain_devices (active : list (string * gset Z)) (s : sched) : flow :=
  match active with
  | [] => Next s
  | dn :: active' =>
      match drain_notes (fst dn) (elements (snd dn)) s with
      | Next s' => drain_devices active' s'
      | Raise s' => Raise s'
      end
  end.

(** Leaving the [try] block, whichever way: the [finally] block runs.  When
    it ends, the closing line is printed and an exception of the [try]
    block propagates; an exception of its own (a call that raises, a stop
    signal on the return of a call) propagates at once.  The result is what
    the call sent and printed, and whether it raised. *)
Definition finish (f : flow) : list output * bool :=
  match drain_devices (active_notes (state_of f)) (state_of f) with
  | Next s => (out s ++ [AllNotesOff], raised f)
  | Raise s => (out s, true)
  end.

End Scheduler.

Arguments Sched {E}.
Arguments out {E}.
Arguments active_notes {E}.
Arguments sent {E}.
Arguments echo_state {E}.
Arguments Next {E}.
Arguments Raise {E}.
Arguments state_of {E}.
Arguments raised {E}.
Arguments flow : clear implicits.

(** [DEVICES[device][2]] *)
Fixpoint channel_of (table : list (string * Z)) (device : string) : Z :=
  match table with
  | [] => 0
  | (d, c) :: table' => if String.eqb d device then c else channel_of table' device
  end.

(** * acid2midi.py *)
Module Acid2Midi.

Definition DEFAULT_TEXT :=
  "....... Ahhhhhhhhhhhhhhh 1234567890, What is this? What is this? It is text2midi 1234567890 WOW WOW ..nice.. Make the make the music make the music with no skill. Out now. Out now. TTTTHHHHXXXX. Welcome to text-2-midi ACID music converter. Yeeeeeeeeeeeeeessssssssssssshh .. 1234567890 Lets get lets get lets get the party going. 1230 1234560 ACID music is the shit. Peace out.".

Definition NOTE_BASE := 48.

(** The keys of [DEVICES], in the order of the dict literal *)
Definition DEVICES := ["TB303"; "BP909"; "LeadSynth"; "PadSynth"].

Section Mapper.
Context {G : Type} `{PyRandom G}.

(** The separator branch: a resonance tweak and the sustained pad chord *)
Definition separator (t : Z) : list Event :=
  Ev t "TB303" "cc" 71 60 ::
  (let chord_root := NOTE_BASE + item MINOR_PENTATONIC 0 + OCTAVE in
   flat_map (fun offset =>
     let note := clamp (chord_root + offset) in
     [Ev t "PadSynth" "on" note 60; Ev (t + 4) "PadSynth" "off" note 0])
     PAD_CHORD_NOTES).

(** The bassline on the TB303 device *)
Definition bassline (ch_lower : ascii) (t : Z) (g : G) : list Event * G :=
  if char_in ch_lower VOWELS then
    let rank := str_index ch_lower (chars VOWEL_ORDER) in
    let scale_degree := item MINOR_PENTATONIC (rank mod len MINOR_PENTATONIC) in
    let note := clamp (NOTE_BASE + scale_degree) in
    let velocity := 80 in
    let '(long, g') := random_lt f0_6 g in
    let duration := if long then 2 else 1 in
    ([Ev t "TB303" "on" note velocity; Ev (t + duration) "TB303" "off" note 0]
       ++ (if 1 <? duration
           then [Ev t "TB303" "cc" 5 127; Ev (t + duration) "TB303" "cc" 5 0]
           else []), g')
  else if char_in ch_lower DIGITS then
    let rank := int_of_digit ch_lower in
    let scale_degree := item MINOR_PENTATONIC (rank mod len MINOR_PENTATONIC) in
    let note := clamp (NOTE_BASE + scale_degree) in
    let velocity := 70 in
    ([Ev t "TB303" "on" note velocity; Ev (t + 1) "TB303" "off" note 0], g)
  else if char_in ch_lower CONSONANT_ORDER then
    let rank := str_index ch_lower (chars CONSONANT_ORDER) in
    let scale_degree := item MINOR_PENTATONIC (rank mod len MINOR_PENTATONIC) in
    let note := clamp (NOTE_BASE + scale_degree) in
    let velocity := 100 in
    ([Ev t "TB303" "on" note velocity; Ev (t + 1) "TB303" "off" note 0;
      Ev t "TB303" "cc" 71 80], g)
  else ([], g).

(** The drums on the BP909 device *)
Definition drums (ch_lower : ascii) (i t : Z) : list Event :=
  if char_in ch_lower VOWELS then
    [Ev t "BP909" "on" DRUM_kick 100; Ev (t + 1) "BP909" "off" DRUM_kick 0]
  else if char_in ch_lower DIGITS then
    [Ev t "BP909" "on" DRUM_oh 80; Ev (t + 1) "BP909" "off" DRUM_oh 0]
  else if char_in ch_lower CONSONANT_ORDER then
    let drum := if i mod 4 =? 2 then DRUM_snare
                else if i mod 4 =? 0 then DRUM_clap else DRUM_ch in
    let velocity := if (i mod 4 =? 2) || (i mod 4 =? 0) then 90 else 70 in
    [Ev t "BP909" "on" drum velocity; Ev (t + 1) "BP909" "off" drum 0]
  else [].

(** One round of the loop over the text *)
Definition encode (st : mapper G) (i : Z) (ch : ascii) : mapper G :=
  let ch_lower := lower ch in
  let t := current_time st in
  if Ascii.eqb ch " " || char_in ch_lower PUNCTUATION then
    Mapper (rng st) (pushes st ++ separator t)
           (char_timing st ++ [CT t i ch]) (t + 1)
  else if negb (char_in ch_lower ENCODABLE) then
    Mapper (rng st) (pushes st) (char_timing st ++ [CT t i ch]) t
  else
    let '(bass, g') := bassline ch_lower t (rng st) in
    Mapper g' (pushes st ++ bass ++ drums ch_lower i t)
           (char_timing st ++ [CT t i ch]) (t + 1).

(** The loop over the text, from the generator seeded with the text *)
Definition encode_text (text : string) : mapper G :=
  enumerate_from encode 0 (chars text) (Mapper (seed_str text) [] [] 0).

(** [text_to_event_queue(text)], entered with the module generator in any
    state [g0]; [random.seed(text)] replaces that state.  The result is
    the two sorted lists, and the state the generator is left in. *)
Definition text_to_event_queue (g0 : G) (text : string)
    : list Event * list CharTiming * G :=
  let st := encode_text text in
  (merged (pushes st), sorted_by_index (char_timing st), rng st).

End Mapper.

(** The text that [main] maps: the joined arguments, or the default text,
    and one space *)
Definition main_text (argv : list string) : string :=
  (if 1 <? len argv then join_spaces (tail argv) else DEFAULT_TEXT) +:+ " ".

(** [char_ready_ticks = {i: tick for tick, i, _ in char_queue}] *)
Definition char_ready_ticks (char_queue : list CharTiming) : gmap Z Z :=
  fold_left (fun m c => <[ct_index c := ct_tick c]> m) char_queue ∅.

(** The echo of one tick: at most one character is popped;
    [char_ready_ticks.get] of a missing index is [None], and comparing it
    with the tick raises. [n] is [len(text_order)]. *)
Definition echo (ready : gmap Z Z) (n : Z) (char_queue : list CharTiming)
    (tick : Z) : option (list CharTiming * list ascii) :=
  match char_queue with
  | [] => Some ([], [])
  | c :: rest =>
      match ready !! (n - len char_queue) with
      | None => None
      | Some t => if t <=? tick then Some (rest, [ct_ch c]) else Some (char_queue, [])
      end
  end.

(** The status byte is sent as it is, without a channel. *)
Definition status (base : Z) (device : string) : Z := base.

(** The [try] block of [play_event_queue(midiouts, event_queue,
    char_queue)], where [midiouts] has a port for every key of [DEVICES],
    as [main] builds it *)
Definition try_block (env : outside) (event_queue : list Event)
    (char_queue : list CharTiming) : flow (list CharTiming) :=
  let ready := char_ready_ticks char_queue in
  running DEVICES status (list CharTiming) (echo ready (len char_queue)) env
          event_queue (map snd (map_to_list ready)) char_queue.

Definition play_event_queue (env : outside) (event_queue : list Event)
    (char_queue : list CharTiming) : list output * bool :=
  finish status (list CharTiming) env (try_block env event_queue char_queue).

(** [main()]: nothing is mapped or played when a port fails to open. *)
Definition main {G : Type} `{PyRandom G} (g0 : G) (ports_open : bool)
    (env : outside) (argv : list string) : list output * bool :=
  if ports_open then
    let '(event_queue, char_queue, _) := text_to_event_queue g0 (main_text argv) in
    play_event_queue env event_queue char_queue
  else ([], false).

End Acid2Midi.

(** * speedcore2midi.py *)
Module Speedcore2Midi.

Definition DEFAULT_TEXT :=
  "YEEEEE 1234567890 BLAST OFF!!! SPEEDCORE EXTRATONE MADNESS!!! 666 KICK IT HARD!!! ..BZZZZZ.. 1230 RAVE RAVE RAVE!!! TTTTHHHHXXXXX BOOM BOOM 7890 LETS GO INSANE!!! ..ZAP.. PEACE OUT!!!".

Definition NOTE_BASE := 48.

Definition SAMPLES := "@,".

(** [DEVICES]: the keys in the order of the dict literal, with the MIDI
    channel of each *)
Definition DEVICES : list (string * Z) :=
  [("TB303", 1); ("BP909", 1); ("LeadSynth", 1); ("PadSynth", 1); ("Samples", 5)].

Section Mapper.
Context {G : Type} `{PyRandom G}.

(** [SAMPLES] is a set of two strings, and the order in which a set of
    strings is enumerated follows the hashes of the strings: it is fixed
    when the interpreter starts and differs from one run to another.
    [at_first] tells whether ["@"] comes first. *)
Variable at_first : bool.

(** [SAMPLES] as it is enumerated *)
Definition SAMPLES_order : list ascii :=
  if at_first then chars "@," else chars ",@".

(** [SAMPLE_NOTES[ch]], where
    [SAMPLE_NOTES = {char: 0 + i for i, char in enumerate(SAMPLES)}] *)
Definition SAMPLE_NOTES (ch : ascii) : Z := 0 + str_index ch SAMPLES_order.

(** The sample branch: a note-on only *)
Definition sample (ch : ascii) (t : Z) : Rand G (list Event) :=
  let note := clamp (SAMPLE_NOTES ch) in
  v <- randint 127 127 ;;
  rret [Ev t "Samples" "on" note v].

(** The separator branch: a filter sweep, a detuned stab and a crash *)
Definition separator (t : Z) : Rand G (list Event) :=
  sweep <- randint 80 127 ;;
  let chord_root := NOTE_BASE + item MINOR_PENTATONIC 0 + OCTAVE in
  stab <- for_each (fun offset =>
            detune <- randint (-2) 2 ;;
            let note := clamp (chord_root + offset + detune) in
            v <- randint 60 90 ;;
            rret [Ev t "PadSynth" "on" note v; Ev (t + 1) "PadSynth" "off" note 0])
          PAD_CHORD_NOTES ;;
  crash <- randint 90 127 ;;
  rret (Ev t "TB303" "cc" 74 sweep :: stab ++
        [Ev t "BP909" "on" DRUM_crash crash; Ev (t + 1) "BP909" "off" DRUM_crash 0]).

(** The bassline on the TB303 device *)
Definition bassline (ch_lower : ascii) (t : Z) : Rand G (list Event) :=
  if char_in ch_lower VOWELS then
    let rank := str_index ch_lower (chars VOWEL_ORDER) in
    let scale_degree := item MINOR_PENTATONIC (rank mod len MINOR_PENTATONIC) in
    let note := clamp (NOTE_BASE + scale_degree) in
    velocity <- randint 80 127 ;;
    long <- random_lt f0_6 ;;
    let duration := if long then 2 else 1 in
    sweep <- randint 60 127 ;;
    rret ([Ev t "TB303" "on" note velocity; Ev (t + duration) "TB303" "off" note 0]
          ++ (if 1 <? duration
              then [Ev t "TB303" "cc" 5 127; Ev (t + duration) "TB303" "cc" 5 0]
              else [])
          ++ [Ev t "TB303" "cc" 74 sweep])
  else if char_in ch_lower DIGITS then
    let rank := int_of_digit ch_lower in
    let scale_degree := item MINOR_PENTATONIC (rank mod len MINOR_PENTATONIC) in
    let note := clamp (NOTE_BASE + scale_degree) in
    velocity <- randint 70 110 ;;
    let duration := 1 in
    rret [Ev t "TB303" "on" note velocity; Ev (t + duration) "TB303" "off" note 0]
  else if char_in ch_lower CONSONANT_ORDER then
    let rank := str_index ch_lower (chars CONSONANT_ORDER) in
    let scale_degree := item MINOR_PENTATONIC (rank mod len MINOR_PENTATONIC) in
    let note := clamp (NOTE_BASE + scale_degree) in
    velocity <- randint 100 127 ;;
    let duration := 1 in
    res <- randint 80 127 ;;
    rret [Ev t "TB303" "on" note velocity; Ev (t + duration) "TB303" "off" note 0;
          Ev t "TB303" "cc" 71 res]
  else rret [].

(** The drums on the BP909 device: a kick on every character, rapid
    hi-hats, then the hit of the character class *)
Definition drums (ch_lower : ascii) (i t : Z) : Rand G (list Event) :=
  kick <- randint 100 127 ;;
  hat <- random_lt f0_7 ;;
  hats <- (if hat then
             closed <- random_lt f0_8 ;;
             let drum := if closed then DRUM_ch else DRUM_oh in
             v <- randint 60 90 ;;
             rret [Ev t "BP909" "on" drum v; Ev (t + 1) "BP909" "off" drum 0]
           else rret []) ;;
  hit <- (if char_in ch_lower VOWELS then
            v <- randint 100 127 ;;
            rret [Ev t "BP909" "on" DRUM_kick v; Ev (t + 1) "BP909" "off" DRUM_kick 0]
          else if char_in ch_lower DIGITS then
            v <- randint 60 90 ;;
            rret [Ev t "BP909" "on" DRUM_oh v; Ev (t + 1) "BP909" "off" DRUM_oh 0]
          else if char_in ch_lower CONSONANT_ORDER then
            let drum := if i mod 4 =? 2 then DRUM_snare
                        else if i mod 4 =? 0 then DRUM_clap else DRUM_rim in
            let velocity := if (i mod 4 =? 2) || (i mod 4 =? 0) then 90 else 70 in
            v <- randint velocity 127 ;;
            rret [Ev t "BP909" "on" drum v; Ev (t + 1) "BP909" "off" drum 0]
          else rret []) ;;
  rret ([Ev t "BP909" "on" DRUM_kick kick; Ev (t + 1) "BP909" "off" DRUM_kick 0]
        ++ hats ++ hit).

(** The lead on vowels; the draw is made for vowels only *)
Definition lead (ch_lower : ascii) (t : Z) : Rand G (list Event) :=
  if char_in ch_lower VOWELS then
    fire <- random_lt f0_4 ;;
    if fire : bool then
      let rank := str_index ch_lower (chars VOWEL_ORDER) in
      let scale_degree := item MINOR_PENTATONIC (rank mod len MINOR_PENTATONIC) in
      let note := clamp (NOTE_BASE + scale_degree + OCTAVE * 2) in
      velocity <- randint 80 127 ;;
      let duration := 1 in
      rret [Ev t "LeadSynth" "on" note velocity;
            Ev (t + duration) "LeadSynth" "off" note 0;
            Ev t "LeadSynth" "cc" 71 127]
    else rret []
  else rret [].

(** One round of the loop over the text *)
Definition encode (st : mapper G) (i : Z) (ch : ascii) : mapper G :=
  let ch_lower := lower ch in
  let t := current_time st in
  if char_in ch SAMPLES then
    let '(es, g') := sample ch t (rng st) in
    Mapper g' (pushes st ++ es) (char_timing st ++ [CT t i ch]) (t + 1)
  else if Ascii.eqb ch " " || char_in ch_lower PUNCTUATION then
    let '(es, g') := separator t (rng st) in
    Mapper g' (pushes st ++ es) (char_timing st ++ [CT t i ch]) (t + 1)
  else if negb (char_in ch_lower ENCODABLE) then
    Mapper (rng st) (pushes st) (char_timing st) (t + 1)
  else
    let '(es, g') :=
      (bass <- bassline ch_lower t ;;
       drum <- drums ch_lower i t ;;
       ld <- lead ch_lower t ;;
       rret (bass ++ drum ++ ld)) (rng st) in
    Mapper g' (pushes st ++ es) (char_timing st ++ [CT t i ch]) (t + 1).

(** The loop over the text, from the generator seeded with the text *)
Definition encode_text (text : string) : mapper G :=
  enumerate_from encode 0 (chars text) (Mapper (seed_str text) [] [] 0).

(** [text_to_event_queue(text)], entered with the module generator in any
    state [g0]; [random.seed(text)] replaces that state. *)
Definition text_to_event_queue (g0 : G) (text : string)
    : list Event * list CharTiming * G :=
  let st := encode_text text in
  (merged (pushes st), sorted_by_index (char_timing st), rng st).

End Mapper.

(** [s.isdigit()] for code points below 256: the decimal digits and the
    superscripts U+00B2, U+00B3 and U+00B9 *)
Definition isdigit (s : string) : bool :=
  negb (String.eqb s "") &&
  forallb (fun c => let n := ord c in
             ((48 <=? n) && (n <=? 57)) || (n =? 178) || (n =? 179) || (n =? 185))
          (chars s).

(** The text that [main] maps *)
Definition main_text (argv : list string) : string :=
  (if (1 <? len argv) && negb (isdigit (nth 1 argv ""))
   then join_spaces (tail argv) else DEFAULT_TEXT) +:+ " ".

(** The echo of one tick: every character that is due is printed. *)
Fixpoint echo (char_queue : list CharTiming) (tick : Z)
    : list CharTiming * list ascii :=
  match char_queue with
  | [] => ([], [])
  | c :: rest =>
      if ct_tick c <=? tick then
        let '(rest', cs) := echo rest tick in (rest', ct_ch c :: cs)
      else (char_queue, [])
  end.

(** [0x90 | channel] with [channel = DEVICES[device][2] - 1] *)
Definition status (base : Z) (device : string) : Z :=
  Z.lor base (channel_of DEVICES device - 1).

(** The [try] block of [play_event_queue(midiouts, event_queue,
    char_queue)], where [midiouts] has a port for every key of [DEVICES],
    as [main] builds it *)
Definition try_block (env : outside) (event_queue : list Event)
    (char_queue : list CharTiming) : flow (list CharTiming) :=
  running (map fst DEVICES) status (list CharTiming)
          (fun q tick => Some (echo q tick)) env
          event_queue (map ct_tick char_queue) char_queue.

Definition play_event_queue (env : outside) (event_queue : list Event)
    (char_queue : list CharTiming) : list output * bool :=
  finish status (list CharTiming) env (try_block env event_queue char_queue).

(** [main()]: nothing is mapped or played when a port fails to open.  It
    is called when the module-level code has returned ([script] below). *)
Definition main {G : Type} `{PyRandom G} (at_first : bool) (g0 : G)
    (ports_open : bool) (env : outside) (argv : list string)
    : list output * bool :=
  if ports_open then
    let '(event_queue, char_queue, _) :=
      text_to_event_queue at_first g0 (main_text argv) in
    play_event_queue env event_queue char_queue
  else ([], false).

(** What the module-level code raises *)
Inductive load_error := ValueError | ZeroDivisionError | OverflowError.

(** [c.isdecimal()] for a code point below 256 *)
Definition isdecimal (c : ascii) : bool :=
  (48 <=? ord c) && (ord c <=? 57).

(** [int(s)] for a string with [s.isdigit()]; [None] is a [ValueError].
    The superscripts are digits and not decimal, and a string of more
    than [max_str_digits] characters is refused when that is not 0
    ([sys.get_int_max_str_digits()], which is 4300 unless set otherwise). *)
Definition int (max_str_digits : nat) (s : string) : option Z :=
  if negb (forallb isdecimal (chars s)) then None
  else if negb (Nat.eqb max_str_digits 0) &&
          (max_str_digits <? length (chars s))%nat then None
  else Some (fold_left (fun n c => 10 * n + int_of_digit c) (chars s) 0).

(** The timing constants, which are computed when the file is loaded, on
    the [sys.argv] that [main] reads later:
    [BPM = int(sys.argv[1]) if len(sys.argv) > 1 and sys.argv[1].isdigit()
    else 180] and [TICK_DURATION = 60.0 / BPM / TICKS_PER_BEAT].  The
    division raises for 0 and for a [BPM] that no float holds, which is
    one from [2^1024 - 2^970] on.  The result is [BPM]. *)
Definition module_level (max_str_digits : nat) (argv : list string)
    : load_error + Z :=
  let BPM := if (1 <? len argv) && isdigit (nth 1 argv "")
             then int max_str_digits (nth 1 argv "") else Some 180 in
  match BPM with
  | None => inl ValueError
  | Some bpm =>
      if bpm =? 0 then inl ZeroDivisionError
      else if 2 ^ 1024 - 2 ^ 970 <=? bpm then inl OverflowError
      else inr bpm
  end.

(** Running the file: the module-level code, then [main()] *)
Definition script {G : Type} `{PyRandom G} (max_str_digits : nat)
    (at_first : bool) (g0 : G) (ports_open : bool) (env : outside)
    (argv : list string) : load_error + (list output * bool) :=
  match module_level max_str_digits argv with
  | inl e => inl e
  | inr _ => inr (main at_first g0 ports_open env argv)
  end.

End Speedcore2Midi.

(** * acidtrack.py *)
Module AcidTrack.

Definition BARS := 32.
Definition BEATS_PER_BAR := 4.
Definition NOTE_BASE := 36.

Definition SAMPLE_vocal1 := 48.
Definition SAMPLE_vocal2 := 50.
Definition SAMPLE_riser := 52.
Definition SAMPLE_sweep := 53.

Definition DEVICES : list (string * Z) :=
  [("TB303", 1); ("BP909", 2); ("LeadSynth", 3); ("PadSynth", 4);
   ("SampleBank1", 5); ("SampleBank2", 6); ("ArpSynth", 7); ("BassSub", 8)].

Section Generator.
Context {G : Type} `{PyRandom G}.

Definition start_of (bar : Z) : Z := bar * BEATS_PER_BAR * TICKS_PER_BEAT.

(** TB303: the acid bassline with slides and controller changes *)
Definition tb303_step (bar i : Z) : Rand G (list Event) :=
  let start_tick := start_of bar in
  let pattern := if bar mod 2 =? 0 then [0; 3; 5; 0; 7; 10; 3; 5]
                 else [0; 5; 10; 0; 3; 7; 5; 3] in
  let tick := start_tick + i * 2 in
  play <- random_lt f0_95 ;;
  if play : bool then
    let note := clamp (NOTE_BASE +
                  item MINOR_PENTATONIC (item pattern i mod len MINOR_PENTATONIC)) in
    r <- randint (-10) 10 ;;
    let velocity := 90 + r in
    long <- random_lt f0_7 ;;
    let duration := if long then 3 else 2 in
    slide <- random_lt f0_8 ;;
    res <- randint 0 40 ;;
    cut <- randint 0 50 ;;
    rret [Ev tick "TB303" "on" note velocity;
          Ev (tick + duration) "TB303" "off" note 0;
          Ev tick "TB303" "cc" 5 (if slide then 127 else 0);
          Ev (tick + duration) "TB303" "cc" 5 0;
          Ev tick "TB303" "cc" 71 (80 + res);
          Ev tick "TB303" "cc" 74 (60 + cut)]
  else rret [].

Definition tb303 : Rand G (list Event) :=
  for_each (fun bar => for_each (tb303_step bar) (range 0 8)) (range 0 BARS).

(** BassSub: the sub-bass from the third bar on *)
Definition bass_sub : Rand G (list Event) :=
  for_each (fun bar =>
    let start_tick := start_of bar in
    if 2 <=? bar then
      for_each (fun beat =>
        let tick := start_tick + beat * TICKS_PER_BEAT in
        let note := NOTE_BASE - OCTAVE in
        rret [Ev tick "BassSub" "on" note 100; Ev (tick + 2) "BassSub" "off" note 0])
        (range 0 4)
    else rret []) (range 0 BARS).

(** BP909: one beat of the drum pattern *)
Definition bp909_beat (bar beat : Z) : Rand G (list Event) :=
  let tick := start_of bar + beat * TICKS_PER_BEAT in
  off_kick <- random_lt f0_2 ;;
  hats <- for_each (fun i =>
            let htick := tick + i in
            r <- randint (-10) 10 ;;
            rret [Ev htick "BP909" "on" DRUM_ch (70 + r);
                  Ev (htick + 1) "BP909" "off" DRUM_ch 0]) (range 0 4) ;;
  toms <- (if 8 <=? bar then
             fire <- random_lt f0_3 ;;
             if fire : bool then
               low <- random_lt f0_5 ;;
               let tom := if low then DRUM_ltom else DRUM_htom in
               rret [Ev (tick + 3) "BP909" "on" tom 80; Ev (tick + 4) "BP909" "off" tom 0]
             else rret []
           else rret []) ;;
  rims <- (if 12 <=? bar then
             fire <- random_lt f0_2 ;;
             if fire : bool then
               rret [Ev (tick + 1) "BP909" "on" DRUM_rim 75;
                     Ev (tick + 2) "BP909" "off" DRUM_rim 0]
             else rret []
           else rret []) ;;
  rret ([Ev tick "BP909" "on" DRUM_kick 100; Ev (tick + 1) "BP909" "off" DRUM_kick 0]
        ++ (if off_kick && (beat mod 2 =? 1)
            then [Ev (tick + 2) "BP909" "on" DRUM_kick 80;
                  Ev (tick + 3) "BP909" "off" DRUM_kick 0] else [])
        ++ (if beat mod 2 =? 1
            then [Ev tick "BP909" "on" DRUM_snare 90;
                  Ev (tick + 1) "BP909" "off" DRUM_snare 0] else [])
        ++ (if (beat mod 2 =? 1) && (4 <=? bar)
            then [Ev (tick + 2) "BP909" "on" DRUM_clap 85;
                  Ev (tick + 3) "BP909" "off" DRUM_clap 0] else [])
        ++ hats
        ++ (if beat mod 2 =? 1
            then [Ev (tick + 2) "BP909" "on" DRUM_oh 80;
                  Ev (tick + 3) "BP909" "off" DRUM_oh 0] else [])
        ++ toms
        ++ rims
        ++ (if (beat =? 0) && (bar mod 4 =? 0)
            then [Ev tick "BP909" "on" DRUM_crash 90;
                  Ev (tick + 2) "BP909" "off" DRUM_crash 0] else [])).

Definition bp909 : Rand G (list Event) :=
  for_each (fun bar => for_each (bp909_beat bar) (range 0 4)) (range 0 BARS).

(** LeadSynth: melodic stabs *)
Definition lead_synth : Rand G (list Event) :=
  for_each (fun bar =>
    for_each (fun beat =>
      let tick := start_of bar + beat * TICKS_PER_BEAT in
      k <- randint 0 4 ;;
      let note := clamp (NOTE_BASE + OCTAVE + item MINOR_PENTATONIC k) in
      rret [Ev tick "LeadSynth" "on" note 80; Ev (tick + 2) "LeadSynth" "off" note 0])
      [0; 2]) (range 4 BARS).

(** ArpSynth: the arpeggio *)
Definition arp_synth : Rand G (list Event) :=
  for_each (fun bar =>
    let arp_notes := [0; 3; 7; 10; 7; 3] in
    for_each (fun i =>
      let tick := start_of bar + i * 2 in
      let note := clamp (NOTE_BASE + OCTAVE * 2 +
                    item MINOR_PENTATONIC
                      (item arp_notes (i mod len arp_notes) mod len MINOR_PENTATONIC)) in
      rret [Ev tick "ArpSynth" "on" note 75; Ev (tick + 1) "ArpSynth" "off" note 0])
      (range 0 8)) (range 8 BARS).

(** PadSynth: ambient chords *)
Definition pad_synth : Rand G (list Event) :=
  for_each (fun bar =>
    let start_tick := start_of bar in
    let chord_root := NOTE_BASE + OCTAVE + item MINOR_PENTATONIC 0 in
    for_each (fun offset =>
      let note := clamp (chord_root + offset) in
      rret [Ev start_tick "PadSynth" "on" note 60;
            Ev (start_tick + 16) "PadSynth" "off" note 0])
      PAD_CHORD_NOTES) (range 2 28).

(** SampleBank1: vocal chops *)
Definition sample_bank1 : Rand G (list Event) :=
  for_each (fun bar =>
    let start_tick := start_of bar in
    rret ([Ev start_tick "SampleBank1" "on" SAMPLE_vocal1 100;
           Ev (start_tick + 4) "SampleBank1" "off" SAMPLE_vocal1 0]
          ++ (if 12 <=? bar
              then [Ev (start_tick + 8) "SampleBank1" "on" SAMPLE_vocal2 100;
                    Ev (start_tick + 12) "SampleBank1" "off" SAMPLE_vocal2 0]
              else []))) (range_step 4 BARS 4).

(** SampleBank2: the riser of the breakdown *)
Definition sample_bank2 : Rand G (list Event) :=
  for_each (fun bar =>
    let start_tick := start_of bar in
    rret [Ev start_tick "SampleBank2" "on" SAMPLE_riser 90;
          Ev (start_tick + 16) "SampleBank2" "off" SAMPLE_riser 0]) (range 20 24).

(** The tuples pushed by [generate_acid_patterns], in program order *)
Definition patterns : Rand G (list Event) :=
  a <- tb303 ;;
  b <- bass_sub ;;
  c <- bp909 ;;
  d <- lead_synth ;;
  e <- arp_synth ;;
  f <- pad_synth ;;
  s1 <- sample_bank1 ;;
  s2 <- sample_bank2 ;;
  rret (a ++ b ++ c ++ d ++ e ++ f ++ s1 ++ s2).

(** [generate_acid_patterns()], entered with the module generator in any
    state [g0]; [random.seed(42)] replaces that state. *)
Definition generate_acid_patterns (g0 : G) : list Event * G :=
  let '(es, g) := patterns (seed_int 42) in
  (merged es, g).

End Generator.

(** [0x90 | channel] with [channel = DEVICES[device][2] - 1] *)
Definition status (base : Z) (device : string) : Z :=
  Z.lor base (channel_of DEVICES device - 1).

(** The [try] block of [play_event_queue(midiouts, event_queue)], where
    [midiouts] has a port for every key of [DEVICES], as [main] builds it;
    nothing is echoed. *)
Definition try_block (env : outside) (event_queue : list Event) : flow unit :=
  running (map fst DEVICES) status unit (fun q _ => Some (q, [])) env
          event_queue [] tt.

Definition play_event_queue (env : outside) (event_queue : list Event)
    : list output * bool :=
  finish status unit env (try_block env event_queue).

(** [main()] *)
Definition main {G : Type} `{PyRandom G} (g0 : G) (ports_open : bool)
    (env : outside) : list output * bool :=
  if ports_open then play_event_queue env (fst (generate_acid_patterns g0))
  else ([], false).

End AcidTrack.


(** * Specification vocabulary *)

(** Tuple order as a relation: [a] may stand before [b]. *)
Definition tuple_le : Event -> Event -> Prop := le_of tuple_ltb.

(** The two data bytes of an event are seven-bit values. *)
Definition in_midi_range (e : Event) : Prop :=
  0 <= ev_value e <= 127 /\ 0 <= ev_param e <= 127.

(** A list of pushed tuples in which every note-on is followed at once by
    the note-off of the same device and note, [dur >= 1] ticks later *)
Inductive paired : list Event -> Prop :=
| paired_nil : paired []
| paired_cc t d v p l : paired l -> paired (Ev t d "cc" v p :: l)
| paired_note t d n v dur l :
    1 <= dur -> paired l ->
    paired (Ev t d "on" n v :: Ev (t + dur) d "off" n 0 :: l).

(** The note-ons and the note-offs of device [d] and note [n] *)
Definition is_note_on (d : string) (n : Z) (e : Event) : bool :=
  String.eqb (ev_device e) d && String.eqb (ev_action e) "on" && (ev_value e =? n).

Definition is_note_off (d : string) (n : Z) (e : Event) : bool :=
  String.eqb (ev_device e) d && String.eqb (ev_action e) "off" && (ev_value e =? n).

(** How many elements of [l] satisfy [p] *)
Definition count_if {A} (p : A -> bool) (l : list A) : nat :=
  length (List.filter p l).

(** A character that no class of the mapper claims for a note: it is not
    in the encodable set, not a space and not separator punctuation. *)
Definition unencodable (ch : ascii) : Prop :=
  char_in (lower ch) ENCODABLE = false /\ ch <> " "%char /\
  char_in (lower ch) PUNCTUATION = false.

(** Ties in emission order: of two events of [sequence] with one tick, the
    one that stands first was pushed first. *)
Definition ties_in_emission_order (pushed sequence : list Event) : Prop :=
  forall i j e1 e2,
    sequence !! i = Some e1 -> sequence !! j = Some e2 -> (i < j)%nat ->
    ev_tick e1 = ev_tick e2 ->
    exists i' j', pushed !! i' = Some e1 /\ pushed !! j' = Some e2 /\ (i' < j')%nat.

(** A generator to run the programs with: a linear congruential one. *)
Definition lcg_next (s : Z) : Z :=
  (s * 6364136223846793005 + 1442695040888963407) mod 2 ^ 64.

Definition lcg_seed (s : string) : Z :=
  fold_left (fun a c => a * 31 + ord c) (chars s) 7.

#[global] Instance lcg_random : PyRandom Z := {|
  seed_str := lcg_seed;
  seed_int := fun n => n;
  random53 := fun g => (lcg_next g mod 2 ^ 53, lcg_next g);
  randbelow := fun n g => (lcg_next g mod n, lcg_next g);
  random53_range := fun g =>
    Z.mod_pos_bound (lcg_next g) (2 ^ 53) (eq_refl : (0 ?= 2 ^ 53) = Lt);
  randbelow_range := fun n g Hn => Z.mod_pos_bound (lcg_next g) n Hn
|}.

(** An event of device [d] with action [a] *)
Definition has_action (d a : string) (e : Event) : bool :=
  String.eqb (ev_device e) d && String.eqb (ev_action e) a.

(** Pushed tuples that are paired and within the range of MIDI data *)
Definition sound (es : list Event) : Prop := paired es /\ Forall in_midi_range es.

(** What [dispatch] sends for an event *)
Definition message_of (status : Z -> string -> Z) (e : Event) : list output :=
  if String.eqb (ev_action e) "on" then
    [Send (ev_device e) [status 144 (ev_device e); ev_value e; ev_param e]]
  else if String.eqb (ev_action e) "off" then
    [Send (ev_device e) [status 128 (ev_device e); ev_value e; 0]]
  else if String.eqb (ev_action e) "cc" then
    [Send (ev_device e) [status 176 (ev_device e); ev_value e; ev_param e]]
  else [].

(** The printed characters of a run *)
Definition is_echo (o : output) : bool :=
  match o with Echo _ => true | _ => false end.

(** A run without the echo of the text *)
Definition without_echo (outs : list output) : list output :=
  List.filter (fun o => negb (is_echo o)) outs.

(** The events of one tick, in the order of the queue *)
Definition due (tick : Z) (events : list Event) : list Event :=
  List.filter (fun e => ev_tick e =? tick) events.

(** What a run sends and sleeps through from tick [from] up to [max_tick] *)
Definition schedule (status : Z -> string -> Z) (events : list Event)
    (from max_tick : Z) : list output :=
  flat_map (fun t => flat_map (message_of status) (due t events) ++ [Sleep])
           (range from (max_tick + 1)).

(** [active_notes[device]] *)
Fixpoint notes_of (active : list (string * gset Z)) (device : string) : gset Z :=
  match active with
  | [] => ∅
  | (d, ns) :: active' => if String.eqb d device then ns else notes_of active' device
  end.

(** The notes a device holds after the messages of a run: a note-on adds
    its note and a note-off removes it, whatever the channel. *)
Definition held_step (device : string) (notes : gset Z) (o : output) : gset Z :=
  match o with
  | Send d [st; note; _] =>
      if String.eqb d device then
        if Z.land st 240 =? 144 then {[note]} ∪ notes
        else if Z.land st 240 =? 128 then notes ∖ {[note]}
        else notes
      else notes
  | _ => notes
  end.

Definition held (device : string) (outs : list output) : gset Z :=
  fold_left (held_step device) outs ∅.

(** The status bytes of a device table keep the kind of the message in
    the high half. *)
Definition status_ok (devices : list string) (status : Z -> string -> Z) : Prop :=
  Forall (fun d => Z.land (status 144 d) 240 = 144 /\
                   Z.land (status 128 d) 240 = 128 /\
                   Z.land (status 176 d) 240 = 176) devices.

(** [m] is the highest of [l]. *)
Definition highest (l : list Z) (m : Z) : Prop :=
  In m l /\ Forall (fun x => x <= m) l.

(** What the scheduler keeps true of its state: the keys of
    [active_notes] are the devices, and each set holds the notes its
    device holds. *)
Definition run_inv {E} (devices : list string) (s : sched E) : Prop :=
  map fst (active_notes s) = devices /\
  forall d, held d (out s) =
            if bool_decide (d ∈ devices) then notes_of (active_notes s) d else ∅.

(** A [try] block left by a stop signal on the return of its last call of
    [send_message]: the message is out, and the statement after the call,
    which tells [active_notes], has not run. *)
Definition pending {E} (env : outside) (f : flow E) : bool :=
  raised f &&
  match sent (state_of f) with
  | O => false
  | S call => negb (send_raises env call) && stop_after_send env call
  end.

(** The outputs that [active_notes] has been told of: all of them, but
    for the last message when the statement after its call is pending *)
Definition entered {E} (env : outside) (f : flow E) : list output :=
  if pending env f then removelast (out (state_of f)) else out (state_of f).

(** The last call of [send_message], if any, has returned and no stop
    signal came with its return. *)
Definition settled {E} (env : outside) (s : sched E) : Prop :=
  forall call, sent s = S call ->
    send_raises env call = false /\ stop_after_send env call = false.

(** What holds of the [try] block wherever it is left: [active_notes]
    answers to the outputs it has been told of, no message has gone to a
    device outside the table, and a block that has not raised is settled. *)
Definition flow_inv {E} (env : outside) (devices : list string) (f : flow E) : Prop :=
  run_inv devices (Sched (entered env f) (active_notes (state_of f))
                         (sent (state_of f)) (echo_state (state_of f))) /\
  (forall d, ~ In d devices -> held d (out (state_of f)) = ∅) /\
  (raised f = false -> settled env (state_of f)).

(** An event the scheduler can play: its tick is not negative and its
    device is a key of the device table. *)
Definition playable (devices : list string) (e : Event) : Prop :=
  0 <= ev_tick e /\ In (ev_device e) devices.


(** * The ALSA connections

    [get_alsa_ports] and [connect_midi_ports] are the same in the three
    programs.  The commands they run are outside the program: a command
    ends with exit status 0 and its output, or with another status
    ([CalledProcessError] under [check_output] and under [check=True]), or
    it does not run at all (any other exception, as [FileNotFoundError]
    when there is no [aconnect]). *)

Inductive command_result :=
| Exit0 (out : string)
| CalledProcessError
| OtherError.

Module Alsa.

(** [c.isspace()], which is also [\s] of [re], for a code point below 256 *)
Definition isspace (c : ascii) : bool :=
  let n := ord c in
  ((9 <=? n) && (n <=? 13)) || ((28 <=? n) && (n <=? 32)) || (n =? 133) || (n =? 160).

(** [\d] of [re] for a code point below 256: a decimal digit *)
Definition isdecimal (c : ascii) : bool :=
  let n := ord c in (48 <=? n) && (n <=? 57).

(** The line boundaries of [str.splitlines] below 256; a carriage return
    followed by a line feed is one boundary. *)
Definition is_linebreak (c : ascii) : bool :=
  let n := ord c in
  ((10 <=? n) && (n <=? 13)) || ((28 <=? n) && (n <=? 30)) || (n =? 133).

(** [out.splitlines()]; [cur] is the line read so far, last character
    first.  No line follows a boundary at the end of the text. *)
Fixpoint splitlines_from (cur : list ascii) (s : list ascii) : list (list ascii) :=
  match s with
  | [] => match cur with [] => [] | _ :: _ => [rev cur] end
  | c :: s' =>
      if is_linebreak c then
        rev cur ::
        match s' with
        | c' :: s'' =>
            if Ascii.eqb c "013" && Ascii.eqb c' "010"
            then splitlines_from [] s'' else splitlines_from [] s'
        | [] => splitlines_from [] s'
        end
      else splitlines_from (c :: cur) s'
  end.

Definition splitlines (out : string) : list (list ascii) :=
  splitlines_from [] (chars out).

(** The longest initial part of [s] whose characters satisfy [p], and the
    rest: what a greedy [p+] or [p*] takes when the character after it
    cannot satisfy [p] *)
Fixpoint span (p : ascii -> bool) (s : list ascii) : list ascii * list ascii :=
  match s with
  | [] => ([], [])
  | c :: s' =>
      if p c then let '(taken, rest) := span p s' in (c :: taken, rest)
      else ([], s)
  end.

(** [s] after the literal [lit] at its head *)
Fixpoint after (lit s : list ascii) : option (list ascii) :=
  match lit, s with
  | [], _ => Some s
  | a :: lit', b :: s' => if Ascii.eqb a b then after lit' s' else None
  | _ :: _, [] => None
  end.

(** [(\d+)] and what follows it *)
Definition number (s : list ascii) : option (list ascii * list ascii) :=
  match span isdecimal s with
  | ([], _) => None
  | (num, rest) => Some (num, rest)
  end.

(** ['([^']+)']: the name between two single quotes *)
Definition quoted (s : list ascii) : option (list ascii) :=
  match after ["'"%char] s with
  | None => None
  | Some s1 =>
      match span (fun c => negb (Ascii.eqb c "'")) s1 with
      | ((_ :: _) as name, _ :: _) => Some name
      | _ => None
      end
  end.

(** [re.match(r"^client (\d+): '([^']+)'", line)]: its two groups *)
Definition match_client (line : list ascii) : option (list ascii * list ascii) :=
  match after (chars "client ") line with
  | None => None
  | Some s1 =>
      match number s1 with
      | None => None
      | Some (num, s2) =>
          match after (chars ": ") s2 with
          | None => None
          | Some s3 =>
              match quoted s3 with
              | None => None
              | Some name => Some (num, name)
              end
          end
      end
  end.

(** [re.match(r"\s+(\d+) '([^']+)'", line)]: its two groups *)
Definition match_port (line : list ascii) : option (list ascii * list ascii) :=
  match span isspace line with
  | ([], _) => None
  | (_ :: _, s1) =>
      match number s1 with
      | None => None
      | Some (num, s2) =>
          match after (chars " ") s2 with
          | None => None
          | Some s3 =>
              match quoted s3 with
              | None => None
              | Some name => Some (num, name)
              end
          end
      end
  end.

(** [s.strip()] *)
Definition lstrip (s : list ascii) : list ascii := snd (span isspace s).
Definition strip (s : list ascii) : list ascii := rev (lstrip (rev (lstrip s))).

(** [d[key] = value] on a dict, which keeps its keys in the order they
    were first set *)
Fixpoint dict_set (key value : string) (d : list (string * string))
    : list (string * string) :=
  match d with
  | [] => [(key, value)]
  | (k, v) :: d' =>
      if String.eqb k key then (k, value) :: d' else (k, v) :: dict_set key value d'
  end.

Definition str (s : list ascii) : string := string_of_list_ascii s.

(** The state of the loop over the lines *)
Record scan := Scan {
  ports : list (string * string);
  current_client : option string;
  current_client_name : option string
}.

(** An f-string prints a [None] by its name. *)
Definition format (o : option string) : string :=
  match o with Some s => s | None => "None" end.

(** A value taken for true by [if] and [and]: not [None] and not empty *)
Definition truthy (o : option string) : bool :=
  match o with Some s => negb (String.eqb s "") | None => false end.

(** The body of the loop for one line *)
Definition scan_line (st : scan) (line : list ascii) : scan :=
  let st1 :=
    match match_client line with
    | Some (num, name) => Scan (ports st) (Some (str num)) (Some (str name))
    | None => st
    end in
  match match_port line with
  | Some (port_num, port_name) =>
      if truthy (current_client st1) then
        let key := format (current_client_name st1) +:+ ":" +:+ str (strip port_name) in
        let value := format (current_client st1) +:+ ":" +:+ str port_num in
        Scan (dict_set key value (ports st1)) (current_client st1)
             (current_client_name st1)
      else st1
  | None => st1
  end.

(** [get_alsa_ports()], given how [aconnect -l] ends; [None] is an
    exception that it does not catch. *)
Definition get_alsa_ports (listing : command_result)
    : option (list (string * string)) :=
  match listing with
  | Exit0 out => Some (ports (fold_left scan_line (splitlines out) (Scan [] None None)))
  | CalledProcessError => Some []
  | OtherError => None
  end.

(** [name in k] for two strings *)
Fixpoint contains (name k : string) : bool :=
  String.prefix name k ||
  match k with
  | EmptyString => false
  | String _ k' => contains name k'
  end.

(** [next((v for k, v in ports.items() if name in k), None)] *)
Fixpoint find_port (name : string) (ports : list (string * string)) : option string :=
  match ports with
  | [] => None
  | (k, v) :: ports' => if contains name k then Some v else find_port name ports'
  end.

(** What [connect_midi_ports] does to the outside *)
Inductive action :=
| ListPorts
| RunAconnect (src dst : string)
| PrintConnected (src_name dst_name : string)
| PrintCouldNotConnect (src_name dst_name : string)
| PrintPortNotFound (name : string)
| Wait.

(** What the two commands of one round of the loop meet *)
Record attempt := Attempt {
  listing : command_result;
  connecting : command_result
}.

(** [for _ in range(5)] from round [k] on, with [rounds] rounds left;
    [world k] is what round [k] meets.  The result is [None] when an
    exception leaves the function. *)
Fixpoint connect_loop (world : nat -> attempt) (src_name dst_name : string)
    (rounds k : nat) (done : list action) : list action * option bool :=
  match rounds with
  | O => (done, Some false)
  | S rounds' =>
      match get_alsa_ports (listing (world k)) with
      | None => (done ++ [ListPorts], None)
      | Some ports =>
          let src := find_port src_name ports in
          let dst := find_port dst_name ports in
          if truthy src && truthy dst then
            match connecting (world k) with
            | Exit0 _ =>
                (done ++ [ListPorts; RunAconnect (format src) (format dst);
                          PrintConnected src_name dst_name], Some true)
            | CalledProcessError =>
                connect_loop world src_name dst_name rounds' (S k)
                  (done ++ [ListPorts; RunAconnect (format src) (format dst);
                            PrintCouldNotConnect src_name dst_name; Wait])
            | OtherError =>
                (done ++ [ListPorts; RunAconnect (format src) (format dst)], None)
            end
          else
            connect_loop world src_name dst_name rounds' (S k)
              (done ++ [ListPorts;
                        PrintPortNotFound (if truthy src then dst_name else src_name);
                        Wait])
      end
  end.

(** [connect_midi_ports(src_name, dst_name)] *)
Definition connect_midi_ports (world : nat -> attempt) (src_name dst_name : string)
    : list action * option bool :=
  connect_loop world src_name dst_name 5 0 [].

End Alsa.

(** * Further vocabulary *)

(** [char_timing] grows by one entry at most in a round, with the index of
    the round. *)
Definition indexed_below (i : Z) (l : list CharTiming) : Prop :=
  StronglySorted (le_of (fun a b => ct_index a <? ct_index b)) l /\
  Forall (fun c => ct_index c < i) l.

(** A character on which acid2midi moves [current_time] on: a space,
    separator punctuation or a character of the encodable set *)
Definition advances (ch : ascii) : bool :=
  Ascii.eqb ch " " || char_in (lower ch) PUNCTUATION || char_in (lower ch) ENCODABLE.

(** A character that speedcore2midi enters in [char_timing]: a sample
    trigger or one of the former *)
Definition timed_by_speedcore (ch : ascii) : bool :=
  char_in ch Speedcore2Midi.SAMPLES || advances ch.

(** An event whose tick lies between [lo] and [hi] *)
Definition tick_within (lo hi : Z) (e : Event) : Prop := lo <= ev_tick e <= hi.


(** The characters a run printed, in order *)
Definition echoed (outs : list output) : list ascii :=
  flat_map (fun o => match o with Echo c => [c] | _ => [] end) outs.

(** What the echo prints in [rounds] rounds of the loop from [tick] on,
    when nothing else ends the loop *)
Fixpoint echo_run {E : Type} (echo : E -> Z -> option (E * list ascii))
    (rounds : nat) (tick : Z) (st : E) : list ascii :=
  match rounds with
  | O => []
  | S rounds' =>
      match echo st tick with
      | Some (st', cs) => cs ++ echo_run echo rounds' (tick + 1) st'
      | None => []
      end
  end.

(** The MIDI messages among the outputs of a run *)
Definition is_send (o : output) : bool :=
  match o with Send _ _ => true | _ => false end.

Definition messages (outs : list output) : list output := List.filter is_send outs.

(** A step under any outside either does what it does when nothing is in
    its way, or raises having done an initial part of it. *)
Definition cut_short {E : Type} (f fq : flow E) : Prop :=
  f = fq \/ (raised f = true /\ out (state_of f) `prefix_of` out (state_of fq)).



(** An ALSA address [client:port]: two decimal numbers and a colon *)
Definition is_address (v : string) : Prop :=
  exists client port : list ascii,
    v = Alsa.str client +:+ ":" +:+ Alsa.str port /\
    client <> [] /\ port <> [] /\
    forallb Alsa.isdecimal client = true /\ forallb Alsa.isdecimal port = true.

(** How many of the actions of a run satisfy [p] *)
Definition is_wait (a : Alsa.action) : bool :=
  match a with Alsa.Wait => true | _ => false end.

Definition is_list_ports (a : Alsa.action) : bool :=
  match a with Alsa.ListPorts => true | _ => false end.

(** A round of [connect_midi_ports] that connects: both names are found
    in the listing and [aconnect] ends with status 0. *)
Definition connects (src_name dst_name : string) (a : Alsa.attempt) : bool :=
  match Alsa.get_alsa_ports (Alsa.listing a) with
  | Some ports =>
      match Alsa.find_port src_name ports, Alsa.find_port dst_name ports,
            Alsa.connecting a with
      | Some _, Some _, Exit0 _ => true
      | _, _, _ => false
      end
  | None => false
  end.

(** A round that meets an exception which [connect_midi_ports] does not
    catch *)
Definition breaks (src_name dst_name : string) (a : Alsa.attempt) : bool :=
  match Alsa.get_alsa_ports (Alsa.listing a) with
  | Some ports =>
      match Alsa.find_port src_name ports, Alsa.find_port dst_name ports,
            Alsa.connecting a with
      | Some _, Some _, OtherError => true
      | _, _, _ => false
      end
  | None => true
  end.

(** A round that does neither: a name is missing from the listing, or
    [aconnect] ends with a status other than 0 *)
Definition fails (src_name dst_name : string) (a : Alsa.attempt) : bool :=
  negb (connects src_name dst_name a) && negb (breaks src_name dst_name a).

(** The values of [DRUM_NOTES] *)
Definition DRUM_NOTES : list Z :=
  [DRUM_kick; DRUM_snare; DRUM_ltom; DRUM_htom; DRUM_rim; DRUM_clap; DRUM_ch;
   DRUM_oh; DRUM_crash; DRUM_ride].

(** A pitch of the minor pentatonic scale on [base] *)
Definition in_scale (base note : Z) : Prop := In (note - base) MINOR_PENTATONIC.

(** An event in tune: a control change, or a note that is, on the TB303
    and the lead, a pitch of the scale on their base and, on the BP909, a
    note of the drum map *)
Definition in_tune (bass lead : Z) (e : Event) : Prop :=
  ev_action e = "cc" \/
  ((ev_device e = "TB303" -> in_scale bass (ev_value e)) /\
   (ev_device e = "LeadSynth" -> in_scale lead (ev_value e)) /\
   (ev_device e = "BP909" -> In (ev_value e) DRUM_NOTES)).

(** A client of a listing of [aconnect -l]: its number, its name, what
    follows the name on its line, and its ports, each a number and a name *)
Record client := Client {
  client_num : list ascii;
  client_name : list ascii;
  client_tail : list ascii;
  client_ports : list (list ascii * list ascii)
}.

(** The line of a client, [client 14: 'Midi Through' [type=kernel]], and
    the line of a port, [    0 'Midi Through Port-0'] *)
Definition client_line (c : client) : list ascii :=
  chars "client " ++ client_num c ++ chars ": '" ++ client_name c ++
  "'"%char :: client_tail c.

Definition port_line (p : list ascii * list ascii) : list ascii :=
  chars "    " ++ fst p ++ chars " '" ++ snd p ++ chars "'".

Definition listing_lines (clients : list client) : list (list ascii) :=
  flat_map (fun c => client_line c :: map port_line (client_ports c)) clients.

(** The text of lines, each ended by a line feed *)
Definition listing_text (lines : list (list ascii)) : string :=
  Alsa.str (flat_map (fun line => line ++ ["010"%char]) lines).

(** A decimal number, and a name as a listing can show it: not empty,
    without a single quote and within one line *)
Definition is_number (s : list ascii) : bool :=
  negb (Nat.eqb (length s) 0) && forallb Alsa.isdecimal s.

Definition is_name (s : list ascii) : bool :=
  negb (Nat.eqb (length s) 0) &&
  forallb (fun c => negb (Ascii.eqb c "'") && negb (Alsa.is_linebreak c)) s.

Definition well_formed (c : client) : bool :=
  is_number (client_num c) && is_name (client_name c) &&
  forallb (fun ch => negb (Alsa.is_linebreak ch)) (client_tail c) &&
  forallb (fun p => is_number (fst p) && is_name (snd p)) (client_ports c).

(** The entries of the ports of a client: [name:port] for the key, the
    port name without the blanks around it, and [client:port] in numbers
    for the value *)
Definition port_entries (c : client) : list (string * string) :=
  map (fun p => (Alsa.str (client_name c) +:+ ":" +:+ Alsa.str (Alsa.strip (snd p)),
                 Alsa.str (client_num c) +:+ ":" +:+ Alsa.str (fst p)))
      (client_ports c).

(** A dict built by setting the entries in turn *)
Definition dict_of (entries : list (string * string)) : list (string * string) :=
  fold_left (fun d kv => Alsa.dict_set (fst kv) (snd kv) d) entries [].

(** An event that is, if it is for the Samples device, a note-on *)
Definition sample_is_note_on (e : Event) : Prop :=
  ev_device e = "Samples" -> ev_action e = "on".

(** A second generator, to compare runs with: every draw is the least. *)
#[global] Instance least_random : PyRandom unit := {|
  seed_str := fun _ => tt;
  seed_int := fun _ => tt;
  random53 := fun g => (0, g);
  randbelow := fun n g => (0, g);
  random53_range := fun g => conj (Z.le_refl 0) (eq_refl : (0 ?= 2 ^ 53) = Lt);
  randbelow_range := fun n g Hn => conj (Z.le_refl 0) Hn
|}.


(** * Properties *)

(** ** The order of tuples *)

Lemma string_compare_lt_trans a b c :
  String.compare a b = Lt -> String.compare b c = Lt -> String.compare a c = Lt.
Proof.
  intros Hab Hbc. apply String_as_OT.cmp_lt.
  eapply String_as_OT.lt_trans; apply String_as_OT.cmp_lt; eassumption.
Qed.

Lemma lex_lt_trans {A} (cmp : A -> A -> comparison) k1 k2 k3 (a b c : A) :
  (forall x y, cmp x y = Eq -> x = y) ->
  (cmp a b = Lt -> cmp b c = Lt -> cmp a c = Lt) ->
  (k1 = Lt -> k2 = Lt -> k3 = Lt) ->
  lex (cmp a b) k1 = Lt -> lex (cmp b c) k2 = Lt -> lex (cmp a c) k3 = Lt.
Proof.
  intros Heq Htr Hk. unfold lex.
  destruct (cmp a b) eqn:Eab; destruct (cmp b c) eqn:Ebc; try discriminate; intros H1 H2.
  - pose proof (Heq _ _ Eab). subst. rewrite Ebc. auto.
  - pose proof (Heq _ _ Eab). subst. by rewrite Ebc.
  - pose proof (Heq _ _ Ebc). subst. by rewrite Eab.
  - by rewrite Htr.
Qed.
Lemma lex_opp c k : lex (CompOpp c) (CompOpp k) = CompOpp (lex c k).
Proof. by destruct c. Qed.

Lemma tuple_compare_eq a b : tuple_compare a b = Eq -> a = b.
Proof.
  destruct a as [t1 d1 a1 v1 p1], b as [t2 d2 a2 v2 p2].
  unfold tuple_compare, lex; simpl.
  destruct (t1 ?= t2) eqn:Et; try discriminate.
  destruct (String.compare d1 d2) eqn:Ed; try discriminate.
  destruct (String.compare a1 a2) eqn:Ea; try discriminate.
  destruct (v1 ?= v2) eqn:Ev; try discriminate.
  intros Ep.
  apply Z.compare_eq in Et, Ev, Ep.
  apply String_as_OT.cmp_eq in Ed, Ea. by subst.
Qed.

Lemma tuple_compare_antisym a b : tuple_compare b a = CompOpp (tuple_compare a b).
Proof.
  unfold tuple_compare.
  rewrite (Z.compare_antisym (ev_tick a)), (Z.compare_antisym (ev_value a)),
    (Z.compare_antisym (ev_param a)).
  rewrite (String.compare_antisym (ev_device b)), (String.compare_antisym (ev_action b)).
  by rewrite !lex_opp.
Qed.

Lemma tuple_compare_lt_trans a b c :
  tuple_compare a b = Lt -> tuple_compare b c = Lt -> tuple_compare a c = Lt.
Proof.
  unfold tuple_compare.
  apply (lex_lt_trans Z.compare); [apply Z.compare_eq | |].
  { rewrite !Z.compare_lt_iff. lia. }
  apply (lex_lt_trans String.compare);
    [apply String_as_OT.cmp_eq | apply string_compare_lt_trans |].
  apply (lex_lt_trans String.compare);
    [apply String_as_OT.cmp_eq | apply string_compare_lt_trans |].
  apply (lex_lt_trans Z.compare); [apply Z.compare_eq | |].
  { rewrite !Z.compare_lt_iff. lia. }
  rewrite !Z.compare_lt_iff. lia.
Qed.

Lemma tuple_ltb_asym a b : tuple_ltb a b = true -> tuple_ltb b a = false.
Proof.
  unfold tuple_ltb. rewrite (tuple_compare_antisym a b).
  by destruct (tuple_compare a b).
Qed.

Lemma tuple_le_trans a b c : tuple_le a b -> tuple_le b c -> tuple_le a c.
Proof.
  unfold tuple_le, le_of, tuple_ltb. intros Hab Hbc.
  destruct (tuple_compare c a) eqn:Eca; try done.
  destruct (tuple_compare b a) eqn:Eba; try done.
  - apply tuple_compare_eq in Eba. subst. by rewrite Eca in Hbc.
  - rewrite tuple_compare_antisym in Eba.
    destruct (tuple_compare a b) eqn:Eab; try done.
    by rewrite (tuple_compare_lt_trans c a b) in Hbc.
Qed.

(** ** sorted *)

Section SortFacts.
Context {A : Type} (ltb : A -> A -> bool).

Lemma sort_insert_perm x l : sort_insert ltb x l ≡ₚ x :: l.
Proof.
  induction l as [|y l IH]; simpl; [done|].
  destruct (ltb y x); [|done].
  rewrite IH. apply perm_swap.
Qed.

Lemma py_sorted_perm l : py_sorted ltb l ≡ₚ l.
Proof.
  induction l as [|x l IH]; simpl; [done|].
  by rewrite sort_insert_perm, IH.
Qed.

(** Elements that the order does not separate keep their places. *)
Lemma sort_insert_filter (p : A -> bool) x l :
  (forall a b, p a = true -> p b = true -> ltb a b = false) ->
  List.filter p (sort_insert ltb x l) = List.filter p (x :: l).
Proof.
  intros Hp. induction l as [|y l IH]; simpl; [done|].
  destruct (ltb y x) eqn:Eyx; simpl; [|done].
  rewrite IH. simpl.
  destruct (p x) eqn:Ex, (p y) eqn:Ey; try done.
  by rewrite (Hp y x) in Eyx.
Qed.

Lemma py_sorted_stable (p : A -> bool) l :
  (forall a b, p a = true -> p b = true -> ltb a b = false) ->
  List.filter p (py_sorted ltb l) = List.filter p l.
Proof.
  intros Hp. induction l as [|x l IH]; simpl; [done|].
  rewrite sort_insert_filter by done. simpl. by rewrite IH.
Qed.

Hypothesis ltb_asym : forall a b, ltb a b = true -> ltb b a = false.
Hypothesis le_trans : forall a b c, (le_of ltb) a b -> (le_of ltb) b c -> (le_of ltb) a c.

Lemma sort_insert_sorted x l :
  StronglySorted (le_of ltb) l -> StronglySorted (le_of ltb) (sort_insert ltb x l).
Proof.
  induction 1 as [|y l Hs IH Hy]; simpl.
  - repeat constructor.
  - destruct (ltb y x) eqn:Eyx.
    + constructor; [done|].
      rewrite sort_insert_perm. constructor; [|done].
      by apply ltb_asym.
    + constructor; [by constructor|].
      constructor; [done|].
      eapply Forall_impl; [exact Hy|]. intros z Hz. by eapply le_trans.
Qed.

Lemma py_sorted_sorted l : StronglySorted (le_of ltb) (py_sorted ltb l).
Proof.
  induction l; simpl; [constructor|]. by apply sort_insert_sorted.
Qed.

End SortFacts.

(** ** heapq *)

Section HeapFacts.
Context {A : Type} (ltb : A -> A -> bool).

Lemma insert_swap_head (l : list A) j b x :
  l !! j = Some b -> b :: <[j := x]> l ≡ₚ x :: l.
Proof.
  revert j. induction l as [|y l IH]; intros [|j] Hj; simplify_eq/=.
  - apply perm_swap.
  - rewrite (perm_swap y b), (IH j) by done. apply perm_swap.
Qed.

Lemma insert_swap (l : list A) i j a b :
  (i < j)%nat -> l !! i = Some a -> l !! j = Some b ->
  <[i := b]> (<[j := a]> l) ≡ₚ l.
Proof.
  revert i j. induction l as [|y l IH]; intros [|i] [|j] Hij Hi Hj;
    simplify_eq/=; try lia.
  - by apply insert_swap_head.
  - f_equiv. apply IH; [lia|done|done].
Qed.

Lemma _siftdown_loop_perm fuel (heap : list A) startpos newitem pos :
  (pos < length heap)%nat ->
  <[snd (_siftdown_loop ltb fuel heap startpos newitem pos) := newitem]>
    (fst (_siftdown_loop ltb fuel heap startpos newitem pos))
  ≡ₚ <[pos := newitem]> heap.
Proof.
  revert heap pos.
  induction fuel as [|fuel IH]; intros heap pos Hpos; cbn [_siftdown_loop fst snd];
    [reflexivity|].
  destruct (startpos <? pos)%nat eqn:Esp; [|reflexivity].
  destruct (heap !! ((pos - 1) / 2)%nat) as [parent|] eqn:Ep; [|reflexivity].
  destruct (ltb newitem parent); [|reflexivity].
  apply Nat.ltb_lt in Esp.
  assert ((pos - 1) / 2 < pos)%nat as Hlt.
  { apply Nat.Div0.div_lt_upper_bound. lia. }
  rewrite IH by (rewrite length_insert; lia).
  transitivity (<[((pos - 1) / 2)%nat := newitem]> (<[pos := parent]> (<[pos := newitem]> heap))).
  { by rewrite list_insert_insert_eq. }
  apply insert_swap; [done| |].
  - rewrite list_lookup_insert_ne by lia. done.
  - by rewrite list_lookup_insert_eq.
Qed.

Lemma heappush_perm (heap : list A) item : heappush ltb heap item ≡ₚ item :: heap.
Proof.
  unfold heappush, _siftdown.
  rewrite (lookup_app_r heap [item]) by lia. rewrite Nat.sub_diag. simpl.
  pose proof (_siftdown_loop_perm (length heap) (heap ++ [item]) 0%nat item (length heap)) as Hl.
  destruct (_siftdown_loop ltb (length heap) (heap ++ [item]) 0%nat item (length heap)) as [h p].
  simpl in Hl. rewrite Hl by (rewrite length_app; simpl; lia).
  rewrite list_insert_id.
  - by rewrite Permutation_app_comm.
  - rewrite lookup_app_r by lia. by rewrite Nat.sub_diag.
Qed.

Lemma fold_heappush_perm (pushes heap : list A) :
  fold_left (heappush ltb) pushes heap ≡ₚ heap ++ pushes.
Proof.
  revert heap. induction pushes as [|e pushes IH]; intros heap; simpl.
  - by rewrite app_nil_r.
  - rewrite IH, heappush_perm. simpl. apply Permutation_middle.
Qed.

End HeapFacts.

Lemma heap_of_perm pushes : heap_of pushes ≡ₚ pushes.
Proof. unfold heap_of. by rewrite fold_heappush_perm. Qed.

Lemma merged_perm pushes : merged pushes ≡ₚ pushes.
Proof. unfold merged. by rewrite py_sorted_perm, heap_of_perm. Qed.

Lemma merged_sorted pushes : StronglySorted tuple_le (merged pushes).
Proof.
  unfold merged. apply (py_sorted_sorted tuple_ltb).
  - apply tuple_ltb_asym.
  - intros a b c. apply tuple_le_trans.
Qed.

(** ** The two scenarios of acid2midi *)

Section Scenarios.
Context {G : Type} `{PyRandom G}.

Lemma scenario_b_events (g0 : G) :
  fst (fst (Acid2Midi.text_to_event_queue g0 " ")) =
    [Ev 0 "PadSynth" "on" 60 60; Ev 0 "PadSynth" "on" 63 60;
     Ev 0 "PadSynth" "on" 67 60; Ev 0 "TB303" "cc" 71 60;
     Ev 4 "PadSynth" "off" 60 0; Ev 4 "PadSynth" "off" 63 0;
     Ev 4 "PadSynth" "off" 67 0].
Proof. reflexivity. Qed.

(** C9: the text [" "] gives, in acid2midi, one control change, on the
    TB303; three PadSynth note-ons at tick 0, one for each chord offset,
    each with its note-off at tick 4; and no TB303 note-on. *)
Theorem acid2midi_space_scenario (g0 : G) :
  let evs := fst (fst (Acid2Midi.text_to_event_queue g0 " ")) in
  count_if (fun e => String.eqb (ev_action e) "cc") evs = 1%nat /\
  count_if (has_action "TB303" "cc") evs = 1%nat /\
  count_if (has_action "PadSynth" "on") evs = 3%nat /\
  (forall offset, In offset PAD_CHORD_NOTES ->
     let note := Acid2Midi.NOTE_BASE + item MINOR_PENTATONIC 0 + OCTAVE + offset in
     count_if (is_note_on "PadSynth" note) evs = 1%nat /\
     In (Ev 0 "PadSynth" "on" note 60) evs /\
     In (Ev (0 + 4) "PadSynth" "off" note 0) evs) /\
  count_if (has_action "TB303" "on") evs = 0%nat.
Proof.
  intros evs. subst evs. rewrite scenario_b_events.
  repeat split; try reflexivity;
    simpl in H0; intuition subst; simpl; auto 10.
Qed.

Lemma scenario_a_events (g0 : G) :
  exists duration, (duration = 1 \/ duration = 2) /\
  fst (fst (Acid2Midi.text_to_event_queue g0 "a")) =
    if duration =? 2 then
      [Ev 0 "BP909" "on" 48 100; Ev 0 "TB303" "cc" 5 127; Ev 0 "TB303" "on" 48 80;
       Ev 1 "BP909" "off" 48 0; Ev 2 "TB303" "cc" 5 0; Ev 2 "TB303" "off" 48 0]
    else
      [Ev 0 "BP909" "on" 48 100; Ev 0 "TB303" "on" 48 80;
       Ev 1 "BP909" "off" 48 0; Ev 1 "TB303" "off" 48 0].
Proof.
  unfold Acid2Midi.text_to_event_queue, Acid2Midi.encode_text. simpl.
  unfold Acid2Midi.encode. simpl. unfold Acid2Midi.bassline. simpl.
  destruct (random_lt f0_6 (seed_str "a")) as [[|] g'].
  - exists 2. split; [by right|]. reflexivity.
  - exists 1. split; [by left|]. reflexivity.
Qed.

(** C8: the text ["a"] gives, in acid2midi, one TB303 note-on at tick 0
    with pitch [NOTE_BASE + MINOR_PENTATONIC[0]], its note-off at tick 1 or
    2, and one BP909 kick with its note-on at tick 0 and its note-off at
    tick 1. *)
Theorem acid2midi_vowel_scenario (g0 : G) :
  let evs := fst (fst (Acid2Midi.text_to_event_queue g0 "a")) in
  let pitch := Acid2Midi.NOTE_BASE + item MINOR_PENTATONIC 0 in
  In (Ev 0 "TB303" "on" pitch 80) evs /\
  count_if (has_action "TB303" "on") evs = 1%nat /\
  (exists duration, (duration = 1 \/ duration = 2) /\
     In (Ev (0 + duration) "TB303" "off" pitch 0) evs /\
     count_if (has_action "TB303" "off") evs = 1%nat) /\
  In (Ev 0 "BP909" "on" DRUM_kick 100) evs /\
  In (Ev 1 "BP909" "off" DRUM_kick 0) evs /\
  count_if (has_action "BP909" "on") evs = 1%nat /\
  count_if (has_action "BP909" "off") evs = 1%nat.
Proof.
  intros evs pitch. subst evs pitch.
  destruct (scenario_a_events g0) as (d & [-> | ->] & ->); simpl.
  - repeat split; auto 10. exists 1. simpl. repeat split; auto 10.
  - repeat split; auto 10. exists 2. simpl. repeat split; auto 10.
Qed.
End Scenarios.

(** ** Ties are broken by the tuple order *)

Lemma StronglySorted_lookup_lt {A} (R : A -> A -> Prop) (l : list A) i j a b :
  StronglySorted R l -> l !! i = Some a -> l !! j = Some b -> (i < j)%nat -> R a b.
Proof.
  intros Hs. revert i j. induction Hs as [|x l Hs IH Hx]; intros i j Hi Hj Hij.
  - done.
  - destruct j as [|j]; [lia|]. destruct i as [|i]; simplify_eq/=.
    + rewrite Forall_forall in Hx. apply Hx.
      by eapply list_elem_of_lookup_2.
    + eapply IH; eauto. lia.
Qed.

Lemma tuple_le_same_tick a b :
  tuple_le a b -> ev_tick a = ev_tick b -> ev_device a <> ev_device b ->
  String.ltb (ev_device a) (ev_device b) = true.
Proof.
  unfold tuple_le, le_of, tuple_ltb. rewrite (tuple_compare_antisym a b).
  unfold tuple_compare, String.ltb. intros Hle Ht Hd.
  rewrite Ht, Z.compare_refl in Hle. simpl in Hle.
  destruct (String.compare (ev_device a) (ev_device b)) eqn:Ed; try done.
  by apply String_as_OT.cmp_eq in Ed.
Qed.

Lemma merged_ties pushed i j e1 e2 :
  merged pushed !! i = Some e1 -> merged pushed !! j = Some e2 -> (i < j)%nat ->
  tuple_le e1 e2 /\
  (ev_tick e1 = ev_tick e2 -> ev_device e1 <> ev_device e2 ->
   String.ltb (ev_device e1) (ev_device e2) = true).
Proof.
  intros Hi Hj Hij.
  assert (tuple_le e1 e2) as Hle.
  { eapply StronglySorted_lookup_lt; eauto using merged_sorted. }
  split; [done|]. by apply tuple_le_same_tick.
Qed.

(** C3, as amended: the queue a mapper returns is a permutation of the
    pushed tuples in ascending tuple order, so two events with one tick
    stand in the order of their device names, then of action, value and
    parameter; the order in which they were pushed plays no part. *)
Theorem merged_sequence_ties_by_tuple_order {G : Type} `{PyRandom G} (g0 : G) :
  (forall text,
     let sequence := fst (fst (Acid2Midi.text_to_event_queue g0 text)) in
     sequence ≡ₚ pushes (Acid2Midi.encode_text text) /\
     forall i j e1 e2,
       sequence !! i = Some e1 -> sequence !! j = Some e2 -> (i < j)%nat ->
       tuple_le e1 e2 /\
       (ev_tick e1 = ev_tick e2 -> ev_device e1 <> ev_device e2 ->
        String.ltb (ev_device e1) (ev_device e2) = true)) /\
  (forall at_first text,
     let sequence := fst (fst (Speedcore2Midi.text_to_event_queue at_first g0 text)) in
     sequence ≡ₚ pushes (Speedcore2Midi.encode_text at_first text) /\
     forall i j e1 e2,
       sequence !! i = Some e1 -> sequence !! j = Some e2 -> (i < j)%nat ->
       tuple_le e1 e2 /\
       (ev_tick e1 = ev_tick e2 -> ev_device e1 <> ev_device e2 ->
        String.ltb (ev_device e1) (ev_device e2) = true)) /\
  (let sequence := fst (AcidTrack.generate_acid_patterns g0) in
   sequence ≡ₚ fst (AcidTrack.patterns (seed_int 42)) /\
   forall i j e1 e2,
     sequence !! i = Some e1 -> sequence !! j = Some e2 -> (i < j)%nat ->
     tuple_le e1 e2 /\
     (ev_tick e1 = ev_tick e2 -> ev_device e1 <> ev_device e2 ->
      String.ltb (ev_device e1) (ev_device e2) = true)).
Proof.
  split; [|split].
  - intros text. simpl. split; [apply merged_perm|]. apply merged_ties.
  - intros at_first text. simpl. split; [apply merged_perm|]. apply merged_ties.
  - unfold AcidTrack.generate_acid_patterns.
    destruct (AcidTrack.patterns (seed_int 42)) as [es g]. simpl.
    split; [apply merged_perm|]. apply merged_ties.
Qed.

(** C3 as stated fails: for the text ["1"] acid2midi pushes the TB303
    note-on first and the BP909 note-on third, both at tick 0, and the
    queue has the BP909 one first. *)
Lemma acid2midi_tie_not_in_emission_order :
  ~ ties_in_emission_order
      (pushes (Acid2Midi.encode_text (G := Z) "1"))
      (fst (fst (Acid2Midi.text_to_event_queue (0 : Z) "1"))).
Proof.
  intros Hties.
  destruct (Hties 0%nat 1%nat (Ev 0 "BP909" "on" 60 80) (Ev 0 "TB303" "on" 51 70))
    as (i' & j' & Hi & Hj & Hlt); [reflexivity | reflexivity | lia | reflexivity |].
  vm_compute in Hi, Hj.
  destruct j' as [|[|[|[|j']]]]; try discriminate Hj.
  lia.
Qed.

(** ** What one round of a mapper pushes *)

Lemma randint_range {G : Type} `{PyRandom G} a b (g : G) :
  a <= b -> a <= fst (randint a b g) <= b.
Proof.
  intros Hab. unfold randint.
  pose proof (randbelow_range (b - a + 1) g ltac:(lia)) as Hr.
  destruct (randbelow (b - a + 1) g) as [r g']. simpl in *. lia.
Qed.

Lemma clamp_range n : 0 <= clamp n <= 127.
Proof. unfold clamp. lia. Qed.

Lemma paired_app l1 l2 : paired l1 -> paired l2 -> paired (l1 ++ l2).
Proof. induction 1; simpl; intros; [done | constructor; auto | constructor; auto]. Qed.

Lemma enumerate_from_inv {S : Type} (P : S -> Prop) (body : S -> Z -> ascii -> S)
    text i st :
  P st -> (forall st i ch, P st -> P (body st i ch)) ->
  P (enumerate_from body i text st).
Proof.
  intros Hst Hbody. revert i st Hst.
  induction text as [|ch text IH]; intros i st Hst; simpl; auto.
Qed.

Lemma for_each_ind {G A} (P : list Event -> Prop) (body : A -> Rand G (list Event)) l g :
  P [] -> (forall a b, P a -> P b -> P (a ++ b)) ->
  (forall x g', P (fst (body x g'))) ->
  P (fst (for_each body l g)).
Proof.
  intros Hnil Happ Hbody. revert g.
  induction l as [|x l IH]; intros g; simpl; [done|].
  unfold rbind, rret. specialize (Hbody x g).
  destruct (body x g) as [es g1]. specialize (IH g1).
  destruct (for_each body l g1) as [es' g2]. simpl in *. auto.
Qed.

Lemma Forall_range_app l1 l2 :
  Forall in_midi_range l1 -> Forall in_midi_range l2 -> Forall in_midi_range (l1 ++ l2).
Proof. intros. by apply Forall_app. Qed.

Lemma paired_later t t' d n v l :
  t < t' -> paired l -> paired (Ev t d "on" n v :: Ev t' d "off" n 0 :: l).
Proof.
  intros Hlt Hl. replace t' with (t + (t' - t)) by lia.
  constructor; [lia | done].
Qed.

Ltac pairs :=
  repeat first
    [ apply paired_nil
    | apply paired_cc
    | apply paired_later; [lia|] ].

Ltac ranges :=
  repeat first
    [ apply List.Forall_nil
    | apply List.Forall_cons; [split; cbn [ev_value ev_param] |] ];
  try (unfold clamp, DRUM_kick, DRUM_snare, DRUM_ltom, DRUM_htom, DRUM_rim, DRUM_clap,
         DRUM_ch, DRUM_oh, DRUM_crash, DRUM_ride in *; lia);
  try (vm_compute; split; intro; discriminate).

Ltac draw :=
  match goal with
  | |- context [randint ?a ?b ?g] =>
      let Hr := fresh "Hr" in
      pose proof (randint_range a b g ltac:(lia)) as Hr;
      destruct (randint a b g) as [? ?]; cbn [fst snd] in Hr
  | |- context [random_lt ?c ?g] => destruct (random_lt c g) as [[|] ?]
  end.

Section RoundFacts.
Context {G : Type} `{PyRandom G}.

Lemma acid_separator_ok t :
  paired (Acid2Midi.separator t) /\ Forall in_midi_range (Acid2Midi.separator t).
Proof. unfold Acid2Midi.separator. simpl. split; [pairs | ranges]. Qed.

Lemma acid_bassline_ok ch t (g : G) :
  paired (fst (Acid2Midi.bassline ch t g)) /\
  Forall in_midi_range (fst (Acid2Midi.bassline ch t g)).
Proof.
  unfold Acid2Midi.bassline.
  repeat match goal with |- context [if char_in ?c ?s then _ else _] =>
    destruct (char_in c s) end;
  try draw; cbn [fst app]; simpl Z.ltb; cbn iota; (split; [pairs | ranges]).
Qed.

Lemma acid_drums_ok ch i t :
  paired (Acid2Midi.drums ch i t) /\ Forall in_midi_range (Acid2Midi.drums ch i t).
Proof.
  unfold Acid2Midi.drums.
  repeat match goal with |- context [if char_in ?c ?s then _ else _] =>
    destruct (char_in c s) end;
  repeat match goal with |- context [if ?b then _ else _] => destruct b end;
  simpl; (split; [pairs | ranges]).
Qed.

Lemma acid_encode_pushes (st : mapper G) i ch :
  exists es, pushes (Acid2Midi.encode st i ch) = pushes st ++ es /\
             paired es /\ Forall in_midi_range es.
Proof.
  unfold Acid2Midi.encode.
  destruct (Ascii.eqb ch " " || char_in (lower ch) PUNCTUATION).
  { eexists. split; [reflexivity|]. apply acid_separator_ok. }
  destruct (negb (char_in (lower ch) ENCODABLE)).
  { exists []. simpl. rewrite app_nil_r. repeat constructor. }
  pose proof (acid_bassline_ok (lower ch) (current_time st) (rng st)) as [Hp Hr].
  destruct (Acid2Midi.bassline (lower ch) (current_time st) (rng st)) as [bass g'].
  pose proof (acid_drums_ok (lower ch) i (current_time st)) as [Hp' Hr'].
  eexists. split; [reflexivity|]. simpl in *.
  split; [by apply paired_app | by apply Forall_app].
Qed.

Lemma acid_encode_unencodable (st : mapper G) i ch :
  unencodable ch ->
  Acid2Midi.encode st i ch =
    Mapper (rng st) (pushes st) (char_timing st ++ [CT (current_time st) i ch])
           (current_time st).
Proof.
  intros (He & Hs & Hp). unfold Acid2Midi.encode.
  rewrite Hp, He. simpl.
  destruct (Ascii.eqb_spec ch " "); [done|]. done.
Qed.

End RoundFacts.

Section SpeedcoreRoundFacts.
Context {G : Type} `{PyRandom G}.
Variable at_first : bool.

Lemma speed_sample_ok ch t (g : G) :
  Forall in_midi_range (fst (Speedcore2Midi.sample at_first ch t g)).
Proof.
  unfold Speedcore2Midi.sample, rbind, rret.
  draw. cbn [fst]. ranges.
Qed.

Lemma speed_separator_ok t (g : G) :
  paired (fst (Speedcore2Midi.separator t g)) /\
  Forall in_midi_range (fst (Speedcore2Midi.separator t g)).
Proof.
  unfold Speedcore2Midi.separator, rbind, rret. simpl. unfold rbind, rret.
  repeat draw. cbn [fst app]. split; [pairs | ranges].
Qed.

Lemma speed_bassline_ok ch t (g : G) :
  paired (fst (Speedcore2Midi.bassline ch t g)) /\
  Forall in_midi_range (fst (Speedcore2Midi.bassline ch t g)).
Proof.
  unfold Speedcore2Midi.bassline, rbind, rret.
  repeat match goal with |- context [if char_in ?c ?s then _ else _] =>
    destruct (char_in c s) end;
  repeat draw; cbn [fst app]; simpl Z.ltb; cbn iota; cbn [app];
  (split; [pairs | ranges]).
Qed.

Lemma speed_drums_ok ch i t (g : G) :
  paired (fst (Speedcore2Midi.drums ch i t g)) /\
  Forall in_midi_range (fst (Speedcore2Midi.drums ch i t g)).
Proof.
  unfold Speedcore2Midi.drums, rbind, rret.
  draw. draw.
  all: repeat match goal with |- context [if char_in ?c ?s then _ else _] =>
    destruct (char_in c s) end.
  all: repeat match goal with |- context [if (?a =? ?b) then _ else _] =>
    destruct (a =? b) end.
  all: cbn [orb].
  all: repeat draw; cbn [fst app]; (split; [pairs | ranges]).
Qed.

Lemma speed_lead_ok ch t (g : G) :
  paired (fst (Speedcore2Midi.lead ch t g)) /\
  Forall in_midi_range (fst (Speedcore2Midi.lead ch t g)).
Proof.
  unfold Speedcore2Midi.lead, rbind, rret.
  destruct (char_in ch VOWELS); repeat draw; cbn [fst app];
  (split; [pairs | ranges]).
Qed.

Lemma speed_encode_pushes (st : mapper G) i ch :
  exists es, pushes (Speedcore2Midi.encode at_first st i ch) = pushes st ++ es /\
             (char_in ch Speedcore2Midi.SAMPLES = false -> paired es) /\
             Forall in_midi_range es.
Proof.
  unfold Speedcore2Midi.encode.
  destruct (char_in ch Speedcore2Midi.SAMPLES).
  { pose proof (speed_sample_ok ch (current_time st) (rng st)) as Hr.
    destruct (Speedcore2Midi.sample at_first ch (current_time st) (rng st)) as [es g'].
    exists es. simpl. split; [done|]. split; [done|]. exact Hr. }
  destruct (Ascii.eqb ch " " || char_in (lower ch) PUNCTUATION).
  { pose proof (speed_separator_ok (current_time st) (rng st)) as [Hp Hr].
    destruct (Speedcore2Midi.separator (current_time st) (rng st)) as [es g'].
    exists es. simpl. auto. }
  destruct (negb (char_in (lower ch) ENCODABLE)).
  { exists []. simpl. rewrite app_nil_r. repeat constructor. }
  unfold rbind, rret.
  pose proof (speed_bassline_ok (lower ch) (current_time st) (rng st)) as [Hp1 Hr1].
  destruct (Speedcore2Midi.bassline (lower ch) (current_time st) (rng st)) as [bass g1].
  pose proof (speed_drums_ok (lower ch) i (current_time st) g1) as [Hp2 Hr2].
  destruct (Speedcore2Midi.drums (lower ch) i (current_time st) g1) as [drum g2].
  pose proof (speed_lead_ok (lower ch) (current_time st) g2) as [Hp3 Hr3].
  destruct (Speedcore2Midi.lead (lower ch) (current_time st) g2) as [ld g3].
  eexists. split; [reflexivity|]. simpl in *.
  split; [intros _; auto using paired_app | auto using Forall_range_app].
Qed.

Lemma speed_encode_unencodable (st : mapper G) i ch :
  unencodable ch -> char_in ch Speedcore2Midi.SAMPLES = false ->
  Speedcore2Midi.encode at_first st i ch =
    Mapper (rng st) (pushes st) (char_timing st) (current_time st + 1).
Proof.
  intros (He & Hs & Hp) Hsample. unfold Speedcore2Midi.encode.
  rewrite Hsample, Hp, He. simpl.
  destruct (Ascii.eqb_spec ch " "); [done|]. done.
Qed.

End SpeedcoreRoundFacts.

Section AcidTrackFacts.
Context {G : Type} `{PyRandom G}.

Lemma sound_nil : sound [].
Proof. split; constructor. Qed.

Lemma sound_app a b : sound a -> sound b -> sound (a ++ b).
Proof. intros [] []. split; [by apply paired_app | by apply Forall_app]. Qed.

Lemma for_each_sound {A} (body : A -> Rand G (list Event)) l g :
  (forall x g', sound (fst (body x g'))) -> sound (fst (for_each body l g)).
Proof. intros. apply for_each_ind; auto using sound_nil, sound_app. Qed.

Lemma tb303_step_sound bar i (g : G) : sound (fst (AcidTrack.tb303_step bar i g)).
Proof.
  unfold AcidTrack.tb303_step, rbind, rret.
  draw; [|apply sound_nil].
  repeat draw; cbn [fst]; (split; [pairs | ranges]).
Qed.

Lemma bp909_beat_sound bar beat (g : G) : sound (fst (AcidTrack.bp909_beat bar beat g)).
Proof.
  unfold AcidTrack.bp909_beat, rbind, rret.
  draw.
  all: match goal with |- context [for_each ?b ?l ?g] =>
         let Hh := fresh "Hh" in
         assert (sound (fst (for_each b l g))) as Hh;
         [ apply for_each_sound; intros x g'; unfold rbind, rret; draw; cbn [fst];
           (split; [pairs | ranges])
         | destruct (for_each b l g) as [hats ?]; cbn [fst] in Hh ]
       end.
  all: destruct (8 <=? bar); destruct (12 <=? bar); repeat draw; cbn [fst andb].
  all: repeat apply sound_app; try exact Hh; try apply sound_nil.
  all: repeat match goal with |- context [if ?b then _ else _] => destruct b end.
  all: try apply sound_nil; (split; [pairs | ranges]).
Qed.

Lemma tb303_sound (g : G) : sound (fst (AcidTrack.tb303 g)).
Proof.
  unfold AcidTrack.tb303. apply for_each_sound. intros bar g'.
  apply for_each_sound. intros. apply tb303_step_sound.
Qed.

Lemma bass_sub_sound (g : G) : sound (fst (AcidTrack.bass_sub g)).
Proof.
  unfold AcidTrack.bass_sub. apply for_each_sound. intros bar g'.
  destruct (2 <=? bar); [|apply sound_nil].
  apply for_each_sound. intros. unfold rret. cbn [fst]. split; [pairs | ranges].
Qed.

Lemma bp909_sound (g : G) : sound (fst (AcidTrack.bp909 g)).
Proof.
  unfold AcidTrack.bp909. apply for_each_sound. intros bar g'.
  apply for_each_sound. intros. apply bp909_beat_sound.
Qed.

Lemma lead_synth_sound (g : G) : sound (fst (AcidTrack.lead_synth g)).
Proof.
  unfold AcidTrack.lead_synth. apply for_each_sound. intros bar g'.
  apply for_each_sound. intros. unfold rbind, rret. draw. cbn [fst].
  split; [pairs | ranges].
Qed.

Lemma arp_synth_sound (g : G) : sound (fst (AcidTrack.arp_synth g)).
Proof.
  unfold AcidTrack.arp_synth. apply for_each_sound. intros bar g'.
  apply for_each_sound. intros. unfold rret. cbn [fst]. split; [pairs | ranges].
Qed.

Lemma pad_synth_sound (g : G) : sound (fst (AcidTrack.pad_synth g)).
Proof.
  unfold AcidTrack.pad_synth. apply for_each_sound. intros bar g'.
  apply for_each_sound. intros. unfold rret. cbn [fst]. split; [pairs | ranges].
Qed.

Lemma sample_bank1_sound (g : G) : sound (fst (AcidTrack.sample_bank1 g)).
Proof.
  unfold AcidTrack.sample_bank1. apply for_each_sound. intros bar g'.
  unfold rret. cbn [fst]. destruct (12 <=? bar); cbn [app]; (split; [pairs | ranges]).
Qed.

Lemma sample_bank2_sound (g : G) : sound (fst (AcidTrack.sample_bank2 g)).
Proof.
  unfold AcidTrack.sample_bank2. apply for_each_sound. intros bar g'.
  unfold rret. cbn [fst]. split; [pairs | ranges].
Qed.

Lemma patterns_sound (g : G) : sound (fst (AcidTrack.patterns g)).
Proof.
  unfold AcidTrack.patterns, rbind, rret.
  pose proof (tb303_sound g). destruct (AcidTrack.tb303 g) as [a g1].
  pose proof (bass_sub_sound g1). destruct (AcidTrack.bass_sub g1) as [b g2].
  pose proof (bp909_sound g2). destruct (AcidTrack.bp909 g2) as [c g3].
  pose proof (lead_synth_sound g3). destruct (AcidTrack.lead_synth g3) as [d g4].
  pose proof (arp_synth_sound g4). destruct (AcidTrack.arp_synth g4) as [e g5].
  pose proof (pad_synth_sound g5). destruct (AcidTrack.pad_synth g5) as [f g6].
  pose proof (sample_bank1_sound g6). destruct (AcidTrack.sample_bank1 g6) as [s1 g7].
  pose proof (sample_bank2_sound g7). destruct (AcidTrack.sample_bank2 g7) as [s2 g8].
  cbn [fst] in *. repeat apply sound_app; assumption.
Qed.

End AcidTrackFacts.

(** ** The claims about the mappers *)

Lemma count_if_perm {A} (p : A -> bool) l1 l2 :
  l1 ≡ₚ l2 -> count_if p l1 = count_if p l2.
Proof.
  intros Hp. unfold count_if.
  induction Hp; simpl; repeat case_match; simpl; congruence.
Qed.

Lemma paired_counts d n l :
  paired l -> count_if (is_note_on d n) l = count_if (is_note_off d n) l.
Proof.
  unfold count_if, is_note_on, is_note_off.
  induction 1 as [|t d' v p l Hl IH|t d' n' v dur l Hd Hl IH]; simpl.
  - done.
  - rewrite !andb_false_r. simpl. done.
  - rewrite !andb_false_r, !andb_true_r. simpl.
    destruct (String.eqb d' d && (n' =? n)); simpl; by rewrite IH.
Qed.

Section MapperClaims.
Context {G : Type} `{PyRandom G}.

Lemma acid_pushes_sound text (st : mapper G) i :
  sound (pushes st) -> sound (pushes (enumerate_from Acid2Midi.encode i text st)).
Proof.
  intros Hst. apply (enumerate_from_inv (fun st => sound (pushes st))); [done|].
  clear. intros st i ch Hs.
  destruct (acid_encode_pushes st i ch) as (es & -> & Hp & Hr).
  by apply sound_app.
Qed.

Lemma speed_pushes_range at_first text (st : mapper G) i :
  Forall in_midi_range (pushes st) ->
  Forall in_midi_range (pushes (enumerate_from (Speedcore2Midi.encode at_first) i text st)).
Proof.
  intros Hst.
  apply (enumerate_from_inv (fun st => Forall in_midi_range (pushes st))); [done|].
  clear. intros st i ch Hs.
  destruct (speed_encode_pushes at_first st i ch) as (es & -> & Hp & Hr).
  by apply Forall_app.
Qed.

Lemma speed_pushes_paired at_first text (st : mapper G) i :
  forallb (fun ch => negb (char_in ch Speedcore2Midi.SAMPLES)) text = true ->
  paired (pushes st) ->
  paired (pushes (enumerate_from (Speedcore2Midi.encode at_first) i text st)).
Proof.
  revert st i. induction text as [|ch text IH]; intros st i Hno Hst; simpl; [done|].
  simpl in Hno. apply andb_true_iff in Hno as [Hch Hno].
  apply IH; [done|].
  destruct (speed_encode_pushes at_first st i ch) as (es & -> & Hp & Hr).
  apply paired_app; [done|]. apply Hp. by destruct (char_in ch Speedcore2Midi.SAMPLES).
Qed.

(** C7: [min(max(note, 0), 127)] stores -5 as 0 and 140 as 127, and every
    event of every queue has its value and its parameter within 0..127. *)
Theorem stored_values_in_midi_range (g0 : G) :
  clamp (-5) = 0 /\ clamp 140 = 127 /\ (forall n, 0 <= clamp n <= 127) /\
  (forall text e,
     In e (fst (fst (Acid2Midi.text_to_event_queue g0 text))) -> in_midi_range e) /\
  (forall at_first text e,
     In e (fst (fst (Speedcore2Midi.text_to_event_queue at_first g0 text))) ->
     in_midi_range e) /\
  (forall e, In e (fst (AcidTrack.generate_acid_patterns g0)) -> in_midi_range e).
Proof.
  split; [reflexivity|]. split; [reflexivity|]. split; [apply clamp_range|].
  split; [|split].
  - intros text e He. simpl in He.
    apply list_elem_of_In in He. rewrite merged_perm in He.
    assert (sound (pushes (Acid2Midi.encode_text (G := G) text))) as [_ Hr].
    { apply acid_pushes_sound. apply sound_nil. }
    rewrite Forall_forall in Hr. by apply Hr.
  - intros at_first text e He. simpl in He.
    apply list_elem_of_In in He. rewrite merged_perm in He.
    assert (Forall in_midi_range
              (pushes (Speedcore2Midi.encode_text (G := G) at_first text))) as Hr.
    { apply speed_pushes_range. constructor. }
    rewrite Forall_forall in Hr. by apply Hr.
  - intros e. unfold AcidTrack.generate_acid_patterns.
    pose proof (patterns_sound (seed_int 42)) as [_ Hr].
    destruct (AcidTrack.patterns (seed_int 42)) as [es g]. simpl in *.
    intros He. apply list_elem_of_In in He. rewrite merged_perm in He.
    rewrite Forall_forall in Hr. by apply Hr.
Qed.

(** C4, as amended: in every round of acid2midi, in every round of
    speedcore2midi for a character outside [SAMPLES], and in
    [generate_acid_patterns], a pushed note-on is followed at once by the
    note-off of the same device and note, one tick or more later; so the
    queue holds as many note-offs as note-ons for every device and note. *)
Theorem note_on_paired_except_samples :
  (forall (st : mapper G) i ch,
     exists es, pushes (Acid2Midi.encode st i ch) = pushes st ++ es /\ paired es) /\
  (forall at_first (st : mapper G) i ch,
     char_in ch Speedcore2Midi.SAMPLES = false ->
     exists es, pushes (Speedcore2Midi.encode at_first st i ch) = pushes st ++ es /\
                paired es) /\
  (forall g : G, paired (fst (AcidTrack.patterns g))) /\
  (forall (g0 : G) text d n,
     let sequence := fst (fst (Acid2Midi.text_to_event_queue g0 text)) in
     count_if (is_note_on d n) sequence = count_if (is_note_off d n) sequence) /\
  (forall at_first (g0 : G) text d n,
     forallb (fun ch => negb (char_in ch Speedcore2Midi.SAMPLES)) (chars text) = true ->
     let sequence := fst (fst (Speedcore2Midi.text_to_event_queue at_first g0 text)) in
     count_if (is_note_on d n) sequence = count_if (is_note_off d n) sequence) /\
  (forall (g0 : G) d n,
     let sequence := fst (AcidTrack.generate_acid_patterns g0) in
     count_if (is_note_on d n) sequence = count_if (is_note_off d n) sequence).
Proof.
  repeat split.
  - intros st i ch. destruct (acid_encode_pushes st i ch) as (es & ? & ? & ?). eauto.
  - intros at_first st i ch Hs.
    destruct (speed_encode_pushes at_first st i ch) as (es & ? & ? & ?). eauto.
  - intros g. apply patterns_sound.
  - intros g0 text d n. simpl.
    rewrite !(count_if_perm _ _ _ (merged_perm _)). apply paired_counts.
    apply acid_pushes_sound, sound_nil.
  - intros at_first g0 text d n Hno. simpl.
    rewrite !(count_if_perm _ _ _ (merged_perm _)). apply paired_counts.
    apply speed_pushes_paired; [done | constructor].
  - intros g0 d n. unfold AcidTrack.generate_acid_patterns.
    pose proof (patterns_sound (seed_int 42)) as [Hp _].
    destruct (AcidTrack.patterns (seed_int 42)) as [es g]. simpl in *.
    rewrite !(count_if_perm _ _ _ (merged_perm _)). by apply paired_counts.
Qed.

(** C6: for a character that no class of the mapper claims (it is not in
    the encodable set, not a space, not separator punctuation and, in
    speedcore2midi, not a sample trigger, whose class comes first), the
    round pushes nothing in either mapper.  speedcore2midi advances
    [current_time] by one for it, as the claim says.  acid2midi leaves
    [current_time] as it was: its branch reaches [continue] without
    [current_time += 1].  So acid2midi ends the text ["?"] at tick 0, not
    1, and maps ["? "] to the events of [" "]: run on the argument ["?"],
    it plays the space that follows the question mark at tick 0, in the
    round that prints the question mark, one round before it prints the
    space. *)
Theorem acid2midi_unencodable_takes_no_tick :
  (forall at_first (st : mapper G) i ch,
     unencodable ch -> char_in ch Speedcore2Midi.SAMPLES = false ->
     pushes (Speedcore2Midi.encode at_first st i ch) = pushes st /\
     current_time (Speedcore2Midi.encode at_first st i ch) = current_time st + 1) /\
  (forall (st : mapper G) i ch,
     unencodable ch ->
     pushes (Acid2Midi.encode st i ch) = pushes st /\
     current_time (Acid2Midi.encode st i ch) = current_time st) /\
  unencodable "?" /\
  (forall at_first,
     current_time (Speedcore2Midi.encode_text (G := G) at_first "?") = 1) /\
  current_time (Acid2Midi.encode_text (G := G) "?") = 0 /\
  (forall g0 : G,
     fst (fst (Acid2Midi.text_to_event_queue g0 "? ")) =
     fst (fst (Acid2Midi.text_to_event_queue g0 " ")) /\
     In (Ev 0 "PadSynth" "on" 60 60)
        (fst (fst (Acid2Midi.text_to_event_queue g0 "? "))) /\
     forall prog,
       Acid2Midi.main g0 true quiet [prog; "?"] =
         ([Echo "?";
           Send "PadSynth" [144; 60; 60]; Send "PadSynth" [144; 63; 60];
           Send "PadSynth" [144; 67; 60]; Send "TB303" [176; 71; 60];
           Sleep; Echo " "; Sleep; Sleep; Sleep;
           Send "PadSynth" [128; 60; 0]; Send "PadSynth" [128; 63; 0];
           Send "PadSynth" [128; 67; 0]; Sleep; Sleep; AllNotesOff], false)).
Proof.
  split; [|split; [|split; [|split; [|split]]]].
  - intros at_first st i ch Hu Hs. by rewrite speed_encode_unencodable.
  - intros st i ch Hu. by rewrite acid_encode_unencodable.
  - split; [reflexivity|]. split; [discriminate | reflexivity].
  - intros at_first. vm_compute; reflexivity.
  - vm_compute; reflexivity.
  - intros g0.
    assert (fst (fst (Acid2Midi.text_to_event_queue g0 "? ")) =
            fst (fst (Acid2Midi.text_to_event_queue g0 " "))) as Heq
      by (vm_compute; reflexivity).
    split; [exact Heq|]. split; [rewrite Heq, scenario_b_events; simpl; auto|].
    intros prog. vm_compute. reflexivity.
Qed.

(** Within one run of the interpreter a mapper is deterministic: it seeds
    the generator before its first draw, so whatever state the generator
    was in, mapping a text gives the same queue, the same echo list and
    the same final state; [generate_acid_patterns] does so under its seed
    42.  In speedcore2midi the enumeration order of [SAMPLES] is fixed for
    the run. *)
Lemma mapping_is_deterministic_in_one_run (g1 g2 : G) :
  (forall text,
     Acid2Midi.text_to_event_queue g1 text = Acid2Midi.text_to_event_queue g2 text) /\
  (forall at_first text,
     Speedcore2Midi.text_to_event_queue at_first g1 text =
     Speedcore2Midi.text_to_event_queue at_first g2 text) /\
  AcidTrack.generate_acid_patterns g1 = AcidTrack.generate_acid_patterns g2.
Proof.
  split; [|split].
  - intros text. unfold Acid2Midi.text_to_event_queue. reflexivity.
  - intros at_first text. unfold Speedcore2Midi.text_to_event_queue. reflexivity.
  - unfold AcidTrack.generate_acid_patterns. reflexivity.
Qed.

End MapperClaims.

(** C2 fails in speedcore2midi between two runs of the interpreter: the
    note of a sample trigger is its place in the enumeration of the set
    [SAMPLES], and for the text ["@"] the two enumeration orders give
    two different queues, from any generator. *)
Theorem speedcore_sample_note_follows_set_order {G : Type} `{PyRandom G} (g1 g2 : G) :
  fst (fst (Speedcore2Midi.text_to_event_queue true g1 "@")) =
    [Ev 0 "Samples" "on" 0 127] /\
  fst (fst (Speedcore2Midi.text_to_event_queue false g2 "@")) =
    [Ev 0 "Samples" "on" 1 127] /\
  fst (fst (Speedcore2Midi.text_to_event_queue true g1 "@")) <>
  fst (fst (Speedcore2Midi.text_to_event_queue false g2 "@")).
Proof.
  assert (forall at_first (g0 : G),
            fst (fst (Speedcore2Midi.text_to_event_queue at_first g0 "@")) =
              [Ev 0 "Samples" "on" (if at_first then 0 else 1) 127]) as Hq.
  { intros at_first g0.
    unfold Speedcore2Midi.text_to_event_queue, Speedcore2Midi.encode_text. simpl.
    unfold Speedcore2Midi.encode. simpl.
    unfold Speedcore2Midi.sample, rbind, rret.
    pose proof (randint_range 127 127 (seed_str "@") ltac:(lia)) as Hv.
    destruct (randint 127 127 (seed_str "@")) as [v g]. simpl in Hv.
    assert (v = 127) as -> by lia.
    by destruct at_first. }
  rewrite (Hq true), (Hq false). repeat split. discriminate.
Qed.

(** C4 as stated fails: the sample branch of speedcore2midi pushes a
    note-on and no note-off. *)
Lemma speedcore_sample_has_no_note_off :
  pushes (Speedcore2Midi.encode true (Mapper (0 : Z) [] [] 0) 0 "@") =
    [Ev 0 "Samples" "on" 0 127] /\
  ~ (exists es,
       pushes (Speedcore2Midi.encode true (Mapper (0 : Z) [] [] 0) 0 "@") = [] ++ es /\
       paired es) /\
  fst (fst (Speedcore2Midi.text_to_event_queue true (0 : Z) "@")) =
    [Ev 0 "Samples" "on" 0 127].
Proof.
  split; [reflexivity|]. split; [|reflexivity].
  intros (es & Hes & Hp). vm_compute in Hes. subst es. inversion Hp.
Qed.

(** The sample triggers of speedcore2midi are a class of their own, which
    comes first: ["@"] is not in the encodable set, not a space and not
    separator punctuation, and its round pushes a note-on. *)
Lemma speedcore_sample_symbol_emits :
  ~ (forall (st : mapper Z) i ch,
       unencodable ch ->
       pushes (Speedcore2Midi.encode true st i ch) = pushes st /\
       current_time (Speedcore2Midi.encode true st i ch) = current_time st + 1).
Proof.
  intros Hc.
  destruct (Hc (Mapper 0 [] [] 0) 0 "@"%char) as [Hp _].
  - split; [reflexivity|]. split; [discriminate | reflexivity].
  - vm_compute in Hp. discriminate Hp.
Qed.

Example acid2midi_question_mark_takes_no_tick :
  fst (fst (Acid2Midi.text_to_event_queue (0 : Z) "?1")) =
    [Ev 0 "BP909" "on" 60 80; Ev 0 "TB303" "on" 51 70;
     Ev 1 "BP909" "off" 60 0; Ev 1 "TB303" "off" 51 0] /\
  fst (fst (Speedcore2Midi.text_to_event_queue true (0 : Z) "?")) = [] /\
  current_time (Speedcore2Midi.encode_text (G := Z) true "?") = 1 /\
  current_time (Acid2Midi.encode_text (G := Z) "?") = 0.
Proof. repeat split; reflexivity. Qed.

(** ** The text that main maps *)

Lemma chars_append s1 s2 : chars (s1 +:+ s2) = chars s1 ++ chars s2.
Proof. unfold chars. induction s1; simpl; [done | by f_equal]. Qed.

Lemma enumerate_from_app {S : Type} (body : S -> Z -> ascii -> S) l1 l2 i st :
  enumerate_from body i (l1 ++ l2) st =
  enumerate_from body (i + len l1) l2 (enumerate_from body i l1 st).
Proof.
  revert i st. induction l1 as [|ch l1 IH]; intros i st; simpl.
  - unfold len. simpl. by rewrite Z.add_0_r.
  - rewrite IH. f_equal. unfold len. simpl length. lia.
Qed.


(** ** The tick loop *)

Lemma range_nil a b : b <= a -> range a b = [].
Proof. intros. unfold range. by replace (Z.to_nat (b - a)) with 0%nat by lia. Qed.

Lemma range_cons a b : a < b -> range a b = a :: range (a + 1) b.
Proof.
  intros Hab. unfold range.
  replace (Z.to_nat (b - a)) with (S (Z.to_nat (b - (a + 1)))) by lia.
  simpl. f_equal; [lia|].
  rewrite <- seq_shift, List.map_map. apply List.map_ext. intros k. lia.
Qed.

Lemma without_echo_app l1 l2 :
  without_echo (l1 ++ l2) = without_echo l1 ++ without_echo l2.
Proof. apply List.filter_app. Qed.

Lemma without_echo_echo cs : without_echo (map Echo cs) = [].
Proof. induction cs; simpl; auto. Qed.

Lemma py_max_default_spec l :
  l <> [] -> In (py_max_default l) l /\ Forall (fun x => x <= py_max_default l) l.
Proof.
  destruct l as [|x l]; [done|]. intros _. simpl.
  revert x. induction l as [|y l IH]; intros x; simpl.
  - split; [auto|]. repeat constructor. lia.
  - destruct (IH (Z.max x y)) as [Hin Hall].
    inversion Hall as [|? ? Hm Hl]; subst. split.
    + destruct Hin as [Hin|Hin]; [|auto].
      rewrite <- Hin. destruct (Z.max_spec x y) as [[_ ->]|[_ ->]]; auto.
    + constructor; [lia|]. constructor; [lia|done].
Qed.

Lemma flat_map_eq_in {A B} (f g : A -> list B) l :
  (forall a, In a l -> f a = g a) -> flat_map f l = flat_map g l.
Proof.
  induction l as [|x l IH]; simpl; intros Hfg; [done|].
  rewrite Hfg by auto. f_equal. apply IH. auto.
Qed.

Section TickLoop.
Variable devices : list string.
Variable status : Z -> string -> Z.
Variable E : Type.
Variable echo : E -> Z -> option (E * list ascii).

(** States of the echo from which it never raises *)
Variable echo_ok : E -> Prop.
Hypothesis echo_ok_step : forall st t,
  echo_ok st -> exists st' cs, echo st t = Some (st', cs) /\ echo_ok st'.

#[local] Abbreviation dispatch := (dispatch devices status E quiet).
#[local] Abbreviation dispatch_due := (dispatch_due devices status E quiet).
#[local] Abbreviation tick_loop := (tick_loop devices status E echo quiet).

Lemma dispatch_completes e (s : sched E) :
  In (ev_device e) devices ->
  exists s', dispatch e s = Next s' /\
    out s' = out s ++ message_of status e /\ echo_state s' = echo_state s.
Proof.
  intros Hd. unfold dispatch, message_of, send_message.
  rewrite bool_decide_eq_true_2 by (by apply list_elem_of_In). simpl.
  repeat case_match; simplify_eq/=; eexists; split; try reflexivity; simpl;
    by rewrite ?app_nil_r.
Qed.

Lemma due_later tick rest :
  Forall (fun e => tick < ev_tick e) rest -> due tick rest = [].
Proof.
  induction 1 as [|e rest He Hr IH]; simpl; [done|].
  unfold due in *. simpl. rewrite IH.
  destruct (ev_tick e =? tick) eqn:Et; [|done]. apply Z.eqb_eq in Et. lia.
Qed.

Lemma dispatch_due_completes tick rest (s : sched E) :
  StronglySorted (le_of (fun a b => ev_tick a <? ev_tick b)) rest ->
  Forall (fun e => In (ev_device e) devices) rest ->
  Forall (fun e => tick <= ev_tick e) rest ->
  exists rest' s',
    dispatch_due tick rest s = (rest', Next s') /\
    out s' = out s ++ flat_map (message_of status) (due tick rest) /\
    echo_state s' = echo_state s /\
    StronglySorted (le_of (fun a b => ev_tick a <? ev_tick b)) rest' /\
    Forall (fun e => In (ev_device e) devices) rest' /\
    Forall (fun e => tick + 1 <= ev_tick e) rest' /\
    (forall t, t <> tick -> due t rest' = due t rest).
Proof.
  intros Hs. revert s. induction Hs as [|e rest Hs IH He]; intros s Hk Hge; simpl.
  - exists [], s. rewrite app_nil_r. repeat split; auto; constructor.
  - inversion Hk as [|? ? Hke Hkr]; subst.
    inversion Hge as [|? ? Hge1 Hger]; subst.
    unfold due. simpl. destruct (ev_tick e =? tick) eqn:Et.
    + destruct (dispatch_completes e s Hke) as (s1 & -> & Ho1 & He1).
      destruct (IH s1 Hkr Hger) as (rest' & s' & -> & Ho & Hes & Hs' & Hk' & Hge' & Hdue).
      exists rest', s'. split; [done|]. split.
      { rewrite Ho, Ho1. simpl. by rewrite <- app_assoc. }
      split; [congruence|]. split; [done|]. split; [done|]. split; [done|].
      intros t Ht. unfold due in Hdue. rewrite Hdue by done. simpl.
      apply Z.eqb_eq in Et. destruct (ev_tick e =? t) eqn:Et'; [|done].
      apply Z.eqb_eq in Et'. lia.
    + exists (e :: rest), s. split; [done|].
      apply Z.eqb_neq in Et.
      assert (Forall (fun e' => tick < ev_tick e') rest) as Hlater.
      { eapply Forall_impl; [exact He|]. unfold le_of. intros e' Hle. simpl in Hle.
        apply Z.ltb_ge in Hle. lia. }
      fold (due tick rest). rewrite (due_later _ _ Hlater). simpl.
      rewrite app_nil_r. split; [done|]. split; [done|].
      split; [by constructor|]. split; [done|]. split; [|done].
      constructor; [lia|]. eapply Forall_impl; [exact Hlater|]. simpl. lia.
Qed.

Lemma tick_loop_completes rounds tick max_tick rest (s : sched E) :
  rounds = Z.to_nat (max_tick + 1 - tick) ->
  StronglySorted (le_of (fun a b => ev_tick a <? ev_tick b)) rest ->
  Forall (fun e => In (ev_device e) devices) rest ->
  Forall (fun e => tick <= ev_tick e) rest ->
  echo_ok (echo_state s) ->
  exists s',
    tick_loop rounds tick max_tick rest s = Next s' /\
    without_echo (out s') =
      without_echo (out s) ++ schedule status rest tick max_tick.
Proof.
  revert tick rest s. induction rounds as [|rounds IH];
    intros tick rest s Hr Hs Hk Hge Hecho; simpl.
  - exists s. split; [done|]. unfold schedule.
    rewrite range_nil by lia. simpl. by rewrite app_nil_r.
  - assert (tick <= max_tick) as Hle by lia.
    rewrite (proj2 (Z.leb_le _ _) Hle).
    unfold echo_tick, sleep.
    destruct (echo_ok_step _ tick Hecho) as (st' & cs & -> & Hecho').
    set (s1 := Sched _ _ _ _).
    destruct (dispatch_due_completes tick rest s1 Hs Hk Hge)
      as (rest' & s2 & -> & Ho2 & He2 & Hs' & Hk' & Hge' & Hdue).
    set (s3 := Sched _ _ _ _).
    destruct (IH (tick + 1) rest' s3) as (s' & -> & Ho'); try done.
    { lia. }
    { subst s3. simpl. by rewrite He2. }
    exists s'. split; [done|]. rewrite Ho'. subst s3. cbn [out].
    rewrite without_echo_app, Ho2. subst s1. cbn [out].
    rewrite !without_echo_app, without_echo_echo, app_nil_r.
    rewrite <- !app_assoc. f_equal.
    unfold schedule. rewrite (range_cons tick) by lia. simpl.
    rewrite <- !app_assoc. simpl.
    assert (without_echo (flat_map (message_of status) (due tick rest)) =
            flat_map (message_of status) (due tick rest)) as ->.
    { clear. induction (due tick rest) as [|e l IHl]; simpl; [done|].
      rewrite without_echo_app, IHl. f_equal.
      unfold message_of. by repeat case_match. }
    f_equal. f_equal.
    apply flat_map_eq_in. intros t Ht.
    rewrite Hdue; [done|].
    unfold range in Ht. apply in_map_iff in Ht as (k & <- & _). lia.
Qed.

End TickLoop.

Lemma sort_by_tick_sorted events :
  StronglySorted (le_of (fun a b => ev_tick a <? ev_tick b)) (sort_by_tick events).
Proof.
  apply py_sorted_sorted.
  - intros a b Hab. apply Z.ltb_lt in Hab. apply Z.ltb_ge. lia.
  - unfold le_of. intros a b c Hab Hbc. rewrite Z.ltb_ge in *. lia.
Qed.

Lemma sort_by_tick_perm events : sort_by_tick events ≡ₚ events.
Proof. apply py_sorted_perm. Qed.

Lemma due_sort_by_tick t events : due t (sort_by_tick events) = due t events.
Proof.
  unfold due, sort_by_tick. apply py_sorted_stable.
  intros a b Ha Hb. apply Z.eqb_eq in Ha, Hb. apply Z.ltb_ge. lia.
Qed.

Lemma schedule_sort_by_tick status events from max_tick :
  schedule status (sort_by_tick events) from max_tick =
  schedule status events from max_tick.
Proof.
  unfold schedule. apply flat_map_eq_in. intros t _. by rewrite due_sort_by_tick.
Qed.

Lemma Forall_perm {A} (P : A -> Prop) l1 l2 : l1 ≡ₚ l2 -> Forall P l1 -> Forall P l2.
Proof. intros Hp. by rewrite Hp. Qed.

Lemma max_tick_is_one_past_highest events echo_ticks :
  map ev_tick events ++ echo_ticks <> [] ->
  highest (map ev_tick events ++ echo_ticks)
          (max_tick_of (sort_by_tick events) echo_ticks - 1).
Proof.
  intros Hne. unfold max_tick_of, highest.
  replace (py_max_default (map ev_tick (sort_by_tick events) ++ echo_ticks) + 1 - 1)
    with (py_max_default (map ev_tick (sort_by_tick events) ++ echo_ticks)) by lia.
  assert (map ev_tick (sort_by_tick events) ++ echo_ticks ≡ₚ
          map ev_tick events ++ echo_ticks) as Hp.
  { by rewrite sort_by_tick_perm. }
  destruct (py_max_default_spec (map ev_tick (sort_by_tick events) ++ echo_ticks))
    as [Hin Hall].
  { intros Hnil. rewrite Hnil in Hp. apply Permutation_nil in Hp. done. }
  split.
  - apply list_elem_of_In. rewrite <- Hp. by apply list_elem_of_In.
  - by rewrite <- Hp.
Qed.

Lemma max_tick_empty : max_tick_of (sort_by_tick []) [] = 1.
Proof. reflexivity. Qed.

Lemma without_echo_drain status active :
  without_echo (drain status active) = drain status active.
Proof.
  unfold drain. induction active as [|[d ns] active IH]; simpl; [done|].
  rewrite without_echo_app, IH. f_equal.
  induction (elements ns) as [|n l IHl]; simpl; [done|]. by rewrite IHl.
Qed.

Section DrainAccepted.
Variable status : Z -> string -> Z.
Variable E : Type.
Variable env : outside.

(** The [finally] block meets no exception when every call from the
    [n]-th on is accepted, [n] calls having been made before. *)
Lemma drain_notes_accepted device notes (s : sched E) :
  (forall n, (sent s <= n)%nat -> send_raises env n = false) ->
  (forall n, (sent s <= n)%nat -> stop_after_send env n = false) ->
  exists s',
    drain_notes status E env device notes s = Next s' /\
    out s' = out s ++ map (fun note => Send device [status 128 device; note; 0]) notes /\
    (sent s <= sent s')%nat.
Proof.
  revert s. induction notes as [|note notes IH]; intros s Hok Hgo; simpl.
  - exists s. by rewrite app_nil_r.
  - unfold call_send, send_message. rewrite Hok, Hgo by lia.
    destruct (IH (Sched (out s ++ [Send device [status 128 device; note; 0]])
                        (active_notes s) (S (sent s)) (echo_state s)))
      as (s' & -> & Ho & Hs).
    { intros n Hn. apply Hok. simpl in Hn. lia. }
    { intros n Hn. apply Hgo. simpl in Hn. lia. }
    exists s'. split; [done|]. simpl in *. split; [|lia].
    by rewrite Ho, <- app_assoc.
Qed.

Lemma drain_devices_accepted active (s : sched E) :
  (forall n, (sent s <= n)%nat -> send_raises env n = false) ->
  (forall n, (sent s <= n)%nat -> stop_after_send env n = false) ->
  exists s',
    drain_devices status E env active s = Next s' /\
    out s' = out s ++ drain status active /\
    (sent s <= sent s')%nat.
Proof.
  revert s. induction active as [|[d ns] active IH]; intros s Hok Hgo; simpl.
  - exists s. by rewrite app_nil_r.
  - destruct (drain_notes_accepted d (elements ns) s Hok Hgo) as (s1 & -> & Ho1 & Hs1).
    destruct (IH s1) as (s' & -> & Ho & Hs).
    { intros n Hn. apply Hok. lia. }
    { intros n Hn. apply Hgo. lia. }
    exists s'. split; [done|]. split; [|lia].
    by rewrite Ho, Ho1, <- app_assoc.
Qed.

Lemma finish_accepted (f : flow E) :
  (forall n, (sent (state_of f) <= n)%nat -> send_raises env n = false) ->
  (forall n, (sent (state_of f) <= n)%nat -> stop_after_send env n = false) ->
  finish status E env f =
    (out (state_of f) ++ drain status (active_notes (state_of f)) ++ [AllNotesOff],
     raised f).
Proof.
  intros Hok Hgo. unfold finish.
  destruct (drain_devices_accepted (active_notes (state_of f)) (state_of f) Hok Hgo)
    as (s' & -> & Ho & _).
  by rewrite Ho, <- app_assoc.
Qed.

End DrainAccepted.

Section RunCompletes.
Variable devices : list string.
Variable status : Z -> string -> Z.
Variable E : Type.
Variable echo : E -> Z -> option (E * list ascii).
Variable echo_ok : E -> Prop.
Hypothesis echo_ok_step : forall st t,
  echo_ok st -> exists st' cs, echo st t = Some (st', cs) /\ echo_ok st'.

Lemma running_completes event_queue echo_ticks e0 :
  Forall (fun e => 0 <= ev_tick e) event_queue ->
  Forall (fun e => In (ev_device e) devices) event_queue ->
  echo_ok e0 ->
  exists s,
    running devices status E echo quiet event_queue echo_ticks e0 = Next s /\
    without_echo (out s) =
      schedule status event_queue 0
               (max_tick_of (sort_by_tick event_queue) echo_ticks).
Proof.
  intros Hge Hk He. unfold running.
  destruct (tick_loop_completes devices status E echo echo_ok echo_ok_step
              (Z.to_nat (max_tick_of (sort_by_tick event_queue) echo_ticks + 1)) 0
              (max_tick_of (sort_by_tick event_queue) echo_ticks)
              (sort_by_tick event_queue)
              (Sched [] (map (fun device => (device, ∅)) devices) 0 e0))
    as (s & Hs & Ho).
  - f_equal. lia.
  - apply sort_by_tick_sorted.
  - eapply Forall_perm; [symmetry; apply sort_by_tick_perm | done].
  - eapply Forall_perm; [symmetry; apply sort_by_tick_perm | done].
  - done.
  - exists s. split; [done|]. rewrite Ho. simpl. apply schedule_sort_by_tick.
Qed.

Lemma finish_completes event_queue echo_ticks e0 :
  Forall (fun e => 0 <= ev_tick e) event_queue ->
  Forall (fun e => In (ev_device e) devices) event_queue ->
  echo_ok e0 ->
  let f := running devices status E echo quiet event_queue echo_ticks e0 in
  snd (finish status E quiet f) = false /\
  without_echo (fst (finish status E quiet f)) =
    schedule status event_queue 0 (max_tick_of (sort_by_tick event_queue) echo_ticks)
    ++ drain status (active_notes (state_of f)) ++ [AllNotesOff].
Proof.
  intros Hge Hk He f. subst f.
  destruct (running_completes event_queue echo_ticks e0 Hge Hk He) as (s & -> & Ho).
  rewrite finish_accepted by done. simpl. split; [done|].
  by rewrite !without_echo_app, Ho, without_echo_drain.
Qed.

End RunCompletes.

(** ** The drain *)

Lemma held_app d l1 l2 : held d (l1 ++ l2) = fold_left (held_step d) l2 (held d l1).
Proof. unfold held. apply fold_left_app. Qed.

Section DrainFacts.
Variable status : Z -> string -> Z.

Lemma update_notes_keys f d a : map fst (update_notes f d a) = map fst a.
Proof.
  unfold update_notes. induction a as [|[d0 ns] a IH]; simpl; [done|].
  rewrite IH. by destruct (String.eqb d0 d).
Qed.


Lemma notes_of_update f d a d' :
  notes_of (update_notes f d a) d' =
    if String.eqb d d' then
      if bool_decide (d' ∈ map fst a) then f (notes_of a d') else ∅
    else notes_of a d'.
Proof.
  unfold update_notes. induction a as [|[d0 ns] a IH]; simpl.
  - by destruct (String.eqb d d').
  - destruct (String.eqb_spec d0 d) as [->|Hne]; simpl.
    + destruct (String.eqb_spec d d') as [->|Hne'].
      * rewrite bool_decide_eq_true_2 by apply list_elem_of_here. done.
      * rewrite IH. destruct (String.eqb_spec d d'); done.
    + destruct (String.eqb_spec d0 d') as [->|Hne'].
      * destruct (String.eqb_spec d d'); [congruence | done].
      * rewrite IH. destruct (String.eqb_spec d d') as [->|]; [|done].
        destruct (decide (d' ∈ map fst a)) as [Hin|Hin].
        -- rewrite !bool_decide_eq_true_2; [done | by apply list_elem_of_further | done].
        -- rewrite !bool_decide_eq_false_2; [done | | done].
           intros Hc. apply elem_of_cons in Hc as [?|?]; congruence.
Qed.



Lemma drain_outputs a o :
  In o (drain status a) <->
  exists d ns n, In (d, ns) a /\ n ∈ ns /\ o = Send d [status 128 d; n; 0].
Proof.
  unfold drain. rewrite in_flat_map. split.
  - intros ([d ns] & Hin & Ho). apply in_map_iff in Ho as (n & <- & Hn).
    exists d, ns, n. split; [done|]. split; [|done].
    apply elem_of_elements. by apply list_elem_of_In.
  - intros (d & ns & n & Hin & Hn & ->). exists (d, ns). split; [done|].
    apply in_map_iff. exists n. split; [done|].
    apply list_elem_of_In. by apply elem_of_elements.
Qed.

Lemma notes_of_in a d ns :
  NoDup (map fst a) -> In (d, ns) a -> notes_of a d = ns.
Proof.
  induction a as [|[d0 ns0] a IH]; simpl; [done|]. intros Hnd Hin.
  inversion Hnd as [|? ? Hd0 Hnd']; subst.
  destruct Hin as [Heq|Hin].
  - simplify_eq. by rewrite String.eqb_refl.
  - destruct (String.eqb_spec d0 d) as [->|Hne]; [|auto].
    exfalso. apply Hd0. apply list_elem_of_In.
    change d with (fst (d, ns)). by apply in_map.
Qed.

Lemma notes_of_elem a d n :
  n ∈ notes_of a d -> exists ns, In (d, ns) a /\ n ∈ ns.
Proof.
  induction a as [|[d0 ns0] a IH]; simpl; [set_solver|].
  destruct (String.eqb_spec d0 d) as [->|Hne]; intros Hn.
  - eauto.
  - destruct (IH Hn) as (ns & ? & ?). eauto.
Qed.

Lemma drain_NoDup a : NoDup (map fst a) -> NoDup (drain status a).
Proof.
  unfold drain. induction a as [|[d0 ns] a IH]; simpl; intros Hnd; [constructor|].
  inversion Hnd as [|? ? Hd0 Hnd']; subst.
  apply NoDup_app. split; [|split].
  - change (NoDup ((fun note : Z => Send d0 [status 128 d0; note; 0]) <$> elements ns)).
    apply NoDup_fmap_2; [|apply NoDup_elements].
    intros n1 n2 Heq. by simplify_eq.
  - intros o Ho1 Ho2. apply list_elem_of_In in Ho1, Ho2.
    apply in_map_iff in Ho1 as (n & <- & _).
    apply (drain_outputs a) in Ho2 as (d & ns' & n' & Hin & _ & Heq). simplify_eq.
    apply Hd0. apply list_elem_of_In. change d with (fst (d, ns')). by apply in_map.
  - by apply IH.
Qed.

Lemma drain_count a d n :
  NoDup (map fst a) ->
  count_occ output_eq_dec (drain status a) (Send d [status 128 d; n; 0]) =
    if decide (n ∈ notes_of a d) then 1%nat else 0%nat.
Proof.
  intros Hnd. destruct (decide (n ∈ notes_of a d)) as [Hn|Hn].
  - apply NoDup_count_occ'; [by apply NoDup_ListNoDup, drain_NoDup|].
    apply drain_outputs. destruct (notes_of_elem a d n Hn) as (ns & ? & ?).
    by exists d, ns, n.
  - apply count_occ_not_In. rewrite drain_outputs.
    intros (d' & ns & n' & Hin & Hn' & Heq). simplify_eq.
    by rewrite (notes_of_in a d' ns) in Hn.
Qed.

End DrainFacts.

(** ** What every run keeps true *)

Section RunInvariant.
Variable devices : list string.
Variable status : Z -> string -> Z.
Variable E : Type.
Variable echo : E -> Z -> option (E * list ascii).
Variable env : outside.
Hypothesis status_kinds : status_ok devices status.

Lemma status_of_device d :
  In d devices ->
  Z.land (status 144 d) 240 = 144 /\ Z.land (status 128 d) 240 = 128 /\
  Z.land (status 176 d) 240 = 176.
Proof.
  intros Hd. unfold status_ok in status_kinds.
  rewrite Forall_forall in status_kinds. apply status_kinds. by apply list_elem_of_In.
Qed.

Lemma run_inv_print (s : sched E) l (st : E) :
  Forall (fun o => forall d X, held_step d X o = X) l ->
  run_inv devices s ->
  run_inv devices (Sched (out s ++ l) (active_notes s) (sent s) st).
Proof.
  intros Hl [Hk Hh]. split; [done|]. intros d. simpl.
  rewrite held_app, <- Hh.
  generalize (held d (out s)). induction Hl as [|o l Ho Hl IH]; intros X; simpl; [done|].
  by rewrite Ho, IH.
Qed.

Lemma pending_settled (f : flow E) :
  settled env (state_of f) -> pending env f = false.
Proof.
  intros Hs. unfold pending. destruct (raised f); [|done]. simpl.
  destruct (sent (state_of f)) as [|call] eqn:Hc; [done|].
  destruct (Hs call Hc) as [_ ->]. apply andb_false_r.
Qed.

Lemma run_inv_outside (s : sched E) d :
  run_inv devices s -> ~ In d devices -> held d (out s) = ∅.
Proof.
  intros [_ Hh] Hd. rewrite Hh. rewrite bool_decide_eq_false_2; [done|].
  intros Hin. by apply Hd, list_elem_of_In.
Qed.

(** A state that keeps the invariant and is settled keeps it however the
    block is left from there. *)
Lemma flow_inv_settled (f : flow E) :
  run_inv devices (state_of f) -> settled env (state_of f) -> flow_inv env devices f.
Proof.
  intros Hinv Hs. unfold flow_inv, entered. rewrite (pending_settled f Hs).
  split; [|split].
  - by destruct Hinv.
  - intros d Hd. by apply run_inv_outside.
  - done.
Qed.

Lemma flow_inv_next (s : sched E) :
  flow_inv env devices (Next s) -> run_inv devices s /\ settled env s.
Proof.
  intros (Hinv & _ & Hs). split; [|by apply Hs].
  destruct Hinv as [Hk Hh]. by split.
Qed.

(** The three ways a call of [send_message] ends *)
Lemma call_send_cases device msg (s : sched E) :
  (send_raises env (sent s) = true /\
   call_send E env device msg s =
     Raise (Sched (out s) (active_notes s) (S (sent s)) (echo_state s))) \/
  (send_raises env (sent s) = false /\ stop_after_send env (sent s) = true /\
   call_send E env device msg s =
     Raise (Sched (out s ++ [Send device msg]) (active_notes s) (S (sent s))
                  (echo_state s))) \/
  (send_raises env (sent s) = false /\ stop_after_send env (sent s) = false /\
   call_send E env device msg s =
     Next (Sched (out s ++ [Send device msg]) (active_notes s) (S (sent s))
                 (echo_state s))).
Proof.
  unfold call_send, send_message.
  destruct (send_raises env (sent s)); [by left|]. simpl.
  destruct (stop_after_send env (sent s)); [right; left | right; right]; done.
Qed.

(** The call has raised: the sets answer to the outputs as before. *)
Lemma flow_inv_refused (s : sched E) :
  run_inv devices s -> send_raises env (sent s) = true ->
  flow_inv env devices
    (Raise (Sched (out s) (active_notes s) (S (sent s)) (echo_state s))).
Proof.
  intros Hinv Hr. unfold flow_inv, entered, pending. simpl. rewrite Hr. simpl.
  split; [|split]; [by destruct Hinv | | done].
  intros d Hd. by apply run_inv_outside.
Qed.

(** A stop signal on the return of the call: the message is out and the
    sets have not been told. *)
Lemma flow_inv_pending (s : sched E) device msg :
  run_inv devices s -> In device devices ->
  send_raises env (sent s) = false -> stop_after_send env (sent s) = true ->
  flow_inv env devices
    (Raise (Sched (out s ++ [Send device msg]) (active_notes s) (S (sent s))
                  (echo_state s))).
Proof.
  intros Hinv Hdev Hr Hstop. unfold flow_inv, entered, pending. simpl.
  rewrite Hr, Hstop. simpl. rewrite removelast_last.
  split; [|split]; [by destruct Hinv | | done].
  intros d Hd. rewrite held_app, (run_inv_outside s d Hinv Hd). simpl.
  destruct msg as [|st [|note [|v [|? ?]]]]; try done.
  destruct (String.eqb_spec device d) as [->|Hne]; [by destruct Hd | done].
Qed.

Lemma dispatch_inv e (s : sched E) :
  run_inv devices s -> settled env s ->
  flow_inv env devices (dispatch devices status E env e s).
Proof.
  intros Hinv Hs. pose proof Hinv as [Hk Hh]. unfold dispatch.
  destruct (bool_decide (ev_device e ∈ devices)) eqn:Hd; simpl;
    [|by apply flow_inv_settled].
  apply bool_decide_eq_true_1 in Hd.
  assert (In (ev_device e) devices) as Hdev by (by apply list_elem_of_In).
  destruct (status_of_device (ev_device e)) as (H144 & H128 & H176); [done|].
  assert (forall msg (next : sched E -> sched E),
            (forall s', out s' = out s ++ [Send (ev_device e) msg] ->
                        active_notes s' = active_notes s ->
                        run_inv devices (next s') /\ sent (next s') = sent s') ->
            flow_inv env devices
              match call_send E env (ev_device e) msg s with
              | Next s' => Next (next s')
              | Raise s' => Raise s'
              end) as Hcall.
  { intros msg next Hnext.
    destruct (call_send_cases (ev_device e) msg s)
      as [(Hr & ->) | [(Hr & Hstop & ->) | (Hr & Hstop & ->)]].
    - by apply flow_inv_refused.
    - by apply flow_inv_pending.
    - destruct (Hnext (Sched (out s ++ [Send (ev_device e) msg]) (active_notes s)
                              (S (sent s)) (echo_state s))) as [Hi Hsent]; [done..|].
      apply flow_inv_settled; [done|]. simpl. intros call Hc.
      rewrite Hsent in Hc. simpl in Hc. by simplify_eq. }
  destruct (String.eqb (ev_action e) "on"); [|destruct (String.eqb (ev_action e) "off");
    [|destruct (String.eqb (ev_action e) "cc"); [|by apply flow_inv_settled]]].
  - apply Hcall. intros s' Ho Ha. split; [|done].
    split; simpl; [by rewrite update_notes_keys, Ha|]. intros d.
    rewrite Ho, held_app, Hh, notes_of_update, Ha, Hk. simpl. rewrite H144. simpl.
    destruct (String.eqb_spec (ev_device e) d) as [<-|Hne]; [|done].
    by rewrite bool_decide_eq_true_2.
  - apply Hcall. intros s' Ho Ha. split; [|done].
    split; simpl; [by rewrite update_notes_keys, Ha|]. intros d.
    rewrite Ho, held_app, Hh, notes_of_update, Ha, Hk. simpl. rewrite H128. simpl.
    destruct (String.eqb_spec (ev_device e) d) as [<-|Hne]; [|done].
    by rewrite bool_decide_eq_true_2.
  - pose proof (Hcall [status 176 (ev_device e); ev_value e; ev_param e] (fun s' => s'))
      as Hcc.
    destruct (call_send E env (ev_device e)
                [status 176 (ev_device e); ev_value e; ev_param e] s);
      apply Hcc; intros s' Ho Ha; (split; [|done]);
      (split; [by rewrite Ha|]); intros d;
      rewrite Ho, held_app, Hh, Ha; simpl; rewrite H176; simpl;
      by destruct (String.eqb (ev_device e) d).
Qed.

Lemma dispatch_due_inv tick rest (s : sched E) :
  run_inv devices s -> settled env s ->
  flow_inv env devices (snd (dispatch_due devices status E env tick rest s)).
Proof.
  revert s. induction rest as [|e rest IH]; intros s Hinv Hs; simpl;
    [by apply flow_inv_settled|].
  destruct (ev_tick e =? tick); [|by apply flow_inv_settled].
  pose proof (dispatch_inv e s Hinv Hs) as Hd.
  destruct (dispatch devices status E env e s) as [s'|s']; simpl; [|done].
  apply flow_inv_next in Hd as [Hi' Hs']. by apply IH.
Qed.

Lemma tick_loop_inv rounds tick max_tick rest (s : sched E) :
  run_inv devices s -> settled env s ->
  flow_inv env devices
    (tick_loop devices status E echo env rounds tick max_tick rest s).
Proof.
  revert tick rest s. induction rounds as [|rounds IH]; intros tick rest s Hinv Hs;
    simpl; [by apply flow_inv_settled|].
  destruct (tick <=? max_tick); [|by apply flow_inv_settled].
  unfold echo_tick.
  destruct (echo (echo_state s) tick) as [[st cs]|]; [|by apply flow_inv_settled].
  match goal with |- context [dispatch_due _ _ _ _ _ _ ?s1] =>
    assert (run_inv devices s1) as Hinv1
  end.
  { apply run_inv_print; [|done]. clear. induction cs; constructor; auto. }
  match goal with |- context [dispatch_due _ _ _ _ _ _ ?s1] =>
    pose proof (dispatch_due_inv tick rest s1 Hinv1 Hs) as Hinv2;
    destruct (dispatch_due devices status E env tick rest s1) as [rest' [s2|s2]]
  end; simpl in Hinv2; [|done].
  apply flow_inv_next in Hinv2 as [Hi2 Hs2].
  unfold sleep.
  destruct (bool_decide (stop_signal env = Some tick)); [by apply flow_inv_settled|].
  apply IH; [|done]. apply run_inv_print; [|done]. repeat constructor.
Qed.

(** However the [try] block is left, its sets answer to the outputs they
    have been told of. *)
Lemma running_flow_inv event_queue echo_ticks e0 :
  flow_inv env devices (running devices status E echo env event_queue echo_ticks e0).
Proof.
  unfold running. apply tick_loop_inv; [|done]. split; simpl.
  - rewrite List.map_map. simpl. apply List.map_id.
  - intros d. unfold held. simpl.
    destruct (bool_decide (d ∈ devices)); [|done].
    clear. induction devices as [|d0 l IH]; simpl; [done|].
    by destruct (String.eqb d0 d).
Qed.

Lemma pending_never (f : flow E) :
  (forall n, stop_after_send env n = false) -> pending env f = false.
Proof.
  intros Hn. unfold pending. destruct (sent (state_of f)); [apply andb_false_r|].
  rewrite Hn. by rewrite !andb_false_r.
Qed.

(** With no stop signal on the return of a call, the sets hold the notes
    that sound. *)
Lemma running_inv event_queue echo_ticks e0 :
  (forall n, stop_after_send env n = false) ->
  run_inv devices
    (state_of (running devices status E echo env event_queue echo_ticks e0)).
Proof.
  intros Hn.
  destruct (running_flow_inv event_queue echo_ticks e0) as ([Hk Hh] & _ & _).
  unfold entered in Hh. rewrite (pending_never _ Hn) in Hh. by split.
Qed.

Hypothesis devices_distinct : NoDup devices.



End RunInvariant.

(** ** The three schedulers *)


Lemma speedcore_devices_distinct : NoDup (map fst Speedcore2Midi.DEVICES).
Proof. compute_done. Qed.


Lemma acid2midi_status_ok : status_ok Acid2Midi.DEVICES Acid2Midi.status.
Proof. repeat constructor. Qed.

Lemma speedcore_status_ok :
  status_ok (map fst Speedcore2Midi.DEVICES) Speedcore2Midi.status.
Proof. repeat constructor. Qed.

Lemma acidtrack_status_ok : status_ok (map fst AcidTrack.DEVICES) AcidTrack.status.
Proof. repeat constructor. Qed.

(** The echo of acid2midi does not raise while every index that is still
    to be printed has its tick. *)
Lemma acid2midi_echo_ok (ready : gmap Z Z) n rem t :
  (forall k, n - len rem <= k < n -> is_Some (ready !! k)) ->
  exists rem' cs,
    Acid2Midi.echo ready n rem t = Some (rem', cs) /\
    (forall k, n - len rem' <= k < n -> is_Some (ready !! k)).
Proof.
  intros Hok. unfold Acid2Midi.echo. destruct rem as [|c rest]; [eauto|].
  destruct (Hok (n - len (c :: rest))) as [r Hr].
  { unfold len. simpl length. lia. }
  rewrite Hr. destruct (r <=? t); [|eauto].
  do 2 eexists. split; [done|]. intros k Hk. apply Hok.
  unfold len in *. simpl length. lia.
Qed.


(** C5: when every message is accepted and no signal arrives, for a queue
    whose ticks are not negative and whose devices are keys of [DEVICES]
    (and, in acid2midi, an echo list with a tick for every index), the
    loop ends without an exception; [max_tick] is one more than the
    highest tick of the queue and the echo list; and, the echo apart, the
    run is, for each tick from 0 to [max_tick] in turn, the messages of
    the events of that tick in the order of the queue, then one sleep. *)
Theorem tick_loop_dispatches_in_queue_order (event_queue : list Event) :
  Forall (fun e => 0 <= ev_tick e) event_queue ->
  (forall char_queue,
     Forall (fun e => In (ev_device e) Acid2Midi.DEVICES) event_queue ->
     (forall k, 0 <= k < len char_queue ->
        is_Some (Acid2Midi.char_ready_ticks char_queue !! k)) ->
     let echo_ticks := map snd (map_to_list (Acid2Midi.char_ready_ticks char_queue)) in
     let max_tick := max_tick_of (sort_by_tick event_queue) echo_ticks in
     let f := Acid2Midi.try_block quiet event_queue char_queue in
     (map ev_tick event_queue ++ echo_ticks <> [] ->
      highest (map ev_tick event_queue ++ echo_ticks) (max_tick - 1)) /\
     raised f = false /\
     without_echo (out (state_of f)) =
       flat_map (fun tick =>
                   flat_map (message_of Acid2Midi.status) (due tick event_queue)
                   ++ [Sleep])
                (range 0 (max_tick + 1))) /\
  (forall char_queue,
     Forall (fun e => In (ev_device e) (map fst Speedcore2Midi.DEVICES)) event_queue ->
     let echo_ticks := map ct_tick char_queue in
     let max_tick := max_tick_of (sort_by_tick event_queue) echo_ticks in
     let f := Speedcore2Midi.try_block quiet event_queue char_queue in
     (map ev_tick event_queue ++ echo_ticks <> [] ->
      highest (map ev_tick event_queue ++ echo_ticks) (max_tick - 1)) /\
     raised f = false /\
     without_echo (out (state_of f)) =
       flat_map (fun tick =>
                   flat_map (message_of Speedcore2Midi.status) (due tick event_queue)
                   ++ [Sleep])
                (range 0 (max_tick + 1))) /\
  (Forall (fun e => In (ev_device e) (map fst AcidTrack.DEVICES)) event_queue ->
   let max_tick := max_tick_of (sort_by_tick event_queue) [] in
   let f := AcidTrack.try_block quiet event_queue in
   (event_queue <> [] -> highest (map ev_tick event_queue) (max_tick - 1)) /\
   raised f = false /\
   without_echo (out (state_of f)) =
     flat_map (fun tick =>
                 flat_map (message_of AcidTrack.status) (due tick event_queue)
                 ++ [Sleep])
              (range 0 (max_tick + 1))).
Proof.
  intros Hge. split; [|split].
  - intros char_queue Hk Hready. cbn zeta.
    split; [apply max_tick_is_one_past_highest|].
    unfold Acid2Midi.try_block.
    destruct (running_completes Acid2Midi.DEVICES Acid2Midi.status (list CharTiming)
                (Acid2Midi.echo (Acid2Midi.char_ready_ticks char_queue) (len char_queue))
                (fun rem => forall k, len char_queue - len rem <= k < len char_queue ->
                   is_Some (Acid2Midi.char_ready_ticks char_queue !! k))
                (fun st t => acid2midi_echo_ok _ _ st t)
                event_queue
                (map snd (map_to_list (Acid2Midi.char_ready_ticks char_queue)))
                char_queue Hge Hk) as (s & -> & Ho).
    { intros k Hk'. apply Hready. lia. }
    split; [done|]. exact Ho.
  - intros char_queue Hk. cbn zeta.
    split; [apply max_tick_is_one_past_highest|].
    unfold Speedcore2Midi.try_block.
    destruct (running_completes (map fst Speedcore2Midi.DEVICES) Speedcore2Midi.status
                (list CharTiming) (fun q tick => Some (Speedcore2Midi.echo q tick))
                (fun _ => True)
                (fun st t _ => ex_intro _ (fst (Speedcore2Midi.echo st t))
                   (ex_intro _ (snd (Speedcore2Midi.echo st t))
                      (conj (f_equal Some (surjective_pairing _)) I)))
                event_queue (map ct_tick char_queue) char_queue Hge Hk I)
      as (s & -> & Ho).
    split; [done|]. exact Ho.
  - intros Hk. cbn zeta. split.
    { intros Hne. rewrite <- (app_nil_r (map ev_tick event_queue)).
      apply max_tick_is_one_past_highest. rewrite app_nil_r.
      by destruct event_queue. }
    unfold AcidTrack.try_block.
    destruct (running_completes (map fst AcidTrack.DEVICES) AcidTrack.status unit
                (fun q _ => Some (q, [])) (fun _ => True)
                (fun st t _ => ex_intro _ st (ex_intro _ [] (conj eq_refl I)))
                event_queue [] tt Hge Hk I) as (s & -> & Ho).
    split; [done|]. exact Ho.
Qed.

(** ** The theorems at concrete inputs *)

(** C4 at the character ["a"] of speedcore2midi *)
Lemma note_on_paired_witness :
  char_in "a" Speedcore2Midi.SAMPLES = false /\
  exists es,
    pushes (Speedcore2Midi.encode true (Mapper (lcg_seed "a") [] [] 0) 0 "a") = [] ++ es /\
    paired es.
Proof.
  split; [reflexivity|].
  apply (proj1 (proj2 (note_on_paired_except_samples (G := Z)))).
  reflexivity.
Defined.

(** C5 at a queue of four events and an echo list of one character *)
Lemma tick_loop_witness :
  Forall (fun e => 0 <= ev_tick e)
    [Ev 0 "BP909" "on" 48 100; Ev 0 "TB303" "on" 48 80;
     Ev 1 "BP909" "off" 48 0; Ev 1 "TB303" "off" 48 0] /\
  raised (Acid2Midi.try_block quiet
            [Ev 0 "BP909" "on" 48 100; Ev 0 "TB303" "on" 48 80;
             Ev 1 "BP909" "off" 48 0; Ev 1 "TB303" "off" 48 0]
            [CT 0 0 "a"]) = false /\
  without_echo (out (state_of (Acid2Midi.try_block quiet
            [Ev 0 "BP909" "on" 48 100; Ev 0 "TB303" "on" 48 80;
             Ev 1 "BP909" "off" 48 0; Ev 1 "TB303" "off" 48 0]
            [CT 0 0 "a"]))) =
    [Send "BP909" [144; 48; 100]; Send "TB303" [144; 48; 80]; Sleep;
     Send "BP909" [128; 48; 0]; Send "TB303" [128; 48; 0]; Sleep;
     Sleep].
Proof.
  assert (Forall (fun e => 0 <= ev_tick e)
            [Ev 0 "BP909" "on" 48 100; Ev 0 "TB303" "on" 48 80;
             Ev 1 "BP909" "off" 48 0; Ev 1 "TB303" "off" 48 0]) as Hq.
  { repeat constructor; simpl; lia. }
  split; [exact Hq|].
  destruct (tick_loop_dispatches_in_queue_order _ Hq) as [Hacid _].
  destruct (Hacid [CT 0 0 "a"%char]) as (_ & Hr & Ht).
  - repeat (apply List.Forall_cons; [simpl; auto 10|]). apply List.Forall_nil.
  - intros k Hk. assert (k = 0) as -> by (unfold len in Hk; simpl in Hk; lia).
    vm_compute. eauto.
  - split; [exact Hr|]. rewrite Ht. reflexivity.
Defined.

(** ** The queues of the mappers can be played *)

Ltac plays :=
  repeat first
    [ apply List.Forall_nil
    | apply List.Forall_cons; [split; cbn [ev_tick ev_device]; [lia | simpl; auto 10] |] ].

Lemma for_each_ind_in {G A} (P : list Event -> Prop) (body : A -> Rand G (list Event)) l g :
  P [] -> (forall a b, P a -> P b -> P (a ++ b)) ->
  (forall x g', In x l -> P (fst (body x g'))) ->
  P (fst (for_each body l g)).
Proof.
  intros Hnil Happ. revert g.
  induction l as [|x l IH]; intros g Hbody; simpl; [done|].
  unfold rbind, rret. pose proof (Hbody x g (or_introl eq_refl)) as Hx.
  destruct (body x g) as [es g1].
  assert (P (fst (for_each body l g1))) as Hl.
  { apply IH. intros y g' Hy. apply Hbody. by right. }
  destruct (for_each body l g1) as [es' g2]. simpl in *. auto.
Qed.


Section Playable.
Context {G : Type} `{PyRandom G}.

Lemma acid_encode_playable (st : mapper G) i ch :
  0 <= current_time st -> Forall (playable Acid2Midi.DEVICES) (pushes st) ->
  0 <= current_time (Acid2Midi.encode st i ch) /\
  Forall (playable Acid2Midi.DEVICES) (pushes (Acid2Midi.encode st i ch)).
Proof.
  intros Ht Hp. unfold Acid2Midi.encode.
  destruct (Ascii.eqb ch " " || char_in (lower ch) PUNCTUATION).
  { simpl. split; [lia|]. apply Forall_app. split; [done|].
    unfold Acid2Midi.separator. simpl. plays. }
  destruct (negb (char_in (lower ch) ENCODABLE)); [done|].
  assert (Forall (playable Acid2Midi.DEVICES)
            (fst (Acid2Midi.bassline (lower ch) (current_time st) (rng st)))) as Hb.
  { unfold Acid2Midi.bassline.
    repeat match goal with |- context [if char_in ?c ?s then _ else _] =>
      destruct (char_in c s) end;
    try draw; cbn [fst app]; simpl Z.ltb; cbn iota; plays. }
  destruct (Acid2Midi.bassline (lower ch) (current_time st) (rng st)) as [bass g'].
  simpl in *. split; [lia|].
  apply Forall_app. split; [done|]. apply Forall_app. split; [done|].
  unfold Acid2Midi.drums.
  repeat match goal with |- context [if char_in ?c ?s then _ else _] =>
    destruct (char_in c s) end; plays.
Qed.

Lemma acid_queue_playable (g0 : G) text :
  Forall (playable Acid2Midi.DEVICES) (fst (fst (Acid2Midi.text_to_event_queue g0 text))).
Proof.
  simpl. eapply Forall_perm; [symmetry; apply merged_perm|].
  apply (enumerate_from_inv
           (fun st => 0 <= current_time st /\
                      Forall (playable Acid2Midi.DEVICES) (pushes st))).
  - simpl. split; [lia | constructor].
  - intros st i ch [Ht Hp]. by apply acid_encode_playable.
Qed.

Lemma acid_char_indices text i (st : mapper G) :
  map ct_index (char_timing (enumerate_from Acid2Midi.encode i text st)) =
  map ct_index (char_timing st) ++ range i (i + len text).
Proof.
  revert i st. induction text as [|ch text IH]; intros i st; simpl.
  - rewrite range_nil by (unfold len; simpl; lia). by rewrite app_nil_r.
  - rewrite IH.
    rewrite (range_cons i) by (unfold len; simpl length; lia).
    replace (i + 1 + len text) with (i + len (ch :: text))
      by (unfold len; simpl length; lia).
    assert (map ct_index (char_timing (Acid2Midi.encode st i ch)) =
            map ct_index (char_timing st) ++ [i]) as ->.
    { unfold Acid2Midi.encode.
      destruct (Ascii.eqb ch " " || char_in (lower ch) PUNCTUATION);
        [simpl; by rewrite List.map_app|].
      destruct (negb (char_in (lower ch) ENCODABLE)); [simpl; by rewrite List.map_app|].
      destruct (Acid2Midi.bassline _ _ _). simpl. by rewrite List.map_app. }
    by rewrite <- app_assoc.
Qed.

Lemma char_ready_ticks_key char_queue c :
  In c char_queue -> is_Some (Acid2Midi.char_ready_ticks char_queue !! ct_index c).
Proof.
  unfold Acid2Midi.char_ready_ticks.
  assert (forall l (m : gmap Z Z) k, is_Some (m !! k) ->
            is_Some (fold_left (fun m c => <[ct_index c := ct_tick c]> m) l m !! k)) as Hkeep.
  { induction l as [|x l IH]; intros m k Hm; simpl; [done|].
    apply IH. destruct (decide (ct_index x = k)) as [->|Hne].
    - rewrite lookup_insert_eq. eauto.
    - by rewrite lookup_insert_ne. }
  generalize (∅ : gmap Z Z).
  induction char_queue as [|x l IH]; intros m Hin; simpl; [done|].
  destruct Hin as [->|Hin]; [|by apply IH].
  apply Hkeep. rewrite lookup_insert_eq. eauto.
Qed.

Lemma acid_echo_list_indexed (g0 : G) text k :
  let char_queue := snd (fst (Acid2Midi.text_to_event_queue g0 text)) in
  0 <= k < len char_queue ->
  is_Some (Acid2Midi.char_ready_ticks char_queue !! k).
Proof.
  simpl. unfold Acid2Midi.encode_text.
  set (st := enumerate_from Acid2Midi.encode 0 (chars text) _).
  assert (sorted_by_index (char_timing st) ≡ₚ char_timing st) as Hp
    by apply py_sorted_perm.
  assert (map ct_index (char_timing st) = range 0 (0 + len (chars text))) as Hi.
  { subst st. by rewrite acid_char_indices. }
  intros Hk.
  assert (len (sorted_by_index (char_timing st)) = len (chars text)) as Hlen.
  { unfold len. rewrite Hp. rewrite <- (length_map ct_index), Hi.
    unfold range, len. rewrite length_map, length_seq. lia. }
  assert (In k (map ct_index (char_timing st))) as Hin.
  { rewrite Hi. unfold range. apply in_map_iff. exists (Z.to_nat k).
    split; [lia|]. apply in_seq. lia. }
  apply in_map_iff in Hin as (c & <- & Hc).
  apply char_ready_ticks_key. apply list_elem_of_In. rewrite Hp.
  by apply list_elem_of_In.
Qed.


Lemma speed_encode_playable at_first (st : mapper G) i ch :
  0 <= current_time st ->
  Forall (playable (map fst Speedcore2Midi.DEVICES)) (pushes st) ->
  0 <= current_time (Speedcore2Midi.encode at_first st i ch) /\
  Forall (playable (map fst Speedcore2Midi.DEVICES))
         (pushes (Speedcore2Midi.encode at_first st i ch)).
Proof.
  intros Ht Hp. unfold Speedcore2Midi.encode.
  destruct (char_in ch Speedcore2Midi.SAMPLES).
  { unfold Speedcore2Midi.sample, rbind, rret. draw. simpl. split; [lia|].
    apply Forall_app. split; [done|]. plays. }
  destruct (Ascii.eqb ch " " || char_in (lower ch) PUNCTUATION).
  { unfold Speedcore2Midi.separator, rbind, rret. simpl. unfold rbind, rret.
    repeat draw. simpl. split; [lia|]. apply Forall_app. split; [done|]. plays. }
  destruct (negb (char_in (lower ch) ENCODABLE)); [simpl; split; [lia | done]|].
  unfold rbind, rret.
  assert (forall g, Forall (playable (map fst Speedcore2Midi.DEVICES))
            (fst (Speedcore2Midi.bassline (lower ch) (current_time st) g))) as Hb.
  { intros g. unfold Speedcore2Midi.bassline, rbind, rret.
    repeat match goal with |- context [if char_in ?c ?s then _ else _] =>
      destruct (char_in c s) end;
    repeat draw; cbn [fst app]; simpl Z.ltb; cbn iota; cbn [app]; plays. }
  assert (forall g, Forall (playable (map fst Speedcore2Midi.DEVICES))
            (fst (Speedcore2Midi.drums (lower ch) i (current_time st) g))) as Hd.
  { intros g. unfold Speedcore2Midi.drums, rbind, rret.
    draw. draw.
    all: repeat match goal with |- context [if char_in ?c ?s then _ else _] =>
      destruct (char_in c s) end.
    all: repeat match goal with |- context [if (?a =? ?b) then _ else _] =>
      destruct (a =? b) end.
    all: cbn [orb].
    all: repeat draw; cbn [fst app]; plays. }
  assert (forall g, Forall (playable (map fst Speedcore2Midi.DEVICES))
            (fst (Speedcore2Midi.lead (lower ch) (current_time st) g))) as Hl.
  { intros g. unfold Speedcore2Midi.lead, rbind, rret.
    destruct (char_in (lower ch) VOWELS); repeat draw; cbn [fst app]; plays. }
  specialize (Hb (rng st)).
  destruct (Speedcore2Midi.bassline (lower ch) (current_time st) (rng st)) as [bass g1].
  specialize (Hd g1).
  destruct (Speedcore2Midi.drums (lower ch) i (current_time st) g1) as [drum g2].
  specialize (Hl g2).
  destruct (Speedcore2Midi.lead (lower ch) (current_time st) g2) as [ld g3].
  simpl in *. split; [lia|]. repeat (apply Forall_app; split); done.
Qed.

Lemma speed_queue_playable at_first (g0 : G) text :
  Forall (playable (map fst Speedcore2Midi.DEVICES))
         (fst (fst (Speedcore2Midi.text_to_event_queue at_first g0 text))).
Proof.
  simpl. eapply Forall_perm; [symmetry; apply merged_perm|].
  apply (enumerate_from_inv
           (fun st => 0 <= current_time st /\
                      Forall (playable (map fst Speedcore2Midi.DEVICES)) (pushes st))).
  - simpl. split; [lia | constructor].
  - intros st i ch [Ht Hp]. by apply speed_encode_playable.
Qed.






End Playable.

(** ** The rounds given to the loops suffice *)

Lemma _siftdown_loop_rounds {A} (ltb : A -> A -> bool) fuel heap startpos newitem pos :
  (pos <= fuel)%nat ->
  _siftdown_loop ltb fuel heap startpos newitem pos =
  _siftdown_loop ltb pos heap startpos newitem pos.
Proof.
  revert heap pos. induction fuel as [fuel IH] using lt_wf_ind.
  intros heap pos Hle. destruct pos as [|p].
  - destruct fuel; cbn [_siftdown_loop]; [done|].
    by destruct startpos.
  - destruct fuel as [|fuel]; [lia|]. cbn [_siftdown_loop].
    destruct (startpos <? S p)%nat; [|done].
    destruct (heap !! ((S p - 1) / 2)%nat) as [parent|]; [|done].
    destruct (ltb newitem parent); [|done].
    assert ((S p - 1) / 2 <= p)%nat as Hp.
    { replace (S p - 1)%nat with p by lia. apply Nat.Div0.div_le_upper_bound. lia. }
    rewrite (IH fuel) by lia. symmetry. apply (IH p); lia.
Qed.

Lemma tick_loop_rounds devices status E echo env rounds tick max_tick rest (s : sched E) :
  (Z.to_nat (max_tick + 1 - tick) <= rounds)%nat ->
  tick_loop devices status E echo env rounds tick max_tick rest s =
  tick_loop devices status E echo env (Z.to_nat (max_tick + 1 - tick)) tick max_tick rest s.
Proof.
  revert tick rest s. induction rounds as [|rounds IH]; intros tick rest s Hle.
  - by replace (Z.to_nat (max_tick + 1 - tick)) with 0%nat by lia.
  - destruct (Z.leb_spec tick max_tick) as [Hin|Hout].
    + replace (Z.to_nat (max_tick + 1 - tick))
        with (S (Z.to_nat (max_tick + 1 - (tick + 1)))) by lia.
      cbn [tick_loop]. rewrite (proj2 (Z.leb_le _ _) Hin).
      destruct (echo_tick E echo tick s) as [s1|s1]; [|done].
      destruct (dispatch_due devices status E env tick rest s1) as [rest' [s2|s2]];
        [|done].
      destruct (sleep E env tick s2) as [s3|s3]; [|done].
      apply IH. lia.
    + replace (Z.to_nat (max_tick + 1 - tick)) with 0%nat by lia.
      cbn [tick_loop]. by rewrite (proj2 (Z.leb_gt _ _) Hout).
Qed.



(** C1 as stated fails as well when the stop signal arrives between the
    sending of a note-on and [active_notes[device].add]: the note sounds,
    its set is empty, the [finally] block finds nothing to send, and the
    device is left holding the note. *)
Lemma stop_signal_before_add_leaves_the_note :
  let env := Outside (fun _ => false) None (fun n => Nat.eqb n 0) in
  let event_queue := [Ev 0 "TB303" "on" 60 100] in
  let f := Acid2Midi.try_block env event_queue [] in
  let run := Acid2Midi.play_event_queue env event_queue [] in
  raised f = true /\ pending env f = true /\
  notes_of (active_notes (state_of f)) "TB303" = ∅ /\
  run = ([Send "TB303" [144; 60; 100]; AllNotesOff], true) /\
  60 ∈ held "TB303" (fst run).
Proof.
  cbn zeta. split; [vm_compute; reflexivity|]. split; [vm_compute; reflexivity|].
  split; [vm_compute; reflexivity|]. split; [vm_compute; reflexivity|].
  vm_compute. set_solver.
Qed.

(** * Further properties *)

(** ** The queue of a mapper is played in the order it is returned *)

Lemma py_sorted_id {A} (ltb : A -> A -> bool) l :
  StronglySorted (le_of ltb) l -> py_sorted ltb l = l.
Proof.
  induction 1 as [|x l Hs IH Hx]; simpl; [done|].
  rewrite IH. destruct l as [|y l']; simpl; [done|].
  inversion Hx as [|? ? Hy _]; subst. unfold le_of in Hy. by rewrite Hy.
Qed.

Lemma tuple_le_tick a b : tuple_le a b -> le_of (fun a b => ev_tick a <? ev_tick b) a b.
Proof.
  unfold tuple_le, le_of, tuple_ltb, tuple_compare. intros Hle.
  apply Z.ltb_ge. destruct (Z.compare_spec (ev_tick b) (ev_tick a)) as [Heq|Hlt|Hgt];
    simpl in Hle; [lia | discriminate | lia].
Qed.

Lemma StronglySorted_impl {A} (R1 R2 : A -> A -> Prop) l :
  (forall a b, R1 a b -> R2 a b) -> StronglySorted R1 l -> StronglySorted R2 l.
Proof.
  intros Hr. induction 1 as [|x l Hs IH Hx]; constructor; [done|].
  eapply Forall_impl; [exact Hx | auto].
Qed.

Lemma sort_by_tick_merged pushes : sort_by_tick (merged pushes) = merged pushes.
Proof.
  apply py_sorted_id. eapply StronglySorted_impl; [|apply merged_sorted].
  apply tuple_le_tick.
Qed.

Lemma enumerate_from_inv_at {S : Type} (P : Z -> S -> Prop) (body : S -> Z -> ascii -> S)
    text i st :
  P i st -> (forall st i ch, P i st -> P (i + 1) (body st i ch)) ->
  P (i + len text) (enumerate_from body i text st).
Proof.
  intros Hst Hbody. revert i st Hst.
  induction text as [|ch text IH]; intros i st Hst; simpl.
  - unfold len. simpl. by rewrite Z.add_0_r.
  - replace (i + len (ch :: text)) with (i + 1 + len text)
      by (unfold len; simpl length; lia).
    apply IH. by apply Hbody.
Qed.


Lemma indexed_below_snoc i l c :
  indexed_below i l -> ct_index c = i -> indexed_below (i + 1) (l ++ [c]).
Proof.
  intros [Hs Hb] Hc. split.
  - clear -Hs Hb Hc. induction Hs as [|x l Hs IH Hx]; simpl.
    + repeat constructor.
    + inversion Hb as [|? ? Hxi Hb']; subst. constructor; [by apply IH|].
      apply Forall_app. split; [done|]. repeat constructor.
      unfold le_of. apply Z.ltb_ge. lia.
  - apply Forall_app. split.
    + eapply Forall_impl; [exact Hb|]. simpl. lia.
    + repeat constructor. lia.
Qed.

Lemma indexed_below_mono i l : indexed_below i l -> indexed_below (i + 1) l.
Proof.
  intros [Hs Hb]. split; [done|]. eapply Forall_impl; [exact Hb|]. simpl. lia.
Qed.

Section CharOrder.
Context {G : Type} `{PyRandom G}.

Lemma acid_encode_indexed (st : mapper G) i ch :
  indexed_below i (char_timing st) ->
  indexed_below (i + 1) (char_timing (Acid2Midi.encode st i ch)).
Proof.
  intros Hi. unfold Acid2Midi.encode.
  destruct (Ascii.eqb ch " " || char_in (lower ch) PUNCTUATION);
    [by apply indexed_below_snoc|].
  destruct (negb (char_in (lower ch) ENCODABLE)); [by apply indexed_below_snoc|].
  destruct (Acid2Midi.bassline _ _ _). by apply indexed_below_snoc.
Qed.

Lemma speed_encode_indexed at_first (st : mapper G) i ch :
  indexed_below i (char_timing st) ->
  indexed_below (i + 1) (char_timing (Speedcore2Midi.encode at_first st i ch)).
Proof.
  intros Hi. unfold Speedcore2Midi.encode.
  destruct (char_in ch Speedcore2Midi.SAMPLES).
  { destruct (Speedcore2Midi.sample _ _ _ _). by apply indexed_below_snoc. }
  destruct (Ascii.eqb ch " " || char_in (lower ch) PUNCTUATION).
  { destruct (Speedcore2Midi.separator _ _). by apply indexed_below_snoc. }
  destruct (negb (char_in (lower ch) ENCODABLE)); [by apply indexed_below_mono|].
  match goal with |- context [let '(_, _) := ?m in _] => destruct m end.
  by apply indexed_below_snoc.
Qed.

Lemma acid_char_queue (g0 : G) text :
  snd (fst (Acid2Midi.text_to_event_queue g0 text)) =
  char_timing (Acid2Midi.encode_text (G := G) text).
Proof.
  simpl. apply py_sorted_id.
  apply (enumerate_from_inv_at (fun i st => indexed_below i (char_timing st))).
  - split; constructor.
  - intros st i ch. apply acid_encode_indexed.
Qed.

Lemma speed_char_queue at_first (g0 : G) text :
  snd (fst (Speedcore2Midi.text_to_event_queue at_first g0 text)) =
  char_timing (Speedcore2Midi.encode_text (G := G) at_first text).
Proof.
  simpl. apply py_sorted_id.
  apply (enumerate_from_inv_at (fun i st => indexed_below i (char_timing st))).
  - split; constructor.
  - intros st i ch. apply speed_encode_indexed.
Qed.

(** X1: the queue a mapper returns is in ascending order of tick already, and
    its echo list in ascending order of index: the sort by tick at the
    head of [play_event_queue], which is stable, leaves the queue as it is,
    and [sorted(char_timing, key=...)] returns [char_timing] as it was
    built.  The events are played in the order of the returned queue. *)
Theorem mapped_queue_is_played_as_returned (g0 : G) :
  (forall text,
     let mapped := fst (Acid2Midi.text_to_event_queue g0 text) in
     sort_by_tick (fst mapped) = fst mapped /\
     snd mapped = char_timing (Acid2Midi.encode_text (G := G) text)) /\
  (forall at_first text,
     let mapped := fst (Speedcore2Midi.text_to_event_queue at_first g0 text) in
     sort_by_tick (fst mapped) = fst mapped /\
     snd mapped = char_timing (Speedcore2Midi.encode_text (G := G) at_first text)) /\
  (let event_queue := fst (AcidTrack.generate_acid_patterns g0) in
   sort_by_tick event_queue = event_queue).
Proof.
  split; [|split].
  - intros text. split; [apply sort_by_tick_merged | apply acid_char_queue].
  - intros at_first text. split; [apply sort_by_tick_merged | apply speed_char_queue].
  - unfold AcidTrack.generate_acid_patterns.
    destruct (AcidTrack.patterns (seed_int 42)) as [es g]. apply sort_by_tick_merged.
Qed.

End CharOrder.

(** ** main, with its ports open and nothing in its way *)

Section MainRuns.
Context {G : Type} `{PyRandom G}.

(** A command line whose first argument is no digit string passes the
    module-level code of speedcore2midi. *)
Lemma script_runs_main max_str_digits at_first (g0 : G) ports_open env argv :
  Speedcore2Midi.isdigit (nth 1 argv "") = false ->
  Speedcore2Midi.script max_str_digits at_first g0 ports_open env argv =
    inr (Speedcore2Midi.main at_first g0 ports_open env argv).
Proof.
  intros Hd. unfold Speedcore2Midi.script, Speedcore2Midi.module_level.
  by rewrite Hd, andb_false_r.
Qed.

(** When the module-level code returns, [main] is what runs. *)
Lemma script_returns max_str_digits at_first (g0 : G) ports_open env argv run :
  Speedcore2Midi.script max_str_digits at_first g0 ports_open env argv = inr run ->
  run = Speedcore2Midi.main at_first g0 ports_open env argv.
Proof.
  unfold Speedcore2Midi.script.
  destruct (Speedcore2Midi.module_level max_str_digits argv); [done|].
  by intros [= <-].
Qed.

(** The module-level code of speedcore2midi at a tempo, at no argument,
    and at the first arguments that make it raise: 0, a superscript two,
    310 nines, and more digits than [int] takes. *)
Example module_level_of_speedcore prog :
  Speedcore2Midi.module_level 4300 [prog; "200"; "acid"] = inr 200 /\
  Speedcore2Midi.module_level 4300 [prog] = inr 180 /\
  Speedcore2Midi.module_level 4300 [prog; "acid"; "200"] = inr 180 /\
  Speedcore2Midi.module_level 4300 [prog; "0"] = inl Speedcore2Midi.ZeroDivisionError /\
  Speedcore2Midi.module_level 4300 [prog; "000"] = inl Speedcore2Midi.ZeroDivisionError /\
  Speedcore2Midi.module_level 4300 [prog; String (chr 178) ""] =
    inl Speedcore2Midi.ValueError /\
  Speedcore2Midi.module_level 4300 [prog; string_of_list_ascii (repeat "9"%char 309)] =
    inl Speedcore2Midi.OverflowError /\
  Speedcore2Midi.module_level 4300 [prog; string_of_list_ascii (repeat "0"%char 4301)] =
    inl Speedcore2Midi.ValueError /\
  Speedcore2Midi.module_level 0 [prog; string_of_list_ascii (repeat "0"%char 4301)] =
    inl Speedcore2Midi.ZeroDivisionError.
Proof. repeat split; vm_compute; reflexivity. Qed.


End MainRuns.

(** ** The sets of active notes *)

(** X3: however the [try] block is left, the keys of [active_notes] are
    the keys of [DEVICES], and the set of a device holds exactly the notes
    for which a note-on was sent to the device with no note-off after it,
    among the messages that the set has been told of.  These are all the
    messages sent, but for one case: a stop signal on the return of
    [send_message], before [active_notes[device].add] or [.discard] runs,
    leaves the last message out of the sets.  No message goes to a device
    outside [DEVICES]. *)
Theorem active_notes_are_the_sounding_notes (env : outside) (event_queue : list Event) :
  (forall char_queue d,
     let f := Acid2Midi.try_block env event_queue char_queue in
     let s := state_of f in
     map fst (active_notes s) = Acid2Midi.DEVICES /\
     (In d (Acid2Midi.DEVICES) -> notes_of (active_notes s) d = held d (entered env f)) /\
     ((forall n, stop_after_send env n = false) -> In d (Acid2Midi.DEVICES) ->
      notes_of (active_notes s) d = held d (out s)) /\
     (~ In d (Acid2Midi.DEVICES) -> held d (out s) = ∅)) /\
  (forall char_queue d,
     let f := Speedcore2Midi.try_block env event_queue char_queue in
     let s := state_of f in
     map fst (active_notes s) = map fst Speedcore2Midi.DEVICES /\
     (In d (map fst Speedcore2Midi.DEVICES) -> notes_of (active_notes s) d = held d (entered env f)) /\
     ((forall n, stop_after_send env n = false) -> In d (map fst Speedcore2Midi.DEVICES) ->
      notes_of (active_notes s) d = held d (out s)) /\
     (~ In d (map fst Speedcore2Midi.DEVICES) -> held d (out s) = ∅)) /\
  (forall d,
     let f := AcidTrack.try_block env event_queue in
     let s := state_of f in
     map fst (active_notes s) = map fst AcidTrack.DEVICES /\
     (In d (map fst AcidTrack.DEVICES) -> notes_of (active_notes s) d = held d (entered env f)) /\
     ((forall n, stop_after_send env n = false) -> In d (map fst AcidTrack.DEVICES) ->
      notes_of (active_notes s) d = held d (out s)) /\
     (~ In d (map fst AcidTrack.DEVICES) -> held d (out s) = ∅)).
Proof.
  assert (forall E devices (f : flow E) d,
            flow_inv env devices f ->
            map fst (active_notes (state_of f)) = devices /\
            (In d devices ->
             notes_of (active_notes (state_of f)) d = held d (entered env f)) /\
            ((forall n, stop_after_send env n = false) -> In d devices ->
             notes_of (active_notes (state_of f)) d = held d (out (state_of f))) /\
            (~ In d devices -> held d (out (state_of f)) = ∅)) as Hinv.
  { intros E devices f d ([Hk Hh] & Hout & _). simpl in Hk, Hh.
    assert (In d devices ->
            notes_of (active_notes (state_of f)) d = held d (entered env f)) as Hin.
    { intros Hd. rewrite Hh.
      by rewrite bool_decide_eq_true_2 by (by apply list_elem_of_In). }
    split; [done|]. split; [done|]. split; [|by apply Hout].
    intros Hn Hd. rewrite (Hin Hd). unfold entered, pending.
    destruct (sent (state_of f)); [by rewrite andb_false_r|].
    by rewrite Hn, !andb_false_r. }
  split; [|split].
  - intros char_queue d. apply Hinv. apply running_flow_inv, acid2midi_status_ok.
  - intros char_queue d. apply Hinv. apply running_flow_inv, speedcore_status_ok.
  - intros d. apply Hinv. apply running_flow_inv, acidtrack_status_ok.
Qed.

(** ** The echo list of acid2midi must start at index 0 *)

Lemma char_ready_ticks_values char_queue k t :
  Acid2Midi.char_ready_ticks char_queue !! k = Some t ->
  exists c, In c char_queue /\ ct_index c = k /\ ct_tick c = t.
Proof.
  unfold Acid2Midi.char_ready_ticks.
  assert (forall l (m : gmap Z Z),
            fold_left (fun m c => <[ct_index c := ct_tick c]> m) l m !! k = Some t ->
            m !! k = Some t \/ exists c, In c l /\ ct_index c = k /\ ct_tick c = t) as Hgen.
  { induction l as [|x l IH]; intros m Hm; simpl in *; [by left|].
    destruct (IH _ Hm) as [Hx|(c & Hc & ? & ?)].
    - destruct (decide (ct_index x = k)) as [Hk|Hk].
      + subst k. rewrite lookup_insert_eq in Hx. right. exists x. split; [by left|].
        split; [done | congruence].
      + rewrite lookup_insert_ne in Hx by done. by left.
    - right. exists c. auto. }
  intros Hk. destruct (Hgen _ _ Hk) as [He|He]; [|done].
  by rewrite lookup_empty in He.
Qed.

(** X4: acid2midi looks up the tick of the next character to print by
    its position, counted from 0.  Given an echo list that is not empty
    and has no entry of index 0 (and ticks that are not negative), the
    lookup at tick 0 yields [None], the comparison with the tick raises,
    and the call ends with an exception before any message, sleep or
    character: only the closing line of the [finally] block is printed. *)
Theorem acid2midi_echo_list_must_start_at_zero (env : outside)
    (event_queue : list Event) (char_queue : list CharTiming) :
  char_queue <> [] ->
  Forall (fun c => 0 <= ct_tick c) char_queue ->
  Forall (fun c => ct_index c <> 0) char_queue ->
  Acid2Midi.play_event_queue env event_queue char_queue = ([AllNotesOff], true).
Proof.
  intros Hne Hticks Hidx.
  set (ready := Acid2Midi.char_ready_ticks char_queue).
  assert (ready !! 0 = None) as H0.
  { destruct (ready !! 0) as [t|] eqn:Hr; [|done].
    apply char_ready_ticks_values in Hr as (c & Hc & Hi & _).
    rewrite Forall_forall in Hidx. exfalso. apply (Hidx c); [|done].
    by apply list_elem_of_In. }
  assert (0 <= max_tick_of (sort_by_tick event_queue) (map snd (map_to_list ready)))
    as Hmax.
  { destruct char_queue as [|c0 rest]; [done|].
    destruct (char_ready_ticks_key (c0 :: rest) c0 (or_introl eq_refl)) as [t Ht].
    fold ready in Ht.
    assert (In t (map snd (map_to_list ready))) as Hin.
    { apply in_map_iff. exists (ct_index c0, t). split; [done|].
      apply list_elem_of_In. by apply elem_of_map_to_list. }
    assert (0 <= t) as Hpos.
    { apply char_ready_ticks_values in Ht as (c & Hc & _ & <-).
      rewrite Forall_forall in Hticks. apply Hticks. by apply list_elem_of_In. }
    unfold max_tick_of.
    destruct (py_max_default_spec
                (map ev_tick (sort_by_tick event_queue) ++ map snd (map_to_list ready)))
      as [_ Hall].
    { intros Hnil. apply app_eq_nil in Hnil as [_ Hnil]. by rewrite Hnil in Hin. }
    rewrite Forall_forall in Hall.
    assert (t <= py_max_default
                   (map ev_tick (sort_by_tick event_queue) ++ map snd (map_to_list ready)))
      by (apply Hall, list_elem_of_In, in_or_app; by right).
    lia. }
  unfold Acid2Midi.play_event_queue, Acid2Midi.try_block, running. fold ready.
  set (max_tick := max_tick_of _ _) in *.
  replace (Z.to_nat (max_tick + 1)) with (S (Z.to_nat max_tick)) by lia.
  cbn [tick_loop]. rewrite (proj2 (Z.leb_le _ _) Hmax).
  unfold echo_tick. cbn [echo_state]. unfold Acid2Midi.echo.
  destruct char_queue as [|c0 rest]; [done|].
  rewrite Z.sub_diag, H0. reflexivity.
Qed.

Lemma acid2midi_echo_list_witness :
  [CT 0 5 "x"] <> [] /\
  Acid2Midi.play_event_queue quiet [Ev 0 "TB303" "on" 48 80] [CT 0 5 "x"] =
    ([AllNotesOff], true).
Proof.
  split; [discriminate|].
  apply acid2midi_echo_list_must_start_at_zero.
  - discriminate.
  - repeat constructor. simpl. lia.
  - repeat constructor. simpl. lia.
Defined.

(** ** The tick of every character *)

Lemma count_if_cons {A} (p : A -> bool) x l :
  count_if p (x :: l) = ((if p x then 1 else 0) + count_if p l)%nat.
Proof. unfold count_if. simpl. by destruct (p x). Qed.

Section Timing.
Context {G : Type} `{PyRandom G}.

Lemma acid_encode_timing (st : mapper G) i ch :
  char_timing (Acid2Midi.encode st i ch) = char_timing st ++ [CT (current_time st) i ch] /\
  current_time (Acid2Midi.encode st i ch) =
    current_time st + (if advances ch then 1 else 0).
Proof.
  unfold Acid2Midi.encode, advances.
  destruct (Ascii.eqb ch " " || char_in (lower ch) PUNCTUATION); [done|].
  destruct (char_in (lower ch) ENCODABLE); simpl; [|split; [done | lia]].
  by destruct (Acid2Midi.bassline _ _ _).
Qed.

Lemma acid_timing text i (st : mapper G) :
  let st' := enumerate_from Acid2Midi.encode i text st in
  char_timing st' =
    char_timing st ++
    imap (fun k ch => CT (current_time st + Z.of_nat (count_if advances (take k text)))
                         (i + Z.of_nat k) ch) text /\
  current_time st' = current_time st + Z.of_nat (count_if advances text).
Proof.
  cbn zeta. revert i st. induction text as [|ch text IH]; intros i st; simpl.
  - rewrite app_nil_r. split; [done|]. unfold count_if. simpl. lia.
  - destruct (IH (i + 1) (Acid2Midi.encode st i ch)) as [Hc Ht].
    destruct (acid_encode_timing st i ch) as [Hc1 Ht1].
    rewrite Hc, Ht, Hc1, Ht1, <- app_assoc. simpl. split.
    + f_equal. f_equal.
      * f_equal; [|lia]. unfold count_if. simpl. lia.
      * apply imap_ext. intros k x _. simpl. rewrite count_if_cons.
        destruct (advances ch); f_equal; lia.
    + rewrite count_if_cons. destruct (advances ch); lia.
Qed.

Lemma speed_encode_timing at_first (st : mapper G) i ch :
  char_timing (Speedcore2Midi.encode at_first st i ch) =
    char_timing st ++
    List.filter (fun c => timed_by_speedcore (ct_ch c)) [CT (current_time st) i ch] /\
  current_time (Speedcore2Midi.encode at_first st i ch) = current_time st + 1.
Proof.
  unfold Speedcore2Midi.encode, timed_by_speedcore, advances. cbn [List.filter ct_ch].
  destruct (char_in ch Speedcore2Midi.SAMPLES).
  { by destruct (Speedcore2Midi.sample _ _ _ _). }
  destruct (Ascii.eqb ch " " || char_in (lower ch) PUNCTUATION).
  { by destruct (Speedcore2Midi.separator _ _). }
  destruct (char_in (lower ch) ENCODABLE); simpl; [|by rewrite app_nil_r].
  match goal with |- context [let '(_, _) := ?m in _] => by destruct m end.
Qed.

Lemma speed_timing at_first text i (st : mapper G) :
  let st' := enumerate_from (Speedcore2Midi.encode at_first) i text st in
  char_timing st' =
    char_timing st ++
    List.filter (fun c => timed_by_speedcore (ct_ch c))
      (imap (fun k ch => CT (current_time st + Z.of_nat k) (i + Z.of_nat k) ch) text) /\
  current_time st' = current_time st + len text.
Proof.
  cbn zeta. revert i st. induction text as [|ch text IH]; intros i st; simpl.
  - rewrite app_nil_r. split; [done|]. unfold len. simpl. lia.
  - destruct (IH (i + 1) (Speedcore2Midi.encode at_first st i ch)) as [Hc Ht].
    destruct (speed_encode_timing at_first st i ch) as [Hc1 Ht1].
    rewrite Hc, Ht, Hc1, Ht1, <- app_assoc. split.
    + f_equal. cbn [List.filter ct_ch].
      rewrite !Z.add_0_r.
      assert (imap (fun k ch0 => CT (current_time st + 1 + Z.of_nat k)
                                    (i + 1 + Z.of_nat k) ch0) text =
              imap ((fun k ch0 => CT (current_time st + Z.of_nat k)
                                     (i + Z.of_nat k) ch0) ∘ S) text) as ->.
      { apply imap_ext. intros k x _. simpl. f_equal; lia. }
      by destruct (timed_by_speedcore ch).
    + unfold len. simpl length. lia.
Qed.

Lemma acid_echo_list (g0 : G) text :
  snd (fst (Acid2Midi.text_to_event_queue g0 text)) =
    imap (fun k ch => CT (Z.of_nat (count_if advances (take k (chars text))))
                         (Z.of_nat k) ch) (chars text).
Proof.
  rewrite acid_char_queue. unfold Acid2Midi.encode_text.
  destruct (acid_timing (chars text) 0 (Mapper (seed_str text) [] [] 0)) as [-> _].
  simpl. apply imap_ext. intros k x _. simpl. f_equal; lia.
Qed.

Lemma acid_final_time text :
  current_time (Acid2Midi.encode_text (G := G) text) =
    Z.of_nat (count_if advances (chars text)).
Proof.
  unfold Acid2Midi.encode_text.
  destruct (acid_timing (chars text) 0 (Mapper (seed_str text) [] [] 0)) as [_ ->].
  simpl. lia.
Qed.

Lemma speed_echo_list at_first (g0 : G) text :
  snd (fst (Speedcore2Midi.text_to_event_queue at_first g0 text)) =
    List.filter (fun c => timed_by_speedcore (ct_ch c))
      (imap (fun k ch => CT (Z.of_nat k) (Z.of_nat k) ch) (chars text)).
Proof.
  rewrite speed_char_queue. unfold Speedcore2Midi.encode_text.
  destruct (speed_timing at_first (chars text) 0 (Mapper (seed_str text) [] [] 0))
    as [-> _].
  simpl. f_equal.
Qed.

Lemma speed_final_time at_first text :
  current_time (Speedcore2Midi.encode_text (G := G) at_first text) = len (chars text).
Proof.
  unfold Speedcore2Midi.encode_text.
  destruct (speed_timing at_first (chars text) 0 (Mapper (seed_str text) [] [] 0))
    as [_ ->].
  simpl. lia.
Qed.

(** X5: the echo list of a mapped text.  acid2midi enters every character
    of the text, with its index and, as its tick, the number of characters
    before it that are a space, separator punctuation or encodable: a
    character outside these shares the tick of the next one.
    speedcore2midi moves on by one tick for every character, so a
    character stands at the tick of its index, and it enters only the
    sample triggers, the separators and the encodable characters. *)
Theorem echo_list_of_mapped_text (g0 : G) text :
  snd (fst (Acid2Midi.text_to_event_queue g0 text)) =
    imap (fun k ch => CT (Z.of_nat (count_if advances (take k (chars text))))
                         (Z.of_nat k) ch) (chars text) /\
  current_time (Acid2Midi.encode_text (G := G) text) =
    Z.of_nat (count_if advances (chars text)) /\
  (forall at_first,
     snd (fst (Speedcore2Midi.text_to_event_queue at_first g0 text)) =
       List.filter (fun c => timed_by_speedcore (ct_ch c))
         (imap (fun k ch => CT (Z.of_nat k) (Z.of_nat k) ch) (chars text)) /\
     current_time (Speedcore2Midi.encode_text (G := G) at_first text) = len (chars text)).
Proof.
  split; [apply acid_echo_list|]. split; [apply acid_final_time|].
  intros at_first. split; [apply speed_echo_list | apply speed_final_time].
Qed.

End Timing.

(** ** The ticks of the events *)

Ltac ticks :=
  repeat first
    [ apply List.Forall_nil
    | apply List.Forall_cons; [unfold tick_within; cbn [ev_tick]; lia |] ].

Lemma tick_within_mono lo hi lo' hi' l :
  lo' <= lo -> hi <= hi' -> Forall (tick_within lo hi) l -> Forall (tick_within lo' hi') l.
Proof.
  intros Hlo Hhi Hl. eapply Forall_impl; [exact Hl|].
  unfold tick_within. intros e. simpl. lia.
Qed.

Section TickBounds.
Context {G : Type} `{PyRandom G}.

Lemma acid_encode_ticks (st : mapper G) i ch :
  0 <= current_time st ->
  Forall (tick_within 0 (current_time st + 3)) (pushes st) ->
  0 <= current_time (Acid2Midi.encode st i ch) /\
  Forall (tick_within 0 (current_time (Acid2Midi.encode st i ch) + 3))
         (pushes (Acid2Midi.encode st i ch)).
Proof.
  intros Ht Hp. unfold Acid2Midi.encode.
  destruct (Ascii.eqb ch " " || char_in (lower ch) PUNCTUATION).
  { simpl. split; [lia|]. apply Forall_app. split.
    - eapply tick_within_mono; [| |exact Hp]; lia.
    - unfold Acid2Midi.separator. simpl. ticks. }
  destruct (negb (char_in (lower ch) ENCODABLE)); [done|].
  assert (Forall (tick_within 0 (current_time st + 1 + 3))
            (fst (Acid2Midi.bassline (lower ch) (current_time st) (rng st)))) as Hb.
  { unfold Acid2Midi.bassline.
    repeat match goal with |- context [if char_in ?c ?s then _ else _] =>
      destruct (char_in c s) end;
    try draw; cbn [fst app]; simpl Z.ltb; cbn iota; ticks. }
  destruct (Acid2Midi.bassline (lower ch) (current_time st) (rng st)) as [bass g'].
  simpl in *. split; [lia|].
  apply Forall_app. split; [eapply tick_within_mono; [| |exact Hp]; lia|].
  apply Forall_app. split; [done|].
  unfold Acid2Midi.drums.
  repeat match goal with |- context [if char_in ?c ?s then _ else _] =>
    destruct (char_in c s) end; ticks.
Qed.

Lemma speed_encode_ticks at_first (st : mapper G) i ch :
  0 <= current_time st ->
  Forall (tick_within 0 (current_time st + 1)) (pushes st) ->
  Forall (tick_within 0 (current_time st + 1 + 1))
         (pushes (Speedcore2Midi.encode at_first st i ch)).
Proof.
  intros Ht Hp.
  assert (Forall (tick_within 0 (current_time st + 1 + 1)) (pushes st)) as Hp'.
  { eapply tick_within_mono; [| |exact Hp]; lia. }
  unfold Speedcore2Midi.encode.
  destruct (char_in ch Speedcore2Midi.SAMPLES).
  { unfold Speedcore2Midi.sample, rbind, rret. draw. simpl.
    apply Forall_app. split; [done|]. ticks. }
  destruct (Ascii.eqb ch " " || char_in (lower ch) PUNCTUATION).
  { unfold Speedcore2Midi.separator, rbind, rret. simpl. unfold rbind, rret.
    repeat draw. simpl. apply Forall_app. split; [done|]. ticks. }
  destruct (negb (char_in (lower ch) ENCODABLE)); [done|].
  unfold rbind, rret.
  assert (forall g, Forall (tick_within 0 (current_time st + 1 + 1))
            (fst (Speedcore2Midi.bassline (lower ch) (current_time st) g))) as Hb.
  { intros g. unfold Speedcore2Midi.bassline, rbind, rret.
    repeat match goal with |- context [if char_in ?c ?s then _ else _] =>
      destruct (char_in c s) end;
    repeat draw; cbn [fst app]; simpl Z.ltb; cbn iota; cbn [app]; ticks. }
  assert (forall g, Forall (tick_within 0 (current_time st + 1 + 1))
            (fst (Speedcore2Midi.drums (lower ch) i (current_time st) g))) as Hd.
  { intros g. unfold Speedcore2Midi.drums, rbind, rret.
    draw. draw.
    all: repeat match goal with |- context [if char_in ?c ?s then _ else _] =>
      destruct (char_in c s) end.
    all: repeat match goal with |- context [if (?a =? ?b) then _ else _] =>
      destruct (a =? b) end.
    all: cbn [orb].
    all: repeat draw; cbn [fst app]; ticks. }
  assert (forall g, Forall (tick_within 0 (current_time st + 1 + 1))
            (fst (Speedcore2Midi.lead (lower ch) (current_time st) g))) as Hl.
  { intros g. unfold Speedcore2Midi.lead, rbind, rret.
    destruct (char_in (lower ch) VOWELS); repeat draw; cbn [fst app]; ticks. }
  specialize (Hb (rng st)).
  destruct (Speedcore2Midi.bassline (lower ch) (current_time st) (rng st)) as [bass g1].
  specialize (Hd g1).
  destruct (Speedcore2Midi.drums (lower ch) i (current_time st) g1) as [drum g2].
  specialize (Hl g2).
  destruct (Speedcore2Midi.lead (lower ch) (current_time st) g2) as [ld g3].
  simpl in *. repeat (apply Forall_app; split); done.
Qed.

Lemma acid_pushes_ticks text :
  Forall (tick_within 0 (Z.of_nat (count_if advances (chars text)) + 3))
         (pushes (Acid2Midi.encode_text (G := G) text)).
Proof.
  pose proof (acid_timing (chars text) 0 (Mapper (seed_str text) [] [] 0)) as [_ Ht].
  cbn [current_time] in Ht. rewrite Z.add_0_l in Ht.
  unfold Acid2Midi.encode_text. rewrite <- Ht.
  apply (enumerate_from_inv
           (fun st => 0 <= current_time st /\
                      Forall (tick_within 0 (current_time st + 3)) (pushes st))).
  - simpl. split; [lia | constructor].
  - intros st i ch [Ht' Hp]. by apply acid_encode_ticks.
Qed.

Lemma speed_pushes_ticks at_first text :
  Forall (tick_within 0 (len (chars text) + 1))
         (pushes (Speedcore2Midi.encode_text (G := G) at_first text)).
Proof.
  pose proof (speed_timing at_first (chars text) 0 (Mapper (seed_str text) [] [] 0))
    as [_ Ht].
  cbn [current_time] in Ht. rewrite Z.add_0_l in Ht.
  unfold Speedcore2Midi.encode_text. rewrite <- Ht.
  apply (enumerate_from_inv
           (fun st => 0 <= current_time st /\
                      Forall (tick_within 0 (current_time st + 1)) (pushes st))).
  - simpl. split; [lia | constructor].
  - intros st i ch [Ht' Hp].
    destruct (speed_encode_timing at_first st i ch) as [_ ->].
    split; [lia|]. by apply speed_encode_ticks.
Qed.

End TickBounds.

(** ** The arrangement of the generated track *)



Section Arrangement.
Context {G : Type} `{PyRandom G}.



End Arrangement.

Section ArrangementClaims.
Context {G : Type} `{PyRandom G}.

(** X6: every event of the queue of acid2midi lies between tick 0 and
    three ticks past the number of characters that move [current_time] on
    (the pad chord of a separator is released four ticks after it); every
    event of the queue of speedcore2midi lies between tick 0 and one tick
    past the length of the text. *)
Theorem event_ticks_follow_the_text (g0 : G) text :
  Forall (tick_within 0 (Z.of_nat (count_if advances (chars text)) + 3))
         (fst (fst (Acid2Midi.text_to_event_queue g0 text))) /\
  (forall at_first,
     Forall (tick_within 0 (len (chars text) + 1))
            (fst (fst (Speedcore2Midi.text_to_event_queue at_first g0 text)))).
Proof.
  split.
  - simpl. eapply Forall_perm; [symmetry; apply merged_perm|]. apply acid_pushes_ticks.
  - intros at_first. simpl. eapply Forall_perm; [symmetry; apply merged_perm|].
    apply speed_pushes_ticks.
Qed.


Lemma for_each_In {A} (body : A -> Rand G (list Event)) l g x e :
  In x l -> (forall g', In e (fst (body x g'))) -> In e (fst (for_each body l g)).
Proof.
  intros Hx He. revert g. induction l as [|y l IH]; intros g; [done|]. simpl.
  unfold rbind, rret. destruct Hx as [->|Hx].
  - specialize (He g). destruct (body x g) as [es g1].
    destruct (for_each body l g1). simpl in *. apply in_or_app. by left.
  - destruct (body y g) as [es g1]. specialize (IH Hx g1).
    destruct (for_each body l g1). simpl in *. apply in_or_app. by right.
Qed.

Lemma range_In a b x : a <= x < b -> In x (range a b).
Proof.
  intros Hx. unfold range. apply in_map_iff. exists (Z.to_nat (x - a)).
  split; [lia|]. apply in_seq. lia.
Qed.

Lemma bp909_beat_hits bar beat (g : G) :
  let tick := AcidTrack.start_of bar + beat * TICKS_PER_BEAT in
  let es := fst (AcidTrack.bp909_beat bar beat g) in
  In (Ev tick "BP909" "on" DRUM_kick 100) es /\
  In (Ev (tick + 1) "BP909" "off" DRUM_kick 0) es /\
  (beat mod 2 = 1 ->
   In (Ev tick "BP909" "on" DRUM_snare 90) es /\
   In (Ev (tick + 2) "BP909" "on" DRUM_oh 80) es) /\
  (beat = 0 -> bar mod 4 = 0 -> In (Ev tick "BP909" "on" DRUM_crash 90) es).
Proof.
  cbn zeta. unfold AcidTrack.bp909_beat, rbind, rret.
  destruct (random_lt f0_2 g) as [off_kick g1].
  match goal with |- context [for_each ?b ?l ?g] => destruct (for_each b l g) as [hats g2] end.
  match goal with |- context [let '(_, _) := ?m in _] => destruct m as [toms g3] end.
  match goal with |- context [let '(_, _) := ?m in _] => destruct m as [rims g4] end.
  cbn [fst].
  split; [simpl; auto|]. split; [simpl; auto|]. split.
  - intros Hb. apply Z.eqb_eq in Hb. rewrite Hb. rewrite andb_true_r. cbn [andb].
    split.
    + apply in_or_app. right. apply in_or_app. right. apply in_or_app. left.
      simpl. auto.
    + do 5 (apply in_or_app; right). apply in_or_app. left. simpl. auto.
  - intros -> Hbar. apply Z.eqb_eq in Hbar. rewrite Hbar. cbn [Z.eqb andb].
    do 8 (apply in_or_app; right). simpl. auto.
Qed.

(** X8: the drums of the generated track, whatever the generator draws:
    a kick of velocity 100 on every beat of every bar with its note-off
    one tick later, a snare and, two ticks later, an open hi-hat on the
    second and the fourth beat, and a crash on the first beat of every
    fourth bar. *)
Theorem drum_pattern_of_the_track (g0 : G) bar beat :
  0 <= bar < AcidTrack.BARS -> 0 <= beat < 4 ->
  let tick := bar * 16 + beat * 4 in
  let event_queue := fst (AcidTrack.generate_acid_patterns g0) in
  In (Ev tick "BP909" "on" DRUM_kick 100) event_queue /\
  In (Ev (tick + 1) "BP909" "off" DRUM_kick 0) event_queue /\
  (beat mod 2 = 1 ->
   In (Ev tick "BP909" "on" DRUM_snare 90) event_queue /\
   In (Ev (tick + 2) "BP909" "on" DRUM_oh 80) event_queue) /\
  (beat = 0 -> bar mod 4 = 0 -> In (Ev tick "BP909" "on" DRUM_crash 90) event_queue).
Proof.
  intros Hbar Hbeat. cbn zeta.
  assert (forall e, (forall g, In e (fst (AcidTrack.bp909_beat bar beat g))) ->
            In e (fst (AcidTrack.generate_acid_patterns g0))) as Hin.
  { intros e He. unfold AcidTrack.generate_acid_patterns.
    assert (forall g : G, In e (fst (AcidTrack.bp909 g))) as Hbp.
    { intros g. unfold AcidTrack.bp909.
      apply (for_each_In _ _ _ bar); [by apply range_In|]. intros g1.
      apply (for_each_In _ _ _ beat); [by apply range_In|]. done. }
    unfold AcidTrack.patterns, rbind, rret.
    destruct (AcidTrack.tb303 (seed_int 42)) as [a g1].
    destruct (AcidTrack.bass_sub g1) as [b g2].
    specialize (Hbp g2). destruct (AcidTrack.bp909 g2) as [c g3].
    destruct (AcidTrack.lead_synth g3) as [d g4].
    destruct (AcidTrack.arp_synth g4) as [e' g5].
    destruct (AcidTrack.pad_synth g5) as [f g6].
    destruct (AcidTrack.sample_bank1 g6) as [s1 g7].
    destruct (AcidTrack.sample_bank2 g7) as [s2 g8].
    cbn [fst] in *. apply list_elem_of_In. rewrite merged_perm. apply list_elem_of_In.
    apply in_or_app. right. apply in_or_app. right. apply in_or_app. by left. }
  assert (AcidTrack.start_of bar + beat * TICKS_PER_BEAT = bar * 16 + beat * 4) as Htick.
  { unfold AcidTrack.start_of, AcidTrack.BEATS_PER_BAR, TICKS_PER_BEAT. lia. }
  split; [|split; [|split]].
  - apply Hin. intros g. rewrite <- Htick. apply bp909_beat_hits.
  - apply Hin. intros g. rewrite <- Htick. apply bp909_beat_hits.
  - intros Hb. split; apply Hin; intros g; rewrite <- Htick;
      by apply (bp909_beat_hits bar beat g).
  - intros Hb Hbar4. apply Hin. intros g. rewrite <- Htick.
    by apply (bp909_beat_hits bar beat g).
Qed.

End ArrangementClaims.


Lemma drum_pattern_witness :
  0 <= 5 < AcidTrack.BARS /\ 0 <= 1 < 4 /\
  In (Ev (5 * 16 + 1 * 4) "BP909" "on" DRUM_kick 100)
     (fst (AcidTrack.generate_acid_patterns (0 : Z))) /\
  In (Ev (5 * 16 + 1 * 4) "BP909" "on" DRUM_snare 90)
     (fst (AcidTrack.generate_acid_patterns (0 : Z))).
Proof.
  assert (0 <= 5 < AcidTrack.BARS) as Hbar by (unfold AcidTrack.BARS; lia).
  assert (0 <= 1 < 4) as Hbeat by lia.
  split; [exact Hbar|]. split; [exact Hbeat|].
  pose proof (drum_pattern_of_the_track (G := Z) 0 5 1 Hbar Hbeat) as Hd.
  cbv zeta in Hd. destruct Hd as (Hk & _ & Hs & _).
  split; [exact Hk|]. exact (proj1 (Hs eq_refl)).
Defined.

(** ** What a run prints *)

Lemma echoed_app l1 l2 : echoed (l1 ++ l2) = echoed l1 ++ echoed l2.
Proof. unfold echoed. apply flat_map_app. Qed.

Lemma echoed_echo cs : echoed (map Echo cs) = cs.
Proof. induction cs as [|c cs IH]; simpl; [done | by f_equal]. Qed.

Lemma echoed_messages status es : echoed (flat_map (message_of status) es) = [].
Proof.
  induction es as [|e es IH]; simpl; [done|].
  rewrite echoed_app, IH, app_nil_r. unfold message_of. by repeat case_match.
Qed.

Lemma echoed_drain status active : echoed (drain status active) = [].
Proof.
  unfold drain. induction active as [|[d ns] active IH]; simpl; [done|].
  rewrite echoed_app, IH, app_nil_r.
  induction (elements ns) as [|n l IHl]; simpl; auto.
Qed.

Section EchoRun.
Variable devices : list string.
Variable status : Z -> string -> Z.
Variable E : Type.
Variable echo : E -> Z -> option (E * list ascii).
Variable echo_ok : E -> Prop.
Hypothesis echo_ok_step : forall st t,
  echo_ok st -> exists st' cs, echo st t = Some (st', cs) /\ echo_ok st'.

Lemma tick_loop_echoes rounds tick max_tick rest (s : sched E) :
  rounds = Z.to_nat (max_tick + 1 - tick) ->
  StronglySorted (le_of (fun a b => ev_tick a <? ev_tick b)) rest ->
  Forall (fun e => In (ev_device e) devices) rest ->
  Forall (fun e => tick <= ev_tick e) rest ->
  echo_ok (echo_state s) ->
  exists s',
    tick_loop devices status E echo quiet rounds tick max_tick rest s = Next s' /\
    echoed (out s') = echoed (out s) ++ echo_run echo rounds tick (echo_state s).
Proof.
  revert tick rest s. induction rounds as [|rounds IH];
    intros tick rest s Hr Hs Hk Hge Hecho; simpl.
  - exists s. by rewrite app_nil_r.
  - assert (tick <= max_tick) as Hle by lia.
    rewrite (proj2 (Z.leb_le _ _) Hle).
    unfold echo_tick, sleep.
    destruct (echo_ok_step _ tick Hecho) as (st' & cs & -> & Hecho').
    set (s1 := Sched _ _ _ _).
    destruct (dispatch_due_completes devices status E tick rest s1 Hs Hk Hge)
      as (rest' & s2 & -> & Ho2 & He2 & Hs' & Hk' & Hge' & Hdue).
    simpl. set (s3 := Sched _ _ _ _).
    destruct (IH (tick + 1) rest' s3) as (s' & -> & Ho'); try done.
    { lia. }
    { subst s3. simpl. by rewrite He2. }
    exists s'. split; [done|]. rewrite Ho'. subst s3. cbn [out echo_state].
    rewrite echoed_app, Ho2. subst s1. cbn [out].
    rewrite !echoed_app, echoed_echo, echoed_messages, He2. cbn [echo_state].
    simpl. by rewrite !app_nil_r, <- app_assoc.
Qed.

Lemma running_echoes event_queue echo_ticks e0 :
  Forall (fun e => 0 <= ev_tick e) event_queue ->
  Forall (fun e => In (ev_device e) devices) event_queue ->
  echo_ok e0 ->
  let max_tick := max_tick_of (sort_by_tick event_queue) echo_ticks in
  let f := running devices status E echo quiet event_queue echo_ticks e0 in
  echoed (fst (finish status E quiet f)) =
    echo_run echo (Z.to_nat (max_tick + 1)) 0 e0.
Proof.
  intros Hge Hk He. cbn zeta. unfold running.
  destruct (tick_loop_echoes
              (Z.to_nat (max_tick_of (sort_by_tick event_queue) echo_ticks + 1)) 0
              (max_tick_of (sort_by_tick event_queue) echo_ticks)
              (sort_by_tick event_queue)
              (Sched [] (map (fun device => (device, ∅)) devices) 0 e0))
    as (s & Hs & Ho).
  - f_equal. lia.
  - apply sort_by_tick_sorted.
  - eapply Forall_perm; [symmetry; apply sort_by_tick_perm | done].
  - eapply Forall_perm; [symmetry; apply sort_by_tick_perm | done].
  - done.
  - rewrite Hs. rewrite finish_accepted by done. cbn [fst state_of].
    rewrite !echoed_app, echoed_drain, Ho. simpl. by rewrite app_nil_r.
Qed.

End EchoRun.

Lemma speed_echo_all rem t :
  Forall (fun c => ct_tick c <= t) rem ->
  Speedcore2Midi.echo rem t = ([], map ct_ch rem).
Proof.
  induction 1 as [|c rem Hc Hr IH]; simpl; [done|].
  rewrite (proj2 (Z.leb_le _ _) Hc), IH. done.
Qed.

Lemma speed_echo_split rem t :
  map ct_ch rem = snd (Speedcore2Midi.echo rem t) ++ map ct_ch (fst (Speedcore2Midi.echo rem t)) /\
  forall P : CharTiming -> Prop, Forall P rem -> Forall P (fst (Speedcore2Midi.echo rem t)).
Proof.
  induction rem as [|c rem [IH1 IH2]]; simpl; [done|].
  destruct (ct_tick c <=? t); [|done].
  destruct (Speedcore2Midi.echo rem t) as [rem' cs]. simpl in *.
  split; [by rewrite IH1|]. intros P HP. inversion HP; subst. auto.
Qed.

Lemma speed_echo_run rounds t rem :
  Forall (fun c => ct_tick c <= t + Z.of_nat rounds - 1) rem ->
  (1 <= rounds)%nat \/ rem = [] ->
  echo_run (fun q tick => Some (Speedcore2Midi.echo q tick)) rounds t rem = map ct_ch rem.
Proof.
  revert t rem. induction rounds as [|rounds IH]; intros t rem Hle Hr; simpl.
  - destruct Hr as [Hr| ->]; [lia | done].
  - destruct (speed_echo_split rem t) as [Hsplit Hkeep].
    destruct rounds as [|rounds].
    + rewrite speed_echo_all; [simpl; by rewrite app_nil_r|].
      eapply Forall_impl; [exact Hle|]. simpl. lia.
    + destruct (Speedcore2Midi.echo rem t) as [rem' cs] eqn:He. simpl in Hsplit, Hkeep.
      rewrite IH; [by rewrite Hsplit| |left; lia].
      eapply Forall_impl; [apply Hkeep, Hle|]. simpl. lia.
Qed.

Lemma max_tick_above events echo_ticks t :
  In t (map ev_tick events ++ echo_ticks) -> t < max_tick_of events echo_ticks.
Proof.
  intros Hin. unfold max_tick_of.
  destruct (py_max_default_spec (map ev_tick events ++ echo_ticks)) as [_ Hall].
  { intros Hnil. by rewrite Hnil in Hin. }
  rewrite Forall_forall in Hall. apply list_elem_of_In, Hall in Hin. lia.
Qed.

(** speedcore2midi prints the whole echo list, whatever its ticks. *)
Lemma speedcore_echoes_the_list event_queue char_queue :
  Forall (fun e => 0 <= ev_tick e) event_queue ->
  Forall (fun e => In (ev_device e) (map fst Speedcore2Midi.DEVICES)) event_queue ->
  Forall (fun c => 0 <= ct_tick c) char_queue ->
  echoed (fst (Speedcore2Midi.play_event_queue quiet event_queue char_queue)) =
    map ct_ch char_queue.
Proof.
  intros Hge Hk Hc. unfold Speedcore2Midi.play_event_queue, Speedcore2Midi.try_block.
  rewrite (running_echoes (map fst Speedcore2Midi.DEVICES) Speedcore2Midi.status
             (list CharTiming) (fun q tick => Some (Speedcore2Midi.echo q tick))
             (fun _ => True)
             (fun st t _ => ex_intro _ (fst (Speedcore2Midi.echo st t))
                (ex_intro _ (snd (Speedcore2Midi.echo st t))
                   (conj (f_equal Some (surjective_pairing _)) I))));
    [|done|done|done].
  apply speed_echo_run.
  - rewrite Forall_forall. intros c Hin.
    pose proof (max_tick_above (sort_by_tick event_queue) (map ct_tick char_queue)
                  (ct_tick c)) as Hlt.
    rewrite Forall_forall in Hc. specialize (Hc c Hin).
    assert (ct_tick c < max_tick_of (sort_by_tick event_queue) (map ct_tick char_queue)).
    { apply Hlt. apply in_or_app. right. apply in_map. by apply list_elem_of_In. }
    lia.
  - destruct char_queue as [|c rest]; [by right|]. left.
    inversion Hc as [|? ? Hc0 _]; subst.
    pose proof (max_tick_above (sort_by_tick event_queue) (map ct_tick (c :: rest))
                  (ct_tick c)) as Hlt.
    assert (ct_tick c < max_tick_of (sort_by_tick event_queue) (map ct_tick (c :: rest))).
    { apply Hlt. apply in_or_app. right. simpl. auto. }
    lia.
Qed.

Lemma filter_imap_chars (p : ascii -> bool) (f g : nat -> Z) l :
  map ct_ch (List.filter (fun c => p (ct_ch c)) (imap (fun k ch => CT (f k) (g k) ch) l)) =
  List.filter p l.
Proof.
  revert f g. induction l as [|x l IH]; intros f g; simpl; [done|].
  specialize (IH (f ∘ S) (g ∘ S)). unfold compose in *. simpl in *.
  destruct (p x); simpl; by rewrite IH.
Qed.

Section EchoOfText.
Context {G : Type} `{PyRandom G}.

(** X9: played with nothing in its way, a text mapped by speedcore2midi
    is printed but for the characters that the mapper skips: the printed
    characters are, in order, the sample triggers, the separators and the
    encodable characters of the text. *)
Theorem speedcore_prints_what_it_maps at_first (g0 : G) text :
  let mapped := fst (Speedcore2Midi.text_to_event_queue at_first g0 text) in
  echoed (fst (Speedcore2Midi.play_event_queue quiet (fst mapped) (snd mapped))) =
    List.filter timed_by_speedcore (chars text).
Proof.
  cbn zeta.
  pose proof (speed_echo_list at_first g0 text) as Hq.
  rewrite speedcore_echoes_the_list.
  - rewrite Hq. apply filter_imap_chars.
  - eapply Forall_impl; [apply speed_queue_playable|]. by intros e [].
  - eapply Forall_impl; [apply speed_queue_playable|]. by intros e [].
  - rewrite Hq. apply Forall_forall. intros c Hc.
    apply list_elem_of_In, filter_In in Hc as [Hc _].
    apply list_elem_of_In, elem_of_lookup_imap in Hc as (k & ch & -> & _). simpl. lia.
Qed.

End EchoOfText.

(** ** What acid2midi prints *)

Lemma acid_echo_run (ready : gmap Z Z) n rounds t rem :
  (forall k, 0 <= k < n -> exists r, ready !! k = Some r /\ r <= k) ->
  len rem <= n -> n - len rem <= t ->
  echo_run (Acid2Midi.echo ready n) rounds t rem = map ct_ch (take rounds rem).
Proof.
  intros Hready. revert t rem. induction rounds as [|rounds IH]; intros t rem Hn Ht.
  - done.
  - cbn [echo_run]. unfold Acid2Midi.echo. destruct rem as [|c rest].
    + rewrite IH; [by rewrite !take_nil | done | lia].
    + destruct (Hready (n - len (c :: rest))) as (r & -> & Hr).
      { unfold len in *. simpl length in *. lia. }
      rewrite (proj2 (Z.leb_le r t)) by lia. simpl.
      rewrite IH; [done | |]; unfold len in *; simpl length in *; lia.
Qed.

Lemma count_if_le {A} (p : A -> bool) l : (count_if p l <= length l)%nat.
Proof. unfold count_if. apply List.filter_length_le. Qed.

Lemma count_if_take {A} (p : A -> bool) k l : (count_if p (take k l) <= count_if p l)%nat.
Proof.
  revert k. induction l as [|x l IH]; intros [|k]; simpl; try (unfold count_if; simpl; lia).
  rewrite !count_if_cons. specialize (IH k). lia.
Qed.

Lemma map_ch_imap (f g : nat -> Z) l :
  map ct_ch (imap (fun k ch => CT (f k) (g k) ch) l) = l.
Proof.
  revert f g. induction l as [|x l IH]; intros f g; simpl; [done|].
  f_equal. apply (IH (f ∘ S) (g ∘ S)).
Qed.

Section AcidEcho.
Context {G : Type} `{PyRandom G}.

Lemma acid_ready_ticks (g0 : G) text k :
  let char_queue := snd (fst (Acid2Midi.text_to_event_queue g0 text)) in
  0 <= k < len char_queue ->
  Acid2Midi.char_ready_ticks char_queue !! k =
    Some (Z.of_nat (count_if advances (take (Z.to_nat k) (chars text)))).
Proof.
  cbn zeta. intros Hk.
  destruct (acid_echo_list_indexed g0 text k Hk) as [t Ht]. rewrite Ht. f_equal.
  apply char_ready_ticks_values in Ht as (c & Hc & Hi & <-).
  rewrite acid_echo_list in Hc.
  apply list_elem_of_In, elem_of_lookup_imap in Hc as (j & ch & -> & _).
  simpl in *. by replace (Z.to_nat k) with j by lia.
Qed.

Lemma acid_echo_list_length (g0 : G) text :
  len (snd (fst (Acid2Midi.text_to_event_queue g0 text))) = len (chars text).
Proof. rewrite acid_echo_list. unfold len. by rewrite length_imap. Qed.

Lemma acid_echo_list_chars (g0 : G) text :
  map ct_ch (snd (fst (Acid2Midi.text_to_event_queue g0 text))) = chars text.
Proof.
  rewrite acid_echo_list.
  apply (map_ch_imap (fun k => Z.of_nat (count_if advances (take k (chars text))))
                     (fun k => Z.of_nat k)).
Qed.

(** The run of a mapped text prints one character in each round of the
    loop, from the first on. *)
Lemma acid2midi_echoes_one_per_tick (g0 : G) text :
  let mapped := fst (Acid2Midi.text_to_event_queue g0 text) in
  let max_tick :=
    max_tick_of (sort_by_tick (fst mapped))
      (map snd (map_to_list (Acid2Midi.char_ready_ticks (snd mapped)))) in
  echoed (fst (Acid2Midi.play_event_queue quiet (fst mapped) (snd mapped))) =
    take (Z.to_nat (max_tick + 1)) (chars text).
Proof.
  cbn zeta. unfold Acid2Midi.play_event_queue, Acid2Midi.try_block.
  set (q := fst (fst (Acid2Midi.text_to_event_queue g0 text))).
  set (c := snd (fst (Acid2Midi.text_to_event_queue g0 text))).
  rewrite (running_echoes Acid2Midi.DEVICES Acid2Midi.status (list CharTiming)
             (Acid2Midi.echo (Acid2Midi.char_ready_ticks c) (len c))
             (fun rem => forall k, len c - len rem <= k < len c ->
                is_Some (Acid2Midi.char_ready_ticks c !! k))
             (fun st t => acid2midi_echo_ok _ _ st t)).
  - rewrite acid_echo_run.
    + rewrite <- (acid_echo_list_chars g0 text). fold c. symmetry. apply firstn_map.
    + intros k Hk. unfold c. rewrite acid_ready_ticks by done.
      eexists. split; [done|].
      pose proof (count_if_le advances (take (Z.to_nat k) (chars text))) as Hle.
      rewrite length_take in Hle. lia.
    + lia.
    + lia.
  - eapply Forall_impl; [apply acid_queue_playable|]. by intros e [].
  - eapply Forall_impl; [apply acid_queue_playable|]. by intros e [].
  - intros k Hk. apply acid_echo_list_indexed. fold c. lia.
Qed.

End AcidEcho.

Lemma count_if_app {A} (p : A -> bool) l1 l2 :
  count_if p (l1 ++ l2) = (count_if p l1 + count_if p l2)%nat.
Proof. unfold count_if. by rewrite List.filter_app, length_app. Qed.

Section AcidEchoOfMain.
Context {G : Type} `{PyRandom G}.

Lemma acid_last_pad_off (g0 : G) phrase :
  In (Z.of_nat (count_if advances (chars (phrase +:+ " "))) + 3)
     (map ev_tick (fst (fst (Acid2Midi.text_to_event_queue g0 (phrase +:+ " "))))).
Proof.
  apply in_map_iff.
  exists (Ev (Z.of_nat (count_if advances (chars phrase)) + 4) "PadSynth" "off" 60 0).
  split.
  - cbn [ev_tick]. rewrite chars_append, count_if_app.
    change (count_if advances (chars " ")) with 1%nat. lia.
  - unfold Acid2Midi.text_to_event_queue, Acid2Midi.encode_text. cbn [fst].
    apply list_elem_of_In. rewrite merged_perm. apply list_elem_of_In.
    rewrite chars_append, enumerate_from_app.
    destruct (acid_timing (chars phrase) 0 (Mapper (seed_str (phrase +:+ " ")) [] [] 0))
      as [_ Ht].
    cbn [current_time] in Ht. rewrite Z.add_0_l in Ht.
    set (st := enumerate_from Acid2Midi.encode 0 (chars phrase) _) in *.
    simpl. unfold Acid2Midi.encode. simpl. rewrite Ht.
    apply in_or_app. right. simpl. auto 10.
Qed.

Lemma acid_max_tick (g0 : G) phrase :
  let mapped := fst (Acid2Midi.text_to_event_queue g0 (phrase +:+ " ")) in
  max_tick_of (sort_by_tick (fst mapped))
    (map snd (map_to_list (Acid2Midi.char_ready_ticks (snd mapped)))) =
  Z.of_nat (count_if advances (chars (phrase +:+ " "))) + 4.
Proof.
  cbn zeta. set (text := phrase +:+ " ").
  set (q := fst (fst (Acid2Midi.text_to_event_queue g0 text))).
  set (c := snd (fst (Acid2Midi.text_to_event_queue g0 text))).
  set (T := Z.of_nat (count_if advances (chars text))).
  unfold max_tick_of.
  set (L := map ev_tick (sort_by_tick q) ++ map snd (map_to_list (Acid2Midi.char_ready_ticks c))).
  assert (In (T + 3) L) as Hin.
  { apply in_or_app. left. apply list_elem_of_In.
    rewrite sort_by_tick_perm. apply list_elem_of_In. apply acid_last_pad_off. }
  assert (Forall (fun x => x <= T + 3) L) as Hall.
  { apply Forall_app. split.
    - rewrite sort_by_tick_perm. apply Forall_forall. intros x Hx.
      apply list_elem_of_In, in_map_iff in Hx as (e & <- & He).
      assert (tick_within 0 (T + 3) e) as [_ Hle]; [|done].
      assert (Forall (tick_within 0 (T + 3)) q) as Hq.
      { unfold q. simpl. eapply Forall_perm; [symmetry; apply merged_perm|].
        apply acid_pushes_ticks. }
      rewrite Forall_forall in Hq. by apply Hq, list_elem_of_In.
    - apply Forall_forall. intros x Hx.
      apply list_elem_of_In, in_map_iff in Hx as ([k v] & <- & Hkv).
      apply list_elem_of_In, elem_of_map_to_list in Hkv. simpl.
      apply char_ready_ticks_values in Hkv as (c0 & Hc0 & _ & <-).
      unfold c in Hc0. rewrite acid_echo_list in Hc0.
      apply list_elem_of_In, elem_of_lookup_imap in Hc0 as (j & ch & -> & _). simpl.
      pose proof (count_if_take advances j (chars text)). unfold T. lia. }
  destruct (py_max_default_spec L) as [Hm Hle].
  { intros Hnil. by rewrite Hnil in Hin. }
  rewrite Forall_forall in Hall, Hle.
  apply list_elem_of_In, Hall in Hm. apply list_elem_of_In, Hle in Hin. lia.
Qed.

(** X10: acid2midi prints one character in each round of the loop, and
    the loop of [main] (its ports open, the attempts to connect them
    behind it, nothing in its way) has five rounds more than its text has
    characters
    that move [current_time] on (the last of them is the appended space,
    whose pad chord ends four ticks later).  So [main] prints the first
    [ticks + 5] characters of its text: all of it when at most five of
    its characters are outside the encodable set, the space and the
    separator punctuation, and otherwise not. *)
Theorem acid2midi_prints_five_past_the_ticks (g0 : G) argv :
  let text := Acid2Midi.main_text argv in
  let ticks := count_if advances (chars text) in
  echoed (fst (Acid2Midi.main g0 true quiet argv)) = take (ticks + 5) (chars text) /\
  ((length (chars text) <= ticks + 5)%nat ->
   echoed (fst (Acid2Midi.main g0 true quiet argv)) = chars text) /\
  ((ticks + 5 < length (chars text))%nat ->
   echoed (fst (Acid2Midi.main g0 true quiet argv)) <> chars text).
Proof.
  cbn zeta.
  assert (echoed (fst (Acid2Midi.main g0 true quiet argv)) =
          take (count_if advances (chars (Acid2Midi.main_text argv)) + 5)
               (chars (Acid2Midi.main_text argv))) as Heq.
  { unfold Acid2Midi.main.
    pose proof (acid2midi_echoes_one_per_tick g0 (Acid2Midi.main_text argv)) as He.
    cbn zeta in He.
    unfold Acid2Midi.main_text in *.
    set (phrase := if 1 <? len argv then join_spaces (tail argv)
                   else Acid2Midi.DEFAULT_TEXT) in *.
    rewrite (acid_max_tick g0 phrase) in He.
    destruct (Acid2Midi.text_to_event_queue g0 (phrase +:+ " ")) as [[q c] g].
    cbn [fst snd] in He. rewrite He. f_equal. lia. }
  split; [exact Heq|]. rewrite Heq. split.
  - intros Hle. by apply take_ge.
  - intros Hlt Hc. apply (f_equal length) in Hc. rewrite length_take in Hc. lia.
Qed.

End AcidEchoOfMain.

(** ** An event before tick 0 *)

Lemma messages_app l1 l2 : messages (l1 ++ l2) = messages l1 ++ messages l2.
Proof. apply List.filter_app. Qed.

Lemma messages_echo cs : messages (map Echo cs) = [].
Proof. induction cs; simpl; auto. Qed.

Section Blocked.
Variable devices : list string.
Variable status : Z -> string -> Z.
Variable E : Type.
Variable echo : E -> Z -> option (E * list ascii).
Variable env : outside.

Lemma tick_loop_blocked rounds tick max_tick e rest (s : sched E) :
  ev_tick e < 0 -> 0 <= tick ->
  let s' := state_of (tick_loop devices status E echo env rounds tick max_tick
                        (e :: rest) s) in
  messages (out s') = messages (out s) /\ active_notes s' = active_notes s.
Proof.
  intros He. cbn zeta. revert tick s.
  induction rounds as [|rounds IH]; intros tick s Ht; simpl; [done|].
  destruct (tick <=? max_tick); [|done].
  unfold echo_tick. destruct (echo (echo_state s) tick) as [[st cs]|]; [|done].
  replace (ev_tick e =? tick) with false by (symmetry; apply Z.eqb_neq; lia).
  unfold sleep. cbn [out active_notes sent echo_state].
  destruct (bool_decide (stop_signal env = Some tick)).
  - simpl. by rewrite messages_app, messages_echo, app_nil_r.
  - destruct (IH (tick + 1)
               (Sched ((out s ++ map Echo cs) ++ [Sleep]) (active_notes s) (sent s) st))
      as [Hm Ha]; [lia|].
    rewrite Hm, Ha. simpl.
    by rewrite !messages_app, messages_echo, !app_nil_r.
Qed.

Lemma sorted_head_negative events :
  Exists (fun e => ev_tick e < 0) events ->
  exists e rest, sort_by_tick events = e :: rest /\ ev_tick e < 0.
Proof.
  intros Hex. apply Exists_exists in Hex as (x & Hx & Hneg).
  assert (x ∈ sort_by_tick events) as Hin by (by rewrite sort_by_tick_perm).
  pose proof (sort_by_tick_sorted events) as Hs.
  destruct (sort_by_tick events) as [|e rest]; [by apply elem_of_nil in Hin|].
  exists e, rest. split; [done|].
  apply elem_of_cons in Hin as [->|Hin]; [done|].
  inversion Hs as [|? ? _ Hall]; subst. rewrite Forall_forall in Hall.
  specialize (Hall x Hin). unfold le_of in Hall. apply Z.ltb_ge in Hall. lia.
Qed.

Lemma drain_devices_nothing (s : sched E) (ds : list string) :
  drain_devices status E env (map (fun device => (device, (∅ : gset Z))) ds) s = Next s.
Proof. induction ds as [|d ds IH]; simpl; [done|]. rewrite elements_empty. simpl. exact IH. Qed.

Lemma running_blocked event_queue echo_ticks e0 :
  Exists (fun e => ev_tick e < 0) event_queue ->
  messages (fst (finish status E env
                   (running devices status E echo env event_queue echo_ticks e0))) = [].
Proof.
  intros Hex. destruct (sorted_head_negative _ Hex) as (e & rest & Hs & He).
  unfold running. rewrite Hs.
  match goal with |- context [tick_loop _ _ _ _ _ ?r ?t ?m _ ?s] =>
    destruct (tick_loop_blocked r t m e rest s He ltac:(lia)) as [Hm Ha];
    set (f := tick_loop devices status E echo env r t m (e :: rest) s) in *
  end.
  unfold finish. simpl in Ha. rewrite Ha.
  rewrite drain_devices_nothing. cbn [fst]. rewrite messages_app, Hm. done.
Qed.

End Blocked.

(** X11: the inner loop plays the event at [event_ptr] only when its
    tick equals the tick of the round, and the rounds start at tick 0.  A
    queue that holds an event of negative tick has one at its head after
    the sort, which is never played and never passed: under any outside,
    no message at all is sent, neither by the loop nor by the drain. *)
Theorem event_before_tick_zero_blocks_the_queue (env : outside) (event_queue : list Event) :
  Exists (fun e => ev_tick e < 0) event_queue ->
  (forall char_queue,
     messages (fst (Acid2Midi.play_event_queue env event_queue char_queue)) = []) /\
  (forall char_queue,
     messages (fst (Speedcore2Midi.play_event_queue env event_queue char_queue)) = []) /\
  messages (fst (AcidTrack.play_event_queue env event_queue)) = [].
Proof.
  intros Hex. split; [|split].
  - intros char_queue. by apply running_blocked.
  - intros char_queue. by apply running_blocked.
  - by apply running_blocked.
Qed.

Lemma event_before_tick_zero_witness :
  Exists (fun e => ev_tick e < 0)
    [Ev 0 "TB303" "on" 48 80; Ev (-1) "BP909" "on" 48 100; Ev 1 "TB303" "off" 48 0] /\
  messages (fst (AcidTrack.play_event_queue quiet
    [Ev 0 "TB303" "on" 48 80; Ev (-1) "BP909" "on" 48 100; Ev 1 "TB303" "off" 48 0])) = [].
Proof.
  assert (Exists (fun e => ev_tick e < 0)
            [Ev 0 "TB303" "on" 48 80; Ev (-1) "BP909" "on" 48 100;
             Ev 1 "TB303" "off" 48 0]) as Hex.
  { apply Exists_cons_tl, Exists_cons_hd. simpl. lia. }
  split; [exact Hex|].
  exact (proj2 (proj2 (event_before_tick_zero_blocks_the_queue quiet _ Hex))).
Defined.

(** ** An event of an unknown device *)

Section UnknownDevice.
Variable devices : list string.
Variable status : Z -> string -> Z.
Variable E : Type.
Variable echo : E -> Z -> option (E * list ascii).
Variable env : outside.

Lemma dispatch_next e (s s' : sched E) :
  dispatch devices status E env e s = Next s' -> In (ev_device e) devices.
Proof.
  unfold dispatch. destruct (bool_decide (ev_device e ∈ devices)) eqn:Hd; simpl; [|done].
  intros _. apply bool_decide_eq_true in Hd. by apply list_elem_of_In.
Qed.

Lemma dispatch_due_next tick rest rest' (s s' : sched E) :
  dispatch_due devices status E env tick rest s = (rest', Next s') ->
  StronglySorted (le_of (fun a b => ev_tick a <? ev_tick b)) rest ->
  Forall (fun e => tick <= ev_tick e) rest ->
  exists played,
    rest = played ++ rest' /\
    Forall (fun e => In (ev_device e) devices) played /\
    Forall (fun e => tick + 1 <= ev_tick e) rest'.
Proof.
  revert s. induction rest as [|e rest IH]; intros s Hd Hs Hge; simpl in Hd.
  - simplify_eq. exists []. repeat split; constructor.
  - inversion Hs as [|? ? Hs' Hall]; subst. inversion Hge as [|? ? He Hge']; subst.
    destruct (ev_tick e =? tick) eqn:Et.
    + destruct (dispatch devices status E env e s) as [s1|s1] eqn:Hdis; [|done].
      destruct (IH s1 Hd Hs' Hge') as (played & -> & Hk & Hlater).
      exists (e :: played). split; [done|]. split; [|done].
      constructor; [by eapply dispatch_next | done].
    + simplify_eq. exists []. split; [done|]. split; [constructor|].
      apply Z.eqb_neq in Et. constructor; [lia|].
      eapply Forall_impl; [exact Hall|]. unfold le_of. simpl. intros e' He'.
      apply Z.ltb_ge in He'. lia.
Qed.

Lemma tick_loop_next rounds tick max_tick rest (s s' : sched E) :
  tick_loop devices status E echo env rounds tick max_tick rest s = Next s' ->
  rounds = Z.to_nat (max_tick + 1 - tick) ->
  StronglySorted (le_of (fun a b => ev_tick a <? ev_tick b)) rest ->
  Forall (fun e => tick <= ev_tick e <= max_tick) rest ->
  Forall (fun e => In (ev_device e) devices) rest.
Proof.
  revert tick rest s. induction rounds as [|rounds IH];
    intros tick rest s Hl Hr Hs Hb.
  - destruct rest as [|e rest]; [constructor|].
    inversion Hb as [|? ? He _]; subst. lia.
  - simpl in Hl. assert (tick <= max_tick) as Hle by lia.
    rewrite (proj2 (Z.leb_le _ _) Hle) in Hl.
    destruct (echo_tick E echo tick s) as [s1|s1]; [|done].
    destruct (dispatch_due devices status E env tick rest s1) as [rest' [s2|s2]] eqn:Hd;
      [|done].
    destruct (sleep E env tick s2) as [s3|s3]; [|done].
    destruct (dispatch_due_next _ _ _ _ _ Hd Hs) as (played & -> & Hk & Hlater).
    { eapply Forall_impl; [exact Hb|]. simpl. lia. }
    apply Forall_app. split; [done|].
    apply (IH (tick + 1) rest' s3 Hl); [lia| |].
    + clear -Hs. induction played as [|x l IHl]; simpl in Hs; [done|].
      inversion Hs; subst. auto.
    + apply Forall_app in Hb as [_ Hb].
      rewrite Forall_forall in Hb, Hlater. apply Forall_forall. intros e He.
      specialize (Hb e He). specialize (Hlater e He). simpl in *. lia.
Qed.

Lemma running_unknown_device event_queue echo_ticks e0 :
  Forall (fun e => 0 <= ev_tick e) event_queue ->
  Exists (fun e => ~ In (ev_device e) devices) event_queue ->
  snd (finish status E env
         (running devices status E echo env event_queue echo_ticks e0)) = true.
Proof.
  intros Hge Hex.
  assert (raised (running devices status E echo env event_queue echo_ticks e0) = true)
    as Hr.
  { destruct (running devices status E echo env event_queue echo_ticks e0) as [s'|s']
      eqn:Hrun; [|done].
    exfalso. unfold running in Hrun.
    apply tick_loop_next in Hrun.
    - apply Exists_exists in Hex as (x & Hx & Hun). apply Hun.
      rewrite Forall_forall in Hrun. apply Hrun. by rewrite sort_by_tick_perm.
    - f_equal. lia.
    - apply sort_by_tick_sorted.
    - apply Forall_forall. intros e He.
      pose proof (max_tick_above (sort_by_tick event_queue) echo_ticks (ev_tick e)) as Hlt.
      assert (ev_tick e < max_tick_of (sort_by_tick event_queue) echo_ticks).
      { apply Hlt, in_or_app. left. apply in_map. by apply list_elem_of_In. }
      rewrite sort_by_tick_perm in He. rewrite Forall_forall in Hge.
      specialize (Hge e He). simpl in *. lia. }
  unfold finish. rewrite Hr. by destruct (drain_devices _ _ _ _ _).
Qed.

End UnknownDevice.

(** X12: an event whose device is not a key of [DEVICES] is not skipped:
    in a queue whose ticks are not negative it ends the call of
    [play_event_queue] with an exception (the [KeyError] of the lookup, or
    whatever raised before the loop reached it), under any outside. *)
Theorem unknown_device_ends_the_run (env : outside) (event_queue : list Event) :
  Forall (fun e => 0 <= ev_tick e) event_queue ->
  (forall char_queue,
     Exists (fun e => ~ In (ev_device e) Acid2Midi.DEVICES) event_queue ->
     snd (Acid2Midi.play_event_queue env event_queue char_queue) = true) /\
  (forall char_queue,
     Exists (fun e => ~ In (ev_device e) (map fst Speedcore2Midi.DEVICES)) event_queue ->
     snd (Speedcore2Midi.play_event_queue env event_queue char_queue) = true) /\
  (Exists (fun e => ~ In (ev_device e) (map fst AcidTrack.DEVICES)) event_queue ->
   snd (AcidTrack.play_event_queue env event_queue) = true).
Proof.
  intros Hge. split; [|split].
  - intros char_queue Hex. by apply running_unknown_device.
  - intros char_queue Hex. by apply running_unknown_device.
  - intros Hex. by apply running_unknown_device.
Qed.

Lemma unknown_device_witness :
  Forall (fun e => 0 <= ev_tick e)
    [Ev 0 "TB303" "on" 48 80; Ev 1 "Samples" "on" 0 127; Ev 2 "TB303" "off" 48 0] /\
  Acid2Midi.play_event_queue quiet
    [Ev 0 "TB303" "on" 48 80; Ev 1 "Samples" "on" 0 127; Ev 2 "TB303" "off" 48 0] [] =
    ([Send "TB303" [144; 48; 80]; Sleep; Send "TB303" [128; 48; 0]; AllNotesOff], true).
Proof.
  assert (Forall (fun e => 0 <= ev_tick e)
            [Ev 0 "TB303" "on" 48 80; Ev 1 "Samples" "on" 0 127;
             Ev 2 "TB303" "off" 48 0]) as Hge.
  { repeat constructor; simpl; lia. }
  split; [exact Hge|].
  pose proof (proj1 (unknown_device_ends_the_run quiet _ Hge) []) as Hr.
  assert (fst (Acid2Midi.play_event_queue quiet
            [Ev 0 "TB303" "on" 48 80; Ev 1 "Samples" "on" 0 127;
             Ev 2 "TB303" "off" 48 0] []) =
          [Send "TB303" [144; 48; 80]; Sleep; Send "TB303" [128; 48; 0]; AllNotesOff])
    as Hf by (vm_compute; reflexivity).
  rewrite (surjective_pairing (Acid2Midi.play_event_queue _ _ _)), Hf, Hr; [done|].
  apply Exists_cons_tl, Exists_cons_hd. simpl.
  intros [Hc|[Hc|[Hc|[Hc|[]]]]]; discriminate Hc.
Defined.

(** ** A fault cuts the run short and changes nothing else *)

Section Faults.
Variable devices : list string.
Variable status : Z -> string -> Z.
Variable E : Type.
Variable echo : E -> Z -> option (E * list ascii).

Lemma send_message_extends env d msg (s : sched E) :
  out s `prefix_of` out (state_of (send_message E env d msg s)).
Proof.
  unfold send_message. destruct (send_raises env (sent s)); simpl; [done|].
  by apply prefix_app_r.
Qed.

Lemma call_send_extends env d msg (s : sched E) :
  out s `prefix_of` out (state_of (call_send E env d msg s)).
Proof.
  unfold call_send, send_message. destruct (send_raises env (sent s)); simpl; [done|].
  destruct (stop_after_send env (sent s)); simpl; by apply prefix_app_r.
Qed.

Lemma dispatch_extends env e (s : sched E) :
  out s `prefix_of` out (state_of (dispatch devices status E env e s)).
Proof.
  unfold dispatch. destruct (negb (bool_decide (ev_device e ∈ devices))); [done|].
  repeat match goal with
  | |- context [if String.eqb ?a ?b then _ else _] => destruct (String.eqb a b)
  end; try done;
  match goal with |- context [call_send E env ?d ?m s] =>
    pose proof (call_send_extends env d m s) as Hp;
    destruct (call_send E env d m s)
  end; done.
Qed.

Lemma dispatch_due_extends env tick rest (s : sched E) :
  out s `prefix_of` out (state_of (snd (dispatch_due devices status E env tick rest s))).
Proof.
  revert s. induction rest as [|e rest IH]; intros s; simpl; [done|].
  destruct (ev_tick e =? tick); [|done].
  pose proof (dispatch_extends env e s) as Hp.
  destruct (dispatch devices status E env e s) as [s1|s1]; simpl in *; [|done].
  etrans; [exact Hp | apply IH].
Qed.

Lemma tick_loop_extends env rounds tick max_tick rest (s : sched E) :
  out s `prefix_of`
    out (state_of (tick_loop devices status E echo env rounds tick max_tick rest s)).
Proof.
  revert tick rest s. induction rounds as [|rounds IH]; intros tick rest s; simpl; [done|].
  destruct (tick <=? max_tick); [|done].
  unfold echo_tick. destruct (echo (echo_state s) tick) as [[st cs]|]; [|done].
  match goal with |- context [dispatch_due _ _ _ _ _ _ ?s1] =>
    pose proof (dispatch_due_extends env tick rest s1) as Hp;
    destruct (dispatch_due devices status E env tick rest s1) as [rest' [s2|s2]]
  end; simpl in Hp.
  - unfold sleep. destruct (bool_decide (stop_signal env = Some tick)); simpl.
    + etrans; [|exact Hp]. by apply prefix_app_r.
    + etrans; [|apply IH]. simpl. etrans; [|apply prefix_app_r; exact Hp].
      by apply prefix_app_r.
  - etrans; [|exact Hp]. by apply prefix_app_r.
Qed.

Lemma dispatch_cut env e (s : sched E) :
  cut_short (dispatch devices status E env e s) (dispatch devices status E quiet e s).
Proof.
  unfold cut_short, dispatch.
  destruct (negb (bool_decide (ev_device e ∈ devices))); [by left|].
  unfold call_send, send_message. simpl.
  repeat match goal with
  | |- context [if String.eqb ?a ?b then _ else _] => destruct (String.eqb a b)
  end; try (by left);
  (destruct (send_raises env (sent s));
   [|destruct (stop_after_send env (sent s)); [|by left]]);
  right; simpl; (split; [done | first [by apply prefix_app_r | reflexivity]]).
Qed.

Lemma dispatch_due_cut env tick rest (s : sched E) :
  let r := dispatch_due devices status E env tick rest s in
  let rq := dispatch_due devices status E quiet tick rest s in
  r = rq \/ (raised (snd r) = true /\
             out (state_of (snd r)) `prefix_of` out (state_of (snd rq))).
Proof.
  cbn zeta. revert s. induction rest as [|e rest IH]; intros s; simpl; [by left|].
  destruct (ev_tick e =? tick); [|by left].
  destruct (dispatch_cut env e s) as [->|[Hr Hp]].
  - destruct (dispatch devices status E quiet e s) as [s1|s1]; [apply IH | by left].
  - destruct (dispatch devices status E env e s) as [s1|s1]; [done|]. right.
    split; [done|]. simpl in *.
    pose proof (dispatch_extends quiet e s) as Hq.
    destruct (dispatch devices status E quiet e s) as [s2|s2]; simpl in *; [|done].
    etrans; [exact Hp|]. apply dispatch_due_extends.
Qed.

Lemma tick_loop_cut env rounds tick max_tick rest (s : sched E) :
  cut_short (tick_loop devices status E echo env rounds tick max_tick rest s)
            (tick_loop devices status E echo quiet rounds tick max_tick rest s).
Proof.
  unfold cut_short. revert tick rest s.
  induction rounds as [|rounds IH]; intros tick rest s; simpl; [by left|].
  destruct (tick <=? max_tick); [|by left].
  unfold echo_tick. destruct (echo (echo_state s) tick) as [[st cs]|]; [|by left].
  set (s1 := Sched _ _ _ _).
  destruct (dispatch_due_cut env tick rest s1) as [->|[Hr Hp]].
  - destruct (dispatch_due devices status E quiet tick rest s1) as [rest' [s2|s2]];
      [|by left].
    unfold sleep. simpl.
    destruct (bool_decide (stop_signal env = Some tick)); [|apply IH].
    right. split; [done|]. simpl.
    etrans; [|apply tick_loop_extends]. simpl. by apply prefix_app_r.
  - destruct (dispatch_due devices status E env tick rest s1) as [rest' [s2|s2]];
      [done|].
    right. split; [done|]. simpl in *.
    pose proof (dispatch_due_extends quiet tick rest s1) as Hq.
    destruct (dispatch_due devices status E quiet tick rest s1) as [rest'' [s3|s3]];
      simpl in *; [|done].
    etrans; [exact Hp|]. unfold sleep. simpl.
    etrans; [|apply tick_loop_extends]. simpl. by apply prefix_app_r.
Qed.

Lemma running_cut env event_queue echo_ticks e0 :
  let f := running devices status E echo env event_queue echo_ticks e0 in
  let fq := running devices status E echo quiet event_queue echo_ticks e0 in
  out (state_of f) `prefix_of` out (state_of fq) /\
  (raised f = false -> f = fq).
Proof.
  cbn zeta. unfold running.
  match goal with |- context [tick_loop _ _ _ _ env ?r ?t ?m ?l ?s] =>
    destruct (tick_loop_cut env r t m l s) as [->|[Hr Hp]]
  end; [done|].
  split; [done|]. intros Hf. congruence.
Qed.

End Faults.

(** X13: a refused message or a stop signal cuts the [try] block short
    and changes nothing else: under any outside, what the block has sent,
    printed and slept through when it is left is an initial part of what
    it does when nothing is in its way, and a block that is left without
    an exception has done all of it. *)
Theorem fault_cuts_the_run_short (env : outside) (event_queue : list Event) :
  (forall char_queue,
     let f := Acid2Midi.try_block env event_queue char_queue in
     let undisturbed := Acid2Midi.try_block quiet event_queue char_queue in
     (exists rest, out (state_of undisturbed) = out (state_of f) ++ rest) /\
     (raised f = false -> f = undisturbed)) /\
  (forall char_queue,
     let f := Speedcore2Midi.try_block env event_queue char_queue in
     let undisturbed := Speedcore2Midi.try_block quiet event_queue char_queue in
     (exists rest, out (state_of undisturbed) = out (state_of f) ++ rest) /\
     (raised f = false -> f = undisturbed)) /\
  (let f := AcidTrack.try_block env event_queue in
   let undisturbed := AcidTrack.try_block quiet event_queue in
   (exists rest, out (state_of undisturbed) = out (state_of f) ++ rest) /\
   (raised f = false -> f = undisturbed)).
Proof.
  split; [|split].
  - intros char_queue. apply running_cut.
  - intros char_queue. apply running_cut.
  - apply running_cut.
Qed.

(** ** The ALSA ports *)

Lemma span_forall p s : forallb p (fst (Alsa.span p s)) = true.
Proof.
  induction s as [|c s IH]; simpl; [done|].
  destruct (p c) eqn:Hp; [|done].
  destruct (Alsa.span p s) as [taken rest]. simpl in *. by rewrite Hp, IH.
Qed.

Lemma number_spec s num rest :
  Alsa.number s = Some (num, rest) -> num <> [] /\ forallb Alsa.isdecimal num = true.
Proof.
  unfold Alsa.number. pose proof (span_forall Alsa.isdecimal s) as Hd.
  destruct (Alsa.span Alsa.isdecimal s) as [[|c taken] r]; [done|].
  intros [= <- <-]. split; [done | exact Hd].
Qed.

Lemma match_client_spec line num name :
  Alsa.match_client line = Some (num, name) ->
  num <> [] /\ forallb Alsa.isdecimal num = true.
Proof.
  unfold Alsa.match_client. intros Hm.
  destruct (Alsa.after (chars "client ") line) as [s1|]; [|done].
  destruct (Alsa.number s1) as [[num' s2]|] eqn:Hn; [|done].
  destruct (Alsa.after (chars ": ") s2) as [s3|]; [|done].
  destruct (Alsa.quoted s3) as [name'|]; [|done].
  simplify_eq. by eapply number_spec.
Qed.

Lemma match_port_spec line num name :
  Alsa.match_port line = Some (num, name) ->
  num <> [] /\ forallb Alsa.isdecimal num = true.
Proof.
  unfold Alsa.match_port. intros Hm.
  destruct (Alsa.span Alsa.isspace line) as [[|w ws] s1]; [done|].
  destruct (Alsa.number s1) as [[num' s2]|] eqn:Hn; [|done].
  destruct (Alsa.after (chars " ") s2) as [s3|]; [|done].
  destruct (Alsa.quoted s3) as [name'|]; [|done].
  simplify_eq. by eapply number_spec.
Qed.

Lemma dict_set_keys key value d :
  NoDup (map fst d) -> NoDup (map fst (Alsa.dict_set key value d)).
Proof.
  induction d as [|[k v] d IH]; simpl; intros Hnd.
  - repeat constructor. apply not_elem_of_nil.
  - inversion Hnd as [|? ? Hk Hnd']; subst.
    destruct (String.eqb_spec k key) as [->|Hne]; simpl; [by constructor|].
    constructor; [|by apply IH].
    intros Hin. apply Hk. clear -Hin Hne.
    induction d as [|[k' v'] d IHd]; simpl in *.
    + apply list_elem_of_singleton in Hin. congruence.
    + destruct (String.eqb_spec k' key) as [->|Hne']; simpl in *; [done|].
      apply elem_of_cons in Hin as [->|Hin]; [apply list_elem_of_here|].
      apply list_elem_of_further. by apply IHd.
Qed.

Lemma dict_set_values (P : string * string -> Prop) key value d :
  (forall k, P (k, value)) -> Forall P d -> Forall P (Alsa.dict_set key value d).
Proof.
  intros Hv. induction 1 as [|[k v] d Hkv Hd IH]; simpl.
  - repeat constructor. apply Hv.
  - destruct (String.eqb k key); constructor; auto.
Qed.

Lemma str_empty s : Alsa.str s = "" -> s = [].
Proof. by destruct s. Qed.

(** What the loop over the lines keeps true *)
Lemma scan_line_inv st line :
  NoDup (map fst (Alsa.ports st)) ->
  Forall (fun kv => is_address (snd kv)) (Alsa.ports st) ->
  (forall c, Alsa.current_client st = Some c ->
     exists num, c = Alsa.str num /\ num <> [] /\ forallb Alsa.isdecimal num = true) ->
  let st' := Alsa.scan_line st line in
  NoDup (map fst (Alsa.ports st')) /\
  Forall (fun kv => is_address (snd kv)) (Alsa.ports st') /\
  (forall c, Alsa.current_client st' = Some c ->
     exists num, c = Alsa.str num /\ num <> [] /\ forallb Alsa.isdecimal num = true).
Proof.
  intros Hnd Hall Hc. cbn zeta. unfold Alsa.scan_line.
  set (st1 := match Alsa.match_client line with Some _ => _ | None => st end).
  assert (Alsa.ports st1 = Alsa.ports st /\
          (forall c, Alsa.current_client st1 = Some c ->
             exists num, c = Alsa.str num /\ num <> [] /\
                         forallb Alsa.isdecimal num = true)) as [Hp1 Hc1].
  { subst st1. destruct (Alsa.match_client line) as [[num name]|] eqn:Hm; [|done].
    simpl. split; [done|]. intros c [= <-]. exists num. split; [done|].
    by eapply match_client_spec. }
  clearbody st1.
  destruct (Alsa.match_port line) as [[port_num port_name]|] eqn:Hm;
    [|rewrite Hp1; auto].
  destruct (Alsa.current_client st1) as [c|] eqn:Hcur; simpl;
    [|rewrite Hp1, Hcur; auto].
  destruct (String.eqb c ""); simpl; [rewrite Hp1, Hcur; auto|].
  rewrite Hp1. split; [by apply dict_set_keys|]. split; [|done].
  apply dict_set_values; [|done]. intros k. simpl.
  destruct (Hc1 c eq_refl) as (num & -> & Hne & Hd).
  destruct (match_port_spec _ _ _ Hm) as [Hpne Hpd].
  by exists num, port_num.
Qed.

Lemma scan_lines_inv lines st :
  NoDup (map fst (Alsa.ports st)) ->
  Forall (fun kv => is_address (snd kv)) (Alsa.ports st) ->
  (forall c, Alsa.current_client st = Some c ->
     exists num, c = Alsa.str num /\ num <> [] /\ forallb Alsa.isdecimal num = true) ->
  let st' := fold_left Alsa.scan_line lines st in
  NoDup (map fst (Alsa.ports st')) /\ Forall (fun kv => is_address (snd kv)) (Alsa.ports st').
Proof.
  revert st. induction lines as [|line lines IH]; intros st Hnd Hall Hc; simpl; [done|].
  destruct (scan_line_inv st line Hnd Hall Hc) as (Hnd' & Hall' & Hc').
  by apply IH.
Qed.

Lemma address_truthy ports name :
  Forall (fun kv => is_address (snd kv)) ports ->
  Alsa.truthy (Alsa.find_port name ports) =
    match Alsa.find_port name ports with Some _ => true | None => false end.
Proof.
  induction 1 as [|[k v] ports Hv Hp IH]; simpl; [done|].
  destruct (Alsa.contains name k); [|done]. simpl in *.
  destruct Hv as (c & p & -> & Hc & _). destruct c as [|c0 c]; [done|]. done.
Qed.

Lemma find_port_address ports name v :
  Forall (fun kv => is_address (snd kv)) ports ->
  Alsa.find_port name ports = Some v -> is_address v.
Proof.
  induction 1 as [|[k v'] ports Hv Hp IH]; simpl; [done|].
  destruct (Alsa.contains name k); [|done]. by intros [= <-].
Qed.

Lemma listed_addresses listing ports :
  Alsa.get_alsa_ports listing = Some ports ->
  NoDup (map fst ports) /\ Forall (fun kv => is_address (snd kv)) ports.
Proof.
  destruct listing as [out| |]; simpl; intros [= <-]; [|split; constructor].
  apply scan_lines_inv; simpl; [constructor | constructor | done].
Qed.

(** X14: whatever [aconnect -l] prints, the dict of [get_alsa_ports] maps
    every key to an address [client:port] of two decimal numbers, none of
    them empty; no key stands twice; and a listing that ends with a status
    other than 0 gives the empty dict. *)
Theorem listed_ports_are_addresses (listing : command_result) :
  match Alsa.get_alsa_ports listing with
  | Some ports =>
      NoDup (map fst ports) /\
      Forall (fun kv => is_address (snd kv)) ports /\
      (listing = CalledProcessError -> ports = [])
  | None => listing = OtherError
  end.
Proof.
  destruct (Alsa.get_alsa_ports listing) as [ports|] eqn:Hl.
  - destruct (listed_addresses _ _ Hl) as [Hnd Hall]. split; [done|]. split; [done|].
    intros ->. simpl in Hl. congruence.
  - by destruct listing.
Qed.

(** ** The five rounds of connect_midi_ports *)

Lemma count_if_snoc {A} (p : A -> bool) l l' :
  count_if p (l ++ l') = (count_if p l + count_if p l')%nat.
Proof. apply count_if_app. Qed.

Section Connect.
Variable world : nat -> Alsa.attempt.
Variables src_name dst_name : string.

Lemma connect_loop_spec rounds k done :
  let r := Alsa.connect_loop world src_name dst_name rounds k done in
  (forall src dst, In (Alsa.RunAconnect src dst) (fst r) ->
     In (Alsa.RunAconnect src dst) done \/ (is_address src /\ is_address dst)) /\
  match snd r with
  | Some true =>
      exists n, (n < rounds)%nat /\
        connects src_name dst_name (world (k + n)%nat) = true /\
        (forall j, (j < n)%nat -> fails src_name dst_name (world (k + j)%nat) = true) /\
        count_if is_list_ports (fst r) = (count_if is_list_ports done + S n)%nat /\
        count_if is_wait (fst r) = (count_if is_wait done + n)%nat
  | Some false =>
      (forall j, (j < rounds)%nat -> fails src_name dst_name (world (k + j)%nat) = true) /\
      count_if is_list_ports (fst r) = (count_if is_list_ports done + rounds)%nat /\
      count_if is_wait (fst r) = (count_if is_wait done + rounds)%nat
  | None =>
      exists n, (n < rounds)%nat /\
        breaks src_name dst_name (world (k + n)%nat) = true /\
        (forall j, (j < n)%nat -> fails src_name dst_name (world (k + j)%nat) = true) /\
        count_if is_list_ports (fst r) = (count_if is_list_ports done + S n)%nat /\
        count_if is_wait (fst r) = (count_if is_wait done + n)%nat
  end.
Proof.
  cbn zeta. revert k done. induction rounds as [|rounds IH]; intros k done.
  - simpl. split; [auto|]. split; [intros j Hj; lia|]. split; lia.
  - cbn [Alsa.connect_loop].
    assert (forall done' : list Alsa.action,
              fails src_name dst_name (world k) = true ->
              (forall src dst, In (Alsa.RunAconnect src dst) done' ->
                 In (Alsa.RunAconnect src dst) done \/ (is_address src /\ is_address dst)) ->
              count_if is_list_ports done' = S (count_if is_list_ports done) ->
              count_if is_wait done' = S (count_if is_wait done) ->
              let r := Alsa.connect_loop world src_name dst_name rounds (S k) done' in
              (forall src dst, In (Alsa.RunAconnect src dst) (fst r) ->
                 In (Alsa.RunAconnect src dst) done \/ (is_address src /\ is_address dst)) /\
              match snd r with
              | Some true =>
                  exists n, (n < S rounds)%nat /\
                    connects src_name dst_name (world (k + n)%nat) = true /\
                    (forall j, (j < n)%nat ->
                       fails src_name dst_name (world (k + j)%nat) = true) /\
                    count_if is_list_ports (fst r) =
                      (count_if is_list_ports done + S n)%nat /\
                    count_if is_wait (fst r) = (count_if is_wait done + n)%nat
              | Some false =>
                  (forall j, (j < S rounds)%nat ->
                     fails src_name dst_name (world (k + j)%nat) = true) /\
                  count_if is_list_ports (fst r) =
                    (count_if is_list_ports done + S rounds)%nat /\
                  count_if is_wait (fst r) = (count_if is_wait done + S rounds)%nat
              | None =>
                  exists n, (n < S rounds)%nat /\
                    breaks src_name dst_name (world (k + n)%nat) = true /\
                    (forall j, (j < n)%nat ->
                       fails src_name dst_name (world (k + j)%nat) = true) /\
                    count_if is_list_ports (fst r) =
                      (count_if is_list_ports done + S n)%nat /\
                    count_if is_wait (fst r) = (count_if is_wait done + n)%nat
              end) as Hretry.
    { intros done' Hf Hrun' Hlp' Hw'. cbn zeta.
      destruct (IH (S k) done') as [Hrun Hres].
      split.
      { intros s d Hin. destruct (Hrun s d Hin) as [Hin'|?]; auto. }
      destruct (snd (Alsa.connect_loop world src_name dst_name rounds (S k) done'))
        as [[|]|].
      - destruct Hres as (n & Hn & Hcon & Hfail & Hlp & Hw).
        exists (S n). replace (k + S n)%nat with (S k + n)%nat by lia.
        split; [lia|]. split; [done|]. split; [|split; lia].
        intros [|j] Hj; [by rewrite Nat.add_0_r|].
        replace (k + S j)%nat with (S k + j)%nat by lia. apply Hfail. lia.
      - destruct Hres as (Hfail & Hlp & Hw). split; [|split; lia].
        intros [|j] Hj; [by rewrite Nat.add_0_r|].
        replace (k + S j)%nat with (S k + j)%nat by lia. apply Hfail. lia.
      - destruct Hres as (n & Hn & Hcon & Hfail & Hlp & Hw).
        exists (S n). replace (k + S n)%nat with (S k + n)%nat by lia.
        split; [lia|]. split; [done|]. split; [|split; lia].
        intros [|j] Hj; [by rewrite Nat.add_0_r|].
        replace (k + S j)%nat with (S k + j)%nat by lia. apply Hfail. lia. }
    destruct (Alsa.get_alsa_ports (Alsa.listing (world k))) as [ports|] eqn:Hl.
    2:{ simpl. split.
        - intros src dst Hin. apply in_app_or in Hin as [Hin|[Hin|[]]]; [auto | done].
        - exists 0%nat. rewrite Nat.add_0_r. unfold breaks. rewrite Hl.
          split; [lia|]. split; [done|]. split; [intros j Hj; lia|].
          rewrite !count_if_app. unfold count_if. simpl. split; lia. }
    destruct (listed_addresses _ _ Hl) as [_ Hall].
    rewrite !(address_truthy ports) by done.
    destruct (Alsa.find_port src_name ports) as [src|] eqn:Hs;
      [destruct (Alsa.find_port dst_name ports) as [dst|] eqn:Hd|]; cbn [andb].
    + destruct (Alsa.connecting (world k)) as [out| |] eqn:Hc.
      * simpl. split.
        -- intros s d Hin. apply in_app_or in Hin as [Hin|Hin]; [auto|].
           right. destruct Hin as [Hin|[Hin|[Hin|[]]]]; try done. simplify_eq.
           split; eapply find_port_address; eauto.
        -- exists 0%nat. rewrite Nat.add_0_r. unfold connects. rewrite Hl, Hs, Hd, Hc.
           split; [lia|]. split; [done|]. split; [intros j Hj; lia|].
           rewrite !count_if_app. unfold count_if. simpl. split; lia.
      * apply Hretry.
        -- unfold fails, connects, breaks. by rewrite Hl, Hs, Hd, Hc.
        -- intros s d Hin. apply in_app_or in Hin as [?|Hin]; [auto|]. right.
           destruct Hin as [Hin|[Hin|[Hin|[Hin|[]]]]]; try done. simplify_eq.
           split; eapply find_port_address; eauto.
        -- rewrite count_if_app. unfold count_if at 2. simpl. lia.
        -- rewrite count_if_app. unfold count_if at 2. simpl. lia.
      * simpl. split.
        -- intros s d Hin. apply in_app_or in Hin as [Hin|Hin]; [auto|].
           right. destruct Hin as [Hin|[Hin|[]]]; try done. simplify_eq.
           split; eapply find_port_address; eauto.
        -- exists 0%nat. rewrite Nat.add_0_r. unfold breaks. rewrite Hl, Hs, Hd, Hc.
           split; [lia|]. split; [done|]. split; [intros j Hj; lia|].
           rewrite !count_if_app. unfold count_if. simpl. split; lia.
    + apply Hretry.
      * unfold fails, connects, breaks. by rewrite Hl, Hs, Hd.
      * intros s d Hin. apply in_app_or in Hin as [?|Hin]; [auto|].
        destruct Hin as [Hin|[Hin|[Hin|[]]]]; done.
      * rewrite count_if_app. unfold count_if at 2. simpl. lia.
      * rewrite count_if_app. unfold count_if at 2. simpl. lia.
    + apply Hretry.
      * unfold fails, connects, breaks. by rewrite Hl, Hs.
      * intros s d Hin. apply in_app_or in Hin as [?|Hin]; [auto|].
        destruct Hin as [Hin|[Hin|[Hin|[]]]]; done.
      * rewrite count_if_app. unfold count_if at 2. simpl. lia.
      * rewrite count_if_app. unfold count_if at 2. simpl. lia.
Qed.

End Connect.

(** X15: [connect_midi_ports] lists the ports and tries to connect in at
    most five rounds.  It returns [True] at the first round in which both
    names are found in the listing and [aconnect] ends with status 0,
    having waited once for each round before it; it returns [False] when
    all five rounds fail, after five listings and five waits; an
    exception other than [CalledProcessError] leaves it at the round
    where it occurs.  It runs [aconnect] on nothing but two addresses
    [client:port] taken from the listing. *)
Theorem connect_midi_ports_tries_five_rounds (world : nat -> Alsa.attempt)
    (src_name dst_name : string) :
  let run := Alsa.connect_midi_ports world src_name dst_name in
  (forall src dst, In (Alsa.RunAconnect src dst) (fst run) ->
     is_address src /\ is_address dst) /\
  match snd run with
  | Some true =>
      exists n, (n < 5)%nat /\
        connects src_name dst_name (world n) = true /\
        (forall j, (j < n)%nat -> fails src_name dst_name (world j) = true) /\
        count_if is_list_ports (fst run) = S n /\
        count_if is_wait (fst run) = n
  | Some false =>
      (forall j, (j < 5)%nat -> fails src_name dst_name (world j) = true) /\
      count_if is_list_ports (fst run) = 5%nat /\
      count_if is_wait (fst run) = 5%nat
  | None =>
      exists n, (n < 5)%nat /\
        breaks src_name dst_name (world n) = true /\
        (forall j, (j < n)%nat -> fails src_name dst_name (world j) = true) /\
        count_if is_list_ports (fst run) = S n /\
        count_if is_wait (fst run) = n
  end.
Proof.
  cbn zeta. unfold Alsa.connect_midi_ports.
  destruct (connect_loop_spec world src_name dst_name 5 0 []) as [Hrun Hres].
  split.
  - intros src dst Hin. by destruct (Hrun src dst Hin).
  - destruct (snd (Alsa.connect_loop world src_name dst_name 5 0 [])) as [[|]|];
      exact Hres.
Qed.

(** ** The notes of the basslines, the leads and the drums *)

Lemma scale_note base r :
  0 <= base <= 117 ->
  in_scale base (clamp (base + item MINOR_PENTATONIC (r mod len MINOR_PENTATONIC))).
Proof.
  intros Hb. unfold in_scale, len. simpl length.
  pose proof (Z.mod_pos_bound r 5 ltac:(lia)) as Hm. change (Z.of_nat 5) with 5.
  assert (r mod 5 = 0 \/ r mod 5 = 1 \/ r mod 5 = 2 \/ r mod 5 = 3 \/ r mod 5 = 4)
    as [->|[->|[->|[->| ->]]]] by lia;
    unfold item, clamp; simpl nth;
    match goal with |- In ?x _ => match x with
      Z.min (Z.max (base + ?d) 0) 127 - base => replace x with d by lia end end;
    simpl; auto 10.
Qed.

Lemma scale_degree base k :
  0 <= base <= 117 -> 0 <= k <= 4 ->
  in_scale base (clamp (base + item MINOR_PENTATONIC k)).
Proof.
  intros Hb Hk. replace k with (k mod len MINOR_PENTATONIC).
  - by apply scale_note.
  - unfold len. simpl length. apply Z.mod_small. lia.
Qed.

Lemma scale_note_above base up r :
  0 <= base + up <= 117 ->
  in_scale (base + up)
    (clamp (base + item MINOR_PENTATONIC (r mod len MINOR_PENTATONIC) + up)).
Proof.
  intros Hb.
  replace (base + item MINOR_PENTATONIC (r mod len MINOR_PENTATONIC) + up)
    with (base + up + item MINOR_PENTATONIC (r mod len MINOR_PENTATONIC)) by lia.
  by apply scale_note.
Qed.

Ltac tune :=
  repeat first
    [ apply List.Forall_nil
    | apply List.Forall_cons;
      [ first
          [ left; reflexivity
          | right; cbn [ev_device ev_value];
            repeat match goal with
            | |- _ /\ _ => split
            | |- (_ = _) -> _ =>
                let Hdev := fresh "Hdev" in intros Hdev; try discriminate Hdev
            end;
            first [ apply scale_note; vm_compute; split; discriminate
                  | apply (scale_note_above 48 24); vm_compute; split; discriminate
                  | apply (scale_degree 48); [vm_compute; split; discriminate | lia]
                  | vm_compute; auto 20 ] ] |] ].

Section Tuning.
Context {G : Type} `{PyRandom G}.

Lemma acid_encode_tuned (st : mapper G) i ch :
  Forall (in_tune 48 72) (pushes st) ->
  Forall (in_tune 48 72) (pushes (Acid2Midi.encode st i ch)).
Proof.
  intros Hp. unfold Acid2Midi.encode.
  destruct (Ascii.eqb ch " " || char_in (lower ch) PUNCTUATION).
  { simpl. apply Forall_app. split; [done|].
    unfold Acid2Midi.separator. simpl. tune. }
  destruct (negb (char_in (lower ch) ENCODABLE)); [done|].
  assert (Forall (in_tune 48 72)
            (fst (Acid2Midi.bassline (lower ch) (current_time st) (rng st)))) as Hb.
  { unfold Acid2Midi.bassline.
    repeat match goal with |- context [if char_in ?c ?s then _ else _] =>
      destruct (char_in c s) end;
    try draw; cbn [fst app]; simpl Z.ltb; cbn iota; unfold Acid2Midi.NOTE_BASE; tune. }
  destruct (Acid2Midi.bassline (lower ch) (current_time st) (rng st)) as [bass g'].
  simpl in *.
  apply Forall_app. split; [done|]. apply Forall_app. split; [done|].
  unfold Acid2Midi.drums.
  repeat match goal with |- context [if char_in ?c ?s then _ else _] =>
    destruct (char_in c s) end;
  repeat match goal with |- context [if (?a =? ?b) then _ else _] =>
    destruct (a =? b) end; tune.
Qed.


Lemma speed_encode_tuned at_first (st : mapper G) i ch :
  Forall (in_tune 48 72) (pushes st) ->
  Forall (in_tune 48 72) (pushes (Speedcore2Midi.encode at_first st i ch)).
Proof.
  intros Hp. unfold Speedcore2Midi.encode.
  destruct (char_in ch Speedcore2Midi.SAMPLES).
  { unfold Speedcore2Midi.sample, rbind, rret. draw. simpl.
    apply Forall_app. split; [done|]. tune. }
  destruct (Ascii.eqb ch " " || char_in (lower ch) PUNCTUATION).
  { unfold Speedcore2Midi.separator, rbind, rret. simpl. unfold rbind, rret.
    repeat draw. simpl. apply Forall_app. split; [done|]. tune. }
  destruct (negb (char_in (lower ch) ENCODABLE)); [done|].
  unfold rbind, rret.
  assert (forall g, Forall (in_tune 48 72)
            (fst (Speedcore2Midi.bassline (lower ch) (current_time st) g))) as Hb.
  { intros g. unfold Speedcore2Midi.bassline, rbind, rret.
    repeat match goal with |- context [if char_in ?c ?s then _ else _] =>
      destruct (char_in c s) end;
    repeat draw; cbn [fst app]; simpl Z.ltb; cbn iota; cbn [app];
    unfold Speedcore2Midi.NOTE_BASE; tune. }
  assert (forall g, Forall (in_tune 48 72)
            (fst (Speedcore2Midi.drums (lower ch) i (current_time st) g))) as Hd.
  { intros g. unfold Speedcore2Midi.drums, rbind, rret.
    draw. draw.
    all: repeat match goal with |- context [if char_in ?c ?s then _ else _] =>
      destruct (char_in c s) end.
    all: repeat match goal with |- context [if (?a =? ?b) then _ else _] =>
      destruct (a =? b) end.
    all: cbn [orb].
    all: repeat draw; cbn [fst app]; tune. }
  assert (forall g, Forall (in_tune 48 72)
            (fst (Speedcore2Midi.lead (lower ch) (current_time st) g))) as Hl.
  { intros g. unfold Speedcore2Midi.lead, rbind, rret.
    destruct (char_in (lower ch) VOWELS); repeat draw; cbn [fst app];
      unfold Speedcore2Midi.NOTE_BASE, OCTAVE; tune. }
  specialize (Hb (rng st)).
  destruct (Speedcore2Midi.bassline (lower ch) (current_time st) (rng st)) as [bass g1].
  specialize (Hd g1).
  destruct (Speedcore2Midi.drums (lower ch) i (current_time st) g1) as [drum g2].
  specialize (Hl g2).
  destruct (Speedcore2Midi.lead (lower ch) (current_time st) g2) as [ld g3].
  simpl in *. repeat (apply Forall_app; split); done.
Qed.

Lemma for_each_tuned {A} (body : A -> Rand G (list Event)) l g :
  (forall x g', In x l -> Forall (in_tune 36 48) (fst (body x g'))) ->
  Forall (in_tune 36 48) (fst (for_each body l g)).
Proof.
  intros Hbody. apply for_each_ind_in;
    [constructor | intros a b Ha Hb; by apply Forall_app | auto].
Qed.

Lemma patterns_tuned (g : G) : Forall (in_tune 36 48) (fst (AcidTrack.patterns g)).
Proof.
  unfold AcidTrack.patterns, rbind, rret.
  assert (forall g : G, Forall (in_tune 36 48) (fst (AcidTrack.tb303 g))) as H1.
  { intros g'. unfold AcidTrack.tb303. apply for_each_tuned. intros bar g1 Hbar.
    apply for_each_tuned. intros i g2 Hi.
    unfold AcidTrack.tb303_step, rbind, rret.
    draw; [|constructor]. repeat draw; cbn [fst]; unfold AcidTrack.NOTE_BASE; tune. }
  assert (forall g : G, Forall (in_tune 36 48) (fst (AcidTrack.bass_sub g))) as H2.
  { intros g'. unfold AcidTrack.bass_sub. apply for_each_tuned. intros bar g1 Hbar.
    destruct (2 <=? bar); [|constructor].
    apply for_each_tuned. intros beat g2 Hbeat.
    unfold rret. cbn [fst]. tune. }
  assert (forall g : G, Forall (in_tune 36 48) (fst (AcidTrack.bp909 g))) as H3.
  { intros g'. unfold AcidTrack.bp909. apply for_each_tuned. intros bar g1 Hbar.
    apply for_each_tuned. intros beat g2 Hbeat.
    unfold AcidTrack.bp909_beat, rbind, rret.
    draw.
    all: match goal with |- context [for_each ?b ?l ?g] =>
           let Hh := fresh "Hh" in
           assert (Forall (in_tune 36 48) (fst (for_each b l g))) as Hh;
           [ apply for_each_tuned; intros x gx Hx; unfold rbind, rret; draw;
             cbn [fst]; tune
           | destruct (for_each b l g) as [hats ?]; cbn [fst] in Hh ]
         end.
    all: destruct (8 <=? bar); destruct (12 <=? bar); repeat draw; cbn [fst andb].
    all: repeat (apply Forall_app; split); try exact Hh.
    all: repeat match goal with |- context [if ?b then _ else _] => destruct b end.
    all: tune. }
  assert (forall g : G, Forall (in_tune 36 48) (fst (AcidTrack.lead_synth g))) as H4.
  { intros g'. unfold AcidTrack.lead_synth. apply for_each_tuned. intros bar g1 Hbar.
    apply for_each_tuned. intros beat g2 Hbeat. unfold rbind, rret. draw. cbn [fst].
    unfold AcidTrack.NOTE_BASE, OCTAVE. simpl Z.add. tune. }
  assert (forall g : G, Forall (in_tune 36 48) (fst (AcidTrack.arp_synth g))) as H5.
  { intros g'. unfold AcidTrack.arp_synth. apply for_each_tuned. intros bar g1 Hbar.
    apply for_each_tuned. intros i g2 Hi. unfold rret. cbn [fst]. tune. }
  assert (forall g : G, Forall (in_tune 36 48) (fst (AcidTrack.pad_synth g))) as H6.
  { intros g'. unfold AcidTrack.pad_synth. apply for_each_tuned. intros bar g1 Hbar.
    apply for_each_tuned. intros o g2 Ho. unfold rret. cbn [fst]. tune. }
  assert (forall g : G, Forall (in_tune 36 48) (fst (AcidTrack.sample_bank1 g))) as H7.
  { intros g'. unfold AcidTrack.sample_bank1. apply for_each_tuned. intros bar g1 Hbar.
    unfold rret. cbn [fst]. destruct (12 <=? _); cbn [app]; tune. }
  assert (forall g : G, Forall (in_tune 36 48) (fst (AcidTrack.sample_bank2 g))) as H8.
  { intros g'. unfold AcidTrack.sample_bank2. apply for_each_tuned. intros bar g1 Hbar.
    unfold rret. cbn [fst]. tune. }
  specialize (H1 g). destruct (AcidTrack.tb303 g) as [a g1].
  specialize (H2 g1). destruct (AcidTrack.bass_sub g1) as [b g2].
  specialize (H3 g2). destruct (AcidTrack.bp909 g2) as [c g3].
  specialize (H4 g3). destruct (AcidTrack.lead_synth g3) as [d g4].
  specialize (H5 g4). destruct (AcidTrack.arp_synth g4) as [e g5].
  specialize (H6 g5). destruct (AcidTrack.pad_synth g5) as [f g6].
  specialize (H7 g6). destruct (AcidTrack.sample_bank1 g6) as [s1 g7].
  specialize (H8 g7). destruct (AcidTrack.sample_bank2 g7) as [s2 g8].
  cbn [fst] in *.
  repeat (apply Forall_app; split); assumption.
Qed.

(** X16: whatever the text and whatever the generator draws, every note of
    a queue is in tune: the bassline on the TB303 plays pitches of the
    minor pentatonic scale on [NOTE_BASE] (48 in acid2midi and
    speedcore2midi, 36 in acidtrack), the lead of speedcore2midi pitches of
    the scale two octaves higher and the lead of acidtrack one octave
    higher, and every note on the BP909 is a note of [DRUM_NOTES]. *)
Theorem notes_are_in_tune (g0 : G) :
  (forall text,
     Forall (in_tune Acid2Midi.NOTE_BASE (Acid2Midi.NOTE_BASE + 2 * OCTAVE))
            (fst (fst (Acid2Midi.text_to_event_queue g0 text)))) /\
  (forall at_first text,
     Forall (in_tune Speedcore2Midi.NOTE_BASE (Speedcore2Midi.NOTE_BASE + 2 * OCTAVE))
            (fst (fst (Speedcore2Midi.text_to_event_queue at_first g0 text)))) /\
  Forall (in_tune AcidTrack.NOTE_BASE (AcidTrack.NOTE_BASE + OCTAVE))
         (fst (AcidTrack.generate_acid_patterns g0)).
Proof.
  split; [|split].
  - intros text. simpl. eapply Forall_perm; [symmetry; apply merged_perm|].
    apply (enumerate_from_inv (fun st => Forall (in_tune 48 72) (pushes st)));
      [constructor|].
    intros st i ch. apply acid_encode_tuned.
  - intros at_first text. simpl. eapply Forall_perm; [symmetry; apply merged_perm|].
    apply (enumerate_from_inv (fun st => Forall (in_tune 48 72) (pushes st)));
      [constructor|].
    intros st i ch. apply speed_encode_tuned.
  - unfold AcidTrack.generate_acid_patterns.
    pose proof (patterns_tuned (seed_int 42)) as Hp.
    destruct (AcidTrack.patterns (seed_int 42)) as [es g]. cbn [fst] in *.
    eapply Forall_perm; [symmetry; apply merged_perm | done].
Qed.

End Tuning.

(** ** Capitals and small letters *)

Lemma lower_facts c :
  lower (lower c) = lower c /\
  Ascii.eqb (lower c) " " = Ascii.eqb c " " /\
  char_in (lower c) Speedcore2Midi.SAMPLES = char_in c Speedcore2Midi.SAMPLES.
Proof. destruct c as [[] [] [] [] [] [] [] []]; vm_compute; done. Qed.

Section Capitals.
Context {G : Type} `{PyRandom G}.

(** X17: the mappers do not tell a capital from its small letter.  From
    one state of the loop, the round of a character and the round of its
    lower-case form push the same events, leave the generator in the same
    state and move [current_time] alike; only the entry of the echo list
    keeps the character as it was typed.  (Two texts that differ in case
    seed the generator differently, so their random draws may differ.) *)
Theorem rounds_ignore_case (st : mapper G) i ch :
  (let typed := Acid2Midi.encode st i ch in
   let small := Acid2Midi.encode st i (lower ch) in
   pushes typed = pushes small /\ rng typed = rng small /\
   current_time typed = current_time small /\
   map ct_tick (char_timing typed) = map ct_tick (char_timing small)) /\
  (forall at_first,
     let typed := Speedcore2Midi.encode at_first st i ch in
     let small := Speedcore2Midi.encode at_first st i (lower ch) in
     pushes typed = pushes small /\ rng typed = rng small /\
     current_time typed = current_time small /\
     map ct_tick (char_timing typed) = map ct_tick (char_timing small)).
Proof.
  destruct (lower_facts ch) as (Hl & Hsp & Hsa). split.
  - cbn zeta. unfold Acid2Midi.encode. rewrite Hl, Hsp.
    destruct (Ascii.eqb ch " " || char_in (lower ch) PUNCTUATION);
      [simpl; by rewrite ?List.map_app|].
    destruct (negb (char_in (lower ch) ENCODABLE)); [simpl; by rewrite ?List.map_app|].
    destruct (Acid2Midi.bassline _ _ _). simpl; by rewrite ?List.map_app.
  - intros at_first. cbn zeta. unfold Speedcore2Midi.encode. rewrite Hl, Hsp, Hsa.
    destruct (char_in ch Speedcore2Midi.SAMPLES) eqn:Hs.
    { assert (lower ch = ch) as ->; [|done].
      clear -Hs. destruct ch as [[] [] [] [] [] [] [] []]; vm_compute in Hs |- *;
        done. }
    destruct (Ascii.eqb ch " " || char_in (lower ch) PUNCTUATION).
    { destruct (Speedcore2Midi.separator _ _). simpl; by rewrite ?List.map_app. }
    destruct (negb (char_in (lower ch) ENCODABLE)); [done|].
    match goal with |- context [let '(_, _) := ?m in _] => destruct m end.
    simpl; by rewrite ?List.map_app.
Qed.

End Capitals.

(** ** A stop signal *)

Section Stopped.
Variable devices : list string.
Variable status : Z -> string -> Z.
Variable E : Type.
Variable echo : E -> Z -> option (E * list ascii).
Variable echo_ok : E -> Prop.
Hypothesis echo_ok_step : forall st t,
  echo_ok st -> exists st' cs, echo st t = Some (st', cs) /\ echo_ok st'.
Variable env : outside.
Hypothesis accepted : forall n, send_raises env n = false.
Hypothesis returned : forall n, stop_after_send env n = false.

Lemma dispatch_accepted e (s : sched E) :
  dispatch devices status E env e s = dispatch devices status E quiet e s.
Proof. unfold dispatch, call_send, send_message. by rewrite accepted, returned. Qed.

Lemma dispatch_due_accepted tick rest (s : sched E) :
  dispatch_due devices status E env tick rest s =
  dispatch_due devices status E quiet tick rest s.
Proof.
  revert s. induction rest as [|e rest IH]; intros s; simpl; [done|].
  rewrite dispatch_accepted. destruct (ev_tick e =? tick); [|done].
  destruct (dispatch devices status E quiet e s); [apply IH | done].
Qed.

Lemma messages_without_echo es :
  without_echo (flat_map (message_of status) es) = flat_map (message_of status) es.
Proof.
  induction es as [|e l IHl]; simpl; [done|].
  rewrite without_echo_app, IHl. f_equal.
  unfold message_of. by repeat case_match.
Qed.

Lemma tick_loop_stopped t rounds tick max_tick rest (s : sched E) :
  stop_signal env = Some t -> tick <= t <= max_tick ->
  rounds = Z.to_nat (max_tick + 1 - tick) ->
  StronglySorted (le_of (fun a b => ev_tick a <? ev_tick b)) rest ->
  Forall (fun e => In (ev_device e) devices) rest ->
  Forall (fun e => tick <= ev_tick e) rest ->
  echo_ok (echo_state s) ->
  exists s',
    tick_loop devices status E echo env rounds tick max_tick rest s = Raise s' /\
    without_echo (out s') =
      without_echo (out s) ++ schedule status rest tick (t - 1) ++
      flat_map (message_of status) (due t rest).
Proof.
  intros Hstop. revert tick rest s. induction rounds as [|rounds IH];
    intros tick rest s Ht Hr Hs Hk Hge Hecho; [lia|]. simpl.
  assert (tick <= max_tick) as Hle by lia.
  rewrite (proj2 (Z.leb_le _ _) Hle).
  unfold echo_tick, sleep.
  destruct (echo_ok_step _ tick Hecho) as (st' & cs & -> & Hecho').
  set (s1 := Sched _ _ _ _).
  rewrite dispatch_due_accepted.
  destruct (dispatch_due_completes devices status E tick rest s1 Hs Hk Hge)
    as (rest' & s2 & -> & Ho2 & He2 & Hs' & Hk' & Hge' & Hdue).
  rewrite Hstop. destruct (decide (t = tick)) as [->|Hne].
  - rewrite bool_decide_eq_true_2 by done. exists s2. split; [done|].
    rewrite Ho2. subst s1. cbn [out].
    rewrite !without_echo_app, without_echo_echo, app_nil_r, messages_without_echo.
    unfold schedule. rewrite range_nil by lia. done.
  - rewrite bool_decide_eq_false_2 by congruence.
    set (s3 := Sched _ _ _ _).
    destruct (IH (tick + 1) rest' s3) as (s' & -> & Ho'); try done; try lia.
    { subst s3. simpl. by rewrite He2. }
    exists s'. split; [done|]. rewrite Ho'. subst s3. cbn [out].
    rewrite without_echo_app, Ho2. subst s1. cbn [out].
    rewrite !without_echo_app, without_echo_echo, app_nil_r, messages_without_echo.
    rewrite <- !app_assoc. f_equal.
    unfold schedule. rewrite (range_cons tick) by lia. simpl.
    rewrite <- !app_assoc. simpl. f_equal. f_equal.
    rewrite (Hdue t) by done. f_equal.
    apply flat_map_eq_in. intros t' Ht'.
    rewrite Hdue; [done|].
    unfold range in Ht'. apply in_map_iff in Ht' as (k & <- & _). lia.
Qed.

Lemma running_stopped t event_queue echo_ticks e0 :
  stop_signal env = Some t ->
  0 <= t <= max_tick_of (sort_by_tick event_queue) echo_ticks ->
  Forall (fun e => 0 <= ev_tick e) event_queue ->
  Forall (fun e => In (ev_device e) devices) event_queue ->
  echo_ok e0 ->
  let f := running devices status E echo env event_queue echo_ticks e0 in
  raised f = true /\
  without_echo (out (state_of f)) =
    schedule status event_queue 0 (t - 1) ++
    flat_map (message_of status) (due t event_queue).
Proof.
  intros Hstop Ht Hge Hk He. cbn zeta. unfold running.
  destruct (tick_loop_stopped t
              (Z.to_nat (max_tick_of (sort_by_tick event_queue) echo_ticks + 1)) 0
              (max_tick_of (sort_by_tick event_queue) echo_ticks)
              (sort_by_tick event_queue)
              (Sched [] (map (fun device => (device, ∅)) devices) 0 e0))
    as (s & -> & Ho); try done.
  - f_equal. lia.
  - apply sort_by_tick_sorted.
  - eapply Forall_perm; [symmetry; apply sort_by_tick_perm | done].
  - eapply Forall_perm; [symmetry; apply sort_by_tick_perm | done].
  - split; [done|]. cbn [state_of]. rewrite Ho. simpl.
    by rewrite schedule_sort_by_tick, due_sort_by_tick.
Qed.

End Stopped.

(** X18: a stop signal that arrives during the sleep of tick [t], every
    message being accepted, ends the [try] block with an exception there:
    the events of the ticks up to [t] have been played in the order of the
    queue, each tick before [t] followed by its sleep, and no event of a
    later tick is played.  (The [finally] block then silences the notes
    that are on.) *)
Theorem stop_signal_ends_the_run_after_its_tick (event_queue : list Event) (t : Z) :
  Forall (fun e => 0 <= ev_tick e) event_queue ->
  let env := Outside (fun _ => false) (Some t) (fun _ => false) in
  (forall char_queue,
     Forall (fun e => In (ev_device e) Acid2Midi.DEVICES) event_queue ->
     (forall k, 0 <= k < len char_queue ->
        is_Some (Acid2Midi.char_ready_ticks char_queue !! k)) ->
     0 <= t <= max_tick_of (sort_by_tick event_queue)
                 (map snd (map_to_list (Acid2Midi.char_ready_ticks char_queue))) ->
     let f := Acid2Midi.try_block env event_queue char_queue in
     raised f = true /\
     without_echo (out (state_of f)) =
       schedule Acid2Midi.status event_queue 0 (t - 1) ++
       flat_map (message_of Acid2Midi.status) (due t event_queue)) /\
  (forall char_queue,
     Forall (fun e => In (ev_device e) (map fst Speedcore2Midi.DEVICES)) event_queue ->
     0 <= t <= max_tick_of (sort_by_tick event_queue) (map ct_tick char_queue) ->
     let f := Speedcore2Midi.try_block env event_queue char_queue in
     raised f = true /\
     without_echo (out (state_of f)) =
       schedule Speedcore2Midi.status event_queue 0 (t - 1) ++
       flat_map (message_of Speedcore2Midi.status) (due t event_queue)) /\
  (Forall (fun e => In (ev_device e) (map fst AcidTrack.DEVICES)) event_queue ->
   0 <= t <= max_tick_of (sort_by_tick event_queue) [] ->
   let f := AcidTrack.try_block env event_queue in
   raised f = true /\
   without_echo (out (state_of f)) =
     schedule AcidTrack.status event_queue 0 (t - 1) ++
     flat_map (message_of AcidTrack.status) (due t event_queue)).
Proof.
  intros Hge. cbn zeta. split; [|split].
  - intros char_queue Hk Hready Ht. unfold Acid2Midi.try_block.
    apply (running_stopped Acid2Midi.DEVICES Acid2Midi.status (list CharTiming)
             (Acid2Midi.echo (Acid2Midi.char_ready_ticks char_queue) (len char_queue))
             (fun rem => forall k, len char_queue - len rem <= k < len char_queue ->
                is_Some (Acid2Midi.char_ready_ticks char_queue !! k))
             (fun st t => acid2midi_echo_ok _ _ st t)); try done.
    intros k Hk'. apply Hready. lia.
  - intros char_queue Hk Ht. unfold Speedcore2Midi.try_block.
    apply (running_stopped (map fst Speedcore2Midi.DEVICES) Speedcore2Midi.status
             (list CharTiming) (fun q tick => Some (Speedcore2Midi.echo q tick))
             (fun _ => True)
             (fun st t _ => ex_intro _ (fst (Speedcore2Midi.echo st t))
                (ex_intro _ (snd (Speedcore2Midi.echo st t))
                   (conj (f_equal Some (surjective_pairing _)) I)))); done.
  - intros Hk Ht. unfold AcidTrack.try_block.
    apply (running_stopped (map fst AcidTrack.DEVICES) AcidTrack.status unit
             (fun q _ => Some (q, [])) (fun _ => True)
             (fun st t _ => ex_intro _ st (ex_intro _ [] (conj eq_refl I)))); done.
Qed.

Lemma stop_signal_witness :
  Forall (fun e => 0 <= ev_tick e)
    [Ev 0 "TB303" "on" 48 80; Ev 1 "BP909" "on" 48 100; Ev 2 "TB303" "off" 48 0;
     Ev 2 "BP909" "off" 48 0] /\
  AcidTrack.play_event_queue (Outside (fun _ => false) (Some 1) (fun _ => false))
    [Ev 0 "TB303" "on" 48 80; Ev 1 "BP909" "on" 48 100; Ev 2 "TB303" "off" 48 0;
     Ev 2 "BP909" "off" 48 0] =
    ([Send "TB303" [144; 48; 80]; Sleep; Send "BP909" [145; 48; 100];
      Send "TB303" [128; 48; 0]; Send "BP909" [129; 48; 0]; AllNotesOff], true) /\
  without_echo (out (state_of (AcidTrack.try_block (Outside (fun _ => false) (Some 1) (fun _ => false))
    [Ev 0 "TB303" "on" 48 80; Ev 1 "BP909" "on" 48 100; Ev 2 "TB303" "off" 48 0;
     Ev 2 "BP909" "off" 48 0]))) =
    [Send "TB303" [144; 48; 80]; Sleep; Send "BP909" [145; 48; 100]].
Proof.
  assert (Forall (fun e => 0 <= ev_tick e)
            [Ev 0 "TB303" "on" 48 80; Ev 1 "BP909" "on" 48 100;
             Ev 2 "TB303" "off" 48 0; Ev 2 "BP909" "off" 48 0]) as Hge.
  { repeat constructor; simpl; lia. }
  split; [exact Hge|]. split; [vm_compute; reflexivity|].
  destruct (proj2 (proj2 (stop_signal_ends_the_run_after_its_tick _ 1 Hge)))
    as [_ Ho].
  - repeat (apply List.Forall_cons; [simpl; auto 10|]). apply List.Forall_nil.
  - vm_compute. split; discriminate.
  - rewrite Ho. reflexivity.
Defined.

(** ** The lines that get_alsa_ports reads *)

Lemma span_spec p s taken rest :
  Alsa.span p s = (taken, rest) ->
  s = taken ++ rest /\ forallb p taken = true /\
  match rest with [] => True | c :: _ => p c = false end.
Proof.
  revert taken rest. induction s as [|c s IH]; intros taken rest; simpl.
  - by intros [= <- <-].
  - destruct (p c) eqn:Hp.
    + destruct (Alsa.span p s) as [t r]. intros [= <- <-].
      destruct (IH t r eq_refl) as (-> & Hall & Hr). simpl. by rewrite Hp.
    + intros [= <- <-]. simpl. by rewrite Hp.
Qed.

Lemma span_app p taken rest :
  forallb p taken = true ->
  match rest with [] => True | c :: _ => p c = false end ->
  Alsa.span p (taken ++ rest) = (taken, rest).
Proof.
  intros Hall Hr. induction taken as [|c taken IH]; simpl.
  - destruct rest as [|c rest]; [done|]. simpl. by rewrite Hr.
  - simpl in Hall. apply andb_true_iff in Hall as [-> Hall]. by rewrite IH.
Qed.

Lemma after_spec lit s rest : Alsa.after lit s = Some rest <-> s = lit ++ rest.
Proof.
  revert s. induction lit as [|a lit IH]; intros s; simpl.
  - split; congruence.
  - destruct s as [|b s]; [split; [done | discriminate]|].
    destruct (Ascii.eqb_spec a b) as [->|Hne].
    + rewrite IH. split; congruence.
    + split; [done | congruence].
Qed.

Lemma number_iff s num rest :
  Alsa.number s = Some (num, rest) <->
  s = num ++ rest /\ num <> [] /\ forallb Alsa.isdecimal num = true /\
  match rest with [] => True | c :: _ => Alsa.isdecimal c = false end.
Proof.
  unfold Alsa.number. split.
  - destruct (Alsa.span Alsa.isdecimal s) as [[|c t] r] eqn:Hs; [done|].
    intros [= <- <-]. apply span_spec in Hs as (-> & Hall & Hr). done.
  - intros (-> & Hne & Hall & Hr). rewrite span_app by done. by destruct num.
Qed.

Lemma quoted_iff s name :
  Alsa.quoted s = Some name <->
  name <> [] /\ forallb (fun c => negb (Ascii.eqb c "'")) name = true /\
  exists rest, s = "'"%char :: name ++ "'"%char :: rest.
Proof.
  unfold Alsa.quoted. split.
  - destruct (Alsa.after ["'"%char] s) as [s1|] eqn:Ha; [|done].
    apply after_spec in Ha as ->.
    destruct (Alsa.span _ s1) as [[|c t] [|q r]] eqn:Hs; try done.
    intros [= <-]. apply span_spec in Hs as (-> & Hall & Hq).
    split; [done|]. split; [done|]. exists r. simpl.
    apply negb_false_iff, Ascii.eqb_eq in Hq. by subst q.
  - intros (Hne & Hall & rest & ->). simpl.
    rewrite span_app; [by destruct name | done | done].
Qed.

Lemma match_client_iff line num name :
  Alsa.match_client line = Some (num, name) <->
    num <> [] /\ forallb Alsa.isdecimal num = true /\
    name <> [] /\ forallb (fun c => negb (Ascii.eqb c "'")) name = true /\
    exists rest,
      line = chars "client " ++ num ++ chars ": '" ++ name ++ "'"%char :: rest.
Proof.
  unfold Alsa.match_client. split.
  + destruct (Alsa.after (chars "client ") line) as [s1|] eqn:H1; [|done].
    apply after_spec in H1 as ->.
    destruct (Alsa.number s1) as [[num' s2]|] eqn:H2; [|done].
    apply number_iff in H2 as (-> & Hne & Hd & _).
    destruct (Alsa.after (chars ": ") s2) as [s3|] eqn:H3; [|done].
    apply after_spec in H3 as ->.
    destruct (Alsa.quoted s3) as [name'|] eqn:H4; [|done].
    apply quoted_iff in H4 as (Hnn & Hq & rest & ->).
    intros [= <- <-]. repeat (split; [done|]). exists rest.
    simpl. by rewrite <- ?app_assoc.
  + intros (Hne & Hd & Hnn & Hq & rest & ->).
    rewrite (proj2 (after_spec _ _ _) eq_refl).
    rewrite (proj2 (number_iff _ num (chars ": '" ++ name ++ "'"%char :: rest)));
      [|done].
    change (chars ": '" ++ name ++ "'"%char :: rest)
      with (chars ": " ++ "'"%char :: name ++ "'"%char :: rest).
    rewrite (proj2 (after_spec _ _ _) eq_refl).
    rewrite (proj2 (quoted_iff _ name)); [done|]. eauto.
Qed.

Lemma digit_not_space d : Alsa.isdecimal d = true -> Alsa.isspace d = false.
Proof. destruct d as [[] [] [] [] [] [] [] []]; vm_compute; done. Qed.

Lemma match_port_iff line num name :
  Alsa.match_port line = Some (num, name) <->
    num <> [] /\ forallb Alsa.isdecimal num = true /\
    name <> [] /\ forallb (fun c => negb (Ascii.eqb c "'")) name = true /\
    exists indent rest,
      indent <> [] /\ forallb Alsa.isspace indent = true /\
      line = indent ++ num ++ chars " '" ++ name ++ "'"%char :: rest.
Proof.
  unfold Alsa.match_port. split.
  + destruct (Alsa.span Alsa.isspace line) as [[|w ws] s1] eqn:H1; [done|].
    apply span_spec in H1 as (-> & Hw & _).
    destruct (Alsa.number s1) as [[num' s2]|] eqn:H2; [|done].
    apply number_iff in H2 as (-> & Hne & Hd & _).
    destruct (Alsa.after (chars " ") s2) as [s3|] eqn:H3; [|done].
    apply after_spec in H3 as ->.
    destruct (Alsa.quoted s3) as [name'|] eqn:H4; [|done].
    apply quoted_iff in H4 as (Hnn & Hq & rest & ->).
    intros [= <- <-]. repeat (split; [done|]). exists (w :: ws), rest.
    split; [done|]. split; [done|]. simpl. by rewrite <- ?app_assoc.
  + intros (Hne & Hd & Hnn & Hq & indent & rest & Hi & Hw & ->).
    rewrite span_app; [|done|].
    2:{ destruct num as [|d num]; [done|]. simpl in Hd |- *.
        apply andb_true_iff in Hd as [Hd _]. by apply digit_not_space. }
    destruct indent as [|w ws]; [done|].
    rewrite (proj2 (number_iff _ num (chars " '" ++ name ++ "'"%char :: rest)));
      [|done].
    change (chars " '" ++ name ++ "'"%char :: rest)
      with (chars " " ++ "'"%char :: name ++ "'"%char :: rest).
    rewrite (proj2 (after_spec _ _ _) eq_refl).
    rewrite (proj2 (quoted_iff _ name)); [done|]. eauto.
Qed.

(** X19: the lines that [get_alsa_ports] reads.  The pattern of a client
    matches exactly the lines that begin with [client ], a decimal number,
    a colon, a space and a name between single quotes, and yields the
    number and the name; the pattern of a port matches exactly the lines
    that begin with white space, a decimal number, a space and a name
    between single quotes.  Numbers and names are not empty, and a name
    holds no single quote. *)
Theorem listing_lines_that_match (line num name : list ascii) :
  (Alsa.match_client line = Some (num, name) <->
     num <> [] /\ forallb Alsa.isdecimal num = true /\
     name <> [] /\ forallb (fun c => negb (Ascii.eqb c "'")) name = true /\
     exists rest,
       line = chars "client " ++ num ++ chars ": '" ++ name ++ "'"%char :: rest) /\
  (Alsa.match_port line = Some (num, name) <->
     num <> [] /\ forallb Alsa.isdecimal num = true /\
     name <> [] /\ forallb (fun c => negb (Ascii.eqb c "'")) name = true /\
     exists indent rest,
       indent <> [] /\ forallb Alsa.isspace indent = true /\
       line = indent ++ num ++ chars " '" ++ name ++ "'"%char :: rest).
Proof.
  split.
  - apply match_client_iff.
  - apply match_port_iff.
Qed.

(** ** A listing and its ports *)

Lemma splitlines_from_line cur line s :
  forallb (fun c => negb (Alsa.is_linebreak c)) line = true ->
  Alsa.splitlines_from cur (line ++ "010"%char :: s) =
  (rev cur ++ line) :: Alsa.splitlines_from [] s.
Proof.
  revert cur. induction line as [|c line IH]; intros cur Hl; simpl.
  - rewrite app_nil_r. by destruct s.
  - simpl in Hl. apply andb_true_iff in Hl as [Hc Hl].
    apply negb_true_iff in Hc. rewrite Hc, IH by done. simpl.
    by rewrite <- app_assoc.
Qed.

Lemma splitlines_text lines :
  Forall (fun line => forallb (fun c => negb (Alsa.is_linebreak c)) line = true) lines ->
  Alsa.splitlines (listing_text lines) = lines.
Proof.
  unfold Alsa.splitlines, listing_text, Alsa.str, chars.
  rewrite list_ascii_of_string_of_list_ascii.
  induction 1 as [|line lines Hl Hls IH]; simpl; [done|].
  rewrite <- app_assoc. simpl. rewrite splitlines_from_line by done. simpl.
  by rewrite IH.
Qed.

Lemma is_number_spec s :
  is_number s = true -> s <> [] /\ forallb Alsa.isdecimal s = true.
Proof.
  unfold is_number. intros [Hn Hd]%andb_true_iff. split; [|done]. by destruct s.
Qed.

Lemma is_name_spec s :
  is_name s = true ->
  s <> [] /\ forallb (fun c => negb (Ascii.eqb c "'")) s = true /\
  forallb (fun c => negb (Alsa.is_linebreak c)) s = true.
Proof.
  unfold is_name. intros [Hn Hd]%andb_true_iff. split; [by destruct s|].
  rewrite !forallb_forall in *. split; intros c Hc; specialize (Hd c Hc);
    apply andb_true_iff in Hd; tauto.
Qed.

Lemma scan_client_line c st :
  well_formed c = true ->
  Alsa.scan_line st (client_line c) =
    Alsa.Scan (Alsa.ports st) (Some (Alsa.str (client_num c)))
              (Some (Alsa.str (client_name c))).
Proof.
  unfold well_formed. intros [[[Hnum Hname]%andb_true_iff _]%andb_true_iff _]%andb_true_iff.
  apply is_number_spec in Hnum as [Hn Hd]. apply is_name_spec in Hname as (Hnn & Hq & _).
  unfold Alsa.scan_line.
  rewrite (proj2 (match_client_iff (client_line c) (client_num c) (client_name c))).
  2:{ repeat (split; [done|]). by exists (client_tail c). }
  assert (Alsa.match_port (client_line c) = None) as -> by reflexivity.
  done.
Qed.

Lemma scan_port_line p st num :
  Alsa.current_client st = Some (Alsa.str num) -> num <> [] ->
  is_number (fst p) = true -> is_name (snd p) = true ->
  Alsa.scan_line st (port_line p) =
    Alsa.Scan (Alsa.dict_set
                 (Alsa.format (Alsa.current_client_name st) +:+ ":" +:+
                  Alsa.str (Alsa.strip (snd p)))
                 (Alsa.str num +:+ ":" +:+ Alsa.str (fst p)) (Alsa.ports st))
              (Alsa.current_client st) (Alsa.current_client_name st).
Proof.
  intros Hcur Hne Hnum Hname.
  apply is_number_spec in Hnum as [Hn Hd]. apply is_name_spec in Hname as (Hnn & Hq & _).
  unfold Alsa.scan_line.
  assert (Alsa.match_client (port_line p) = None) as -> by reflexivity.
  rewrite (proj2 (match_port_iff (port_line p) (fst p) (snd p))).
  2:{ repeat (split; [done|]). exists (chars "    "), []. by repeat split. }
  rewrite Hcur. simpl. destruct num as [|d num]; [done|]. reflexivity.
Qed.

Lemma scan_port_lines ps st num :
  Alsa.current_client st = Some (Alsa.str num) -> num <> [] ->
  forallb (fun p => is_number (fst p) && is_name (snd p)) ps = true ->
  let st' := fold_left Alsa.scan_line (map port_line ps) st in
  Alsa.ports st' =
    fold_left (fun d kv => Alsa.dict_set (fst kv) (snd kv) d)
      (map (fun p => (Alsa.format (Alsa.current_client_name st) +:+ ":" +:+
                        Alsa.str (Alsa.strip (snd p)),
                      Alsa.str num +:+ ":" +:+ Alsa.str (fst p))) ps)
      (Alsa.ports st) /\
  Alsa.current_client st' = Alsa.current_client st /\
  Alsa.current_client_name st' = Alsa.current_client_name st.
Proof.
  intros Hcur Hne. cbn zeta. revert st Hcur.
  induction ps as [|p ps IH]; intros st Hcur Hps; simpl; [done|].
  simpl in Hps. apply andb_true_iff in Hps as [[Hnum Hname]%andb_true_iff Hps].
  rewrite (scan_port_line p st num) by done.
  destruct (IH (Alsa.Scan
                  (Alsa.dict_set
                     (Alsa.format (Alsa.current_client_name st) +:+ ":" +:+
                      Alsa.str (Alsa.strip (snd p)))
                     (Alsa.str num +:+ ":" +:+ Alsa.str (fst p)) (Alsa.ports st))
                  (Alsa.current_client st) (Alsa.current_client_name st)))
    as (Hp & Hc & Hn); [done | done |].
  simpl in *. by rewrite Hp, Hc, Hn.
Qed.

Lemma scan_listing clients st :
  forallb well_formed clients = true ->
  Alsa.ports (fold_left Alsa.scan_line (listing_lines clients) st) =
    fold_left (fun d kv => Alsa.dict_set (fst kv) (snd kv) d)
      (flat_map port_entries clients) (Alsa.ports st).
Proof.
  revert st. induction clients as [|c clients IH]; intros st Hwf; simpl; [done|].
  simpl in Hwf. apply andb_true_iff in Hwf as [Hc Hwf].
  rewrite fold_left_app, (scan_client_line c st Hc).
  pose proof Hc as Hc'. unfold well_formed in Hc'.
  apply andb_true_iff in Hc' as [[[Hnum _]%andb_true_iff _]%andb_true_iff Hps].
  apply is_number_spec in Hnum as [Hn _].
  destruct (scan_port_lines (client_ports c)
              (Alsa.Scan (Alsa.ports st) (Some (Alsa.str (client_num c)))
                         (Some (Alsa.str (client_name c))))
              (client_num c) eq_refl Hn Hps) as (Hp & _ & _).
  rewrite IH by done. rewrite Hp. simpl. by rewrite fold_left_app.
Qed.

Lemma listing_lines_unbroken clients :
  forallb well_formed clients = true ->
  Forall (fun line => forallb (fun c => negb (Alsa.is_linebreak c)) line = true)
         (listing_lines clients).
Proof.
  induction clients as [|c clients IH]; simpl; intros Hwf; [constructor|].
  apply andb_true_iff in Hwf as [Hc Hwf].
  unfold well_formed in Hc.
  apply andb_true_iff in Hc as [[[Hnum Hname]%andb_true_iff Htail]%andb_true_iff Hps].
  apply is_number_spec in Hnum as [_ Hd]. apply is_name_spec in Hname as (_ & _ & Hl).
  assert (forall s, forallb Alsa.isdecimal s = true ->
            forallb (fun c => negb (Alsa.is_linebreak c)) s = true) as Hdig.
  { intros s Hs. rewrite forallb_forall in *. intros d Hin. specialize (Hs d Hin).
    clear -Hs. destruct d as [[] [] [] [] [] [] [] []]; vm_compute in Hs |- *; done. }
  constructor; [|apply Forall_app; split; [|by apply IH]].
  - unfold client_line. rewrite !forallb_app. simpl.
    rewrite (Hdig _ Hd), Hl, Htail. done.
  - rewrite forallb_forall in Hps. apply Forall_forall. intros line Hin.
    apply list_elem_of_In, in_map_iff in Hin as (p & <- & Hp).
    specialize (Hps p Hp). apply andb_true_iff in Hps as [Hpn Hpm].
    apply is_number_spec in Hpn as [_ Hpd]. apply is_name_spec in Hpm as (_ & _ & Hpl).
    unfold port_line. rewrite !forallb_app. simpl. by rewrite (Hdig _ Hpd), Hpl.
Qed.

(** X20: a listing in the format of [aconnect -l] is read port by port.
    For clients whose numbers are decimal and whose names are not empty,
    without a single quote and within one line, the dict of
    [get_alsa_ports] is built by setting, for each port of each client in
    turn, the key [client name:port name], the port name without the
    blanks around it, to the address [client number:port number]. *)
Theorem listing_is_read_port_by_port (clients : list client) :
  forallb well_formed clients = true ->
  Alsa.get_alsa_ports (Exit0 (listing_text (listing_lines clients))) =
    Some (dict_of (flat_map port_entries clients)).
Proof.
  intros Hwf. simpl. f_equal.
  rewrite splitlines_text by (by apply listing_lines_unbroken).
  by rewrite scan_listing.
Qed.

Lemma listing_witness :
  let clients :=
    [Client (chars "14") (chars "Midi Through") (chars " [type=kernel]")
       [(chars "0", chars "Midi Through Port-0")];
     Client (chars "128") (chars "RtMidiOut Client") (chars " [type=user,pid=4242]")
       [(chars "0", chars "TextMIDI_TB303  "); (chars "1", chars "TextMIDI_BP909  ")]] in
  forallb well_formed clients = true /\
  Alsa.get_alsa_ports (Exit0 (listing_text (listing_lines clients))) =
    Some [("Midi Through:Midi Through Port-0", "14:0");
          ("RtMidiOut Client:TextMIDI_TB303", "128:0");
          ("RtMidiOut Client:TextMIDI_BP909", "128:1")].
Proof.
  cbn zeta. split; [reflexivity|].
  rewrite listing_is_read_port_by_port by reflexivity. reflexivity.
Defined.

(** ** The notes of the samples *)

Ltac sample_ons :=
  repeat first
    [ apply List.Forall_nil
    | apply List.Forall_cons;
      [ unfold sample_is_note_on; cbn [ev_device ev_action];
        let Hdev := fresh "Hdev" in intros Hdev; first [discriminate Hdev | reflexivity] |] ].

Section Samples.
Context {G : Type} `{PyRandom G}.

Lemma speed_encode_sample_ons at_first (st : mapper G) i ch :
  Forall sample_is_note_on (pushes st) ->
  Forall sample_is_note_on (pushes (Speedcore2Midi.encode at_first st i ch)).
Proof.
  intros Hp. unfold Speedcore2Midi.encode.
  destruct (char_in ch Speedcore2Midi.SAMPLES).
  { unfold Speedcore2Midi.sample, rbind, rret. draw. simpl.
    apply Forall_app. split; [done|]. sample_ons. }
  destruct (Ascii.eqb ch " " || char_in (lower ch) PUNCTUATION).
  { unfold Speedcore2Midi.separator, rbind, rret. simpl. unfold rbind, rret.
    repeat draw. simpl. apply Forall_app. split; [done|]. sample_ons. }
  destruct (negb (char_in (lower ch) ENCODABLE)); [done|].
  unfold rbind, rret.
  assert (forall g, Forall sample_is_note_on
            (fst (Speedcore2Midi.bassline (lower ch) (current_time st) g))) as Hb.
  { intros g. unfold Speedcore2Midi.bassline, rbind, rret.
    repeat match goal with |- context [if char_in ?c ?s then _ else _] =>
      destruct (char_in c s) end;
    repeat draw; cbn [fst app]; simpl Z.ltb; cbn iota; cbn [app]; sample_ons. }
  assert (forall g, Forall sample_is_note_on
            (fst (Speedcore2Midi.drums (lower ch) i (current_time st) g))) as Hd.
  { intros g. unfold Speedcore2Midi.drums, rbind, rret.
    draw. draw.
    all: repeat match goal with |- context [if char_in ?c ?s then _ else _] =>
      destruct (char_in c s) end.
    all: repeat match goal with |- context [if (?a =? ?b) then _ else _] =>
      destruct (a =? b) end.
    all: cbn [orb].
    all: repeat draw; cbn [fst app]; sample_ons. }
  assert (forall g, Forall sample_is_note_on
            (fst (Speedcore2Midi.lead (lower ch) (current_time st) g))) as Hl.
  { intros g. unfold Speedcore2Midi.lead, rbind, rret.
    destruct (char_in (lower ch) VOWELS); repeat draw; cbn [fst app]; sample_ons. }
  specialize (Hb (rng st)).
  destruct (Speedcore2Midi.bassline (lower ch) (current_time st) (rng st)) as [bass g1].
  specialize (Hd g1).
  destruct (Speedcore2Midi.drums (lower ch) i (current_time st) g1) as [drum g2].
  specialize (Hl g2).
  destruct (Speedcore2Midi.lead (lower ch) (current_time st) g2) as [ld g3].
  simpl in *. repeat (apply Forall_app; split); done.
Qed.

Lemma speed_queue_sample_ons at_first (g0 : G) text :
  Forall sample_is_note_on
         (fst (fst (Speedcore2Midi.text_to_event_queue at_first g0 text))).
Proof.
  simpl. eapply Forall_perm; [symmetry; apply merged_perm|].
  apply (enumerate_from_inv (fun st => Forall sample_is_note_on (pushes st)));
    [constructor|].
  intros st i ch. apply speed_encode_sample_ons.
Qed.

Lemma speed_pushes_grow at_first text i (st : mapper G) e :
  In e (pushes st) ->
  In e (pushes (enumerate_from (Speedcore2Midi.encode at_first) i text st)).
Proof.
  revert i st. induction text as [|ch text IH]; intros i st He; simpl; [done|].
  apply IH. destruct (speed_encode_pushes at_first st i ch) as (es & -> & _).
  apply in_or_app. by left.
Qed.

Lemma speed_sample_event at_first (g0 : G) text ch :
  In ch (chars text) -> char_in ch Speedcore2Midi.SAMPLES = true ->
  exists t,
    In (Ev t "Samples" "on" (clamp (Speedcore2Midi.SAMPLE_NOTES at_first ch)) 127)
       (fst (fst (Speedcore2Midi.text_to_event_queue at_first g0 text))).
Proof.
  intros Hin Hs. apply in_split in Hin as (l1 & l2 & Htext).
  unfold Speedcore2Midi.text_to_event_queue, Speedcore2Midi.encode_text. cbn [fst].
  rewrite Htext, enumerate_from_app. simpl.
  set (st := enumerate_from (Speedcore2Midi.encode at_first) 0 l1 _).
  exists (current_time st).
  apply list_elem_of_In. rewrite merged_perm. apply list_elem_of_In.
  apply speed_pushes_grow. unfold Speedcore2Midi.encode. rewrite Hs.
  unfold Speedcore2Midi.sample, rbind, rret.
  pose proof (randint_range 127 127 (rng st) ltac:(lia)) as Hv.
  destruct (randint 127 127 (rng st)) as [v g]. simpl in Hv.
  assert (v = 127) as -> by lia. simpl. apply in_or_app. right. simpl. auto.
Qed.

End Samples.

Lemma schedule_messages status events from max_tick o :
  In o (schedule status events from max_tick) ->
  o = Sleep \/ exists e, In e events /\ In o (message_of status e).
Proof.
  unfold schedule. rewrite in_flat_map. intros (t & _ & Ho).
  apply in_app_or in Ho as [Ho|[<-|[]]]; [|by left]. right.
  apply in_flat_map in Ho as (e & He & Ho). exists e. split; [|done].
  unfold due in He. by apply filter_In in He as [He _].
Qed.

Lemma schedule_covers status events from max_tick e o :
  In e events -> from <= ev_tick e <= max_tick -> In o (message_of status e) ->
  In o (schedule status events from max_tick).
Proof.
  intros He Ht Ho. unfold schedule. apply in_flat_map. exists (ev_tick e). split.
  - apply range_In. lia.
  - apply in_or_app. left. apply in_flat_map. exists e. split; [|done].
    unfold due. apply filter_In. split; [done|]. apply Z.eqb_refl.
Qed.

Lemma held_without_echo d outs : held d outs = held d (without_echo outs).
Proof.
  unfold held. generalize (∅ : gset Z).
  induction outs as [|o outs IH]; intros X; simpl; [done|].
  destruct o; simpl; by rewrite IH.
Qed.

Lemma held_ons d outs n (X : gset Z) :
  (forall st m v, In (Send d [st; m; v]) outs -> Z.land st 240 <> 128) ->
  n ∈ X \/ (exists st v, In (Send d [st; n; v]) outs /\ Z.land st 240 = 144) ->
  n ∈ fold_left (held_step d) outs X.
Proof.
  revert X. induction outs as [|o outs IH]; intros X Hno Hn; simpl.
  - destruct Hn as [Hn|(st & v & [] & _)]. done.
  - apply IH; [intros st m v Hin; apply (Hno st m v); by right|].
    destruct Hn as [Hn|(st & v & [->|Hin] & Hst)].
    + left. destruct o as [d' msg| | |]; simpl; try done.
      destruct msg as [|st [|m [|v [|? ?]]]]; try done.
      destruct (String.eqb_spec d' d) as [->|Hne]; [|done].
      destruct (Z.land st 240 =? 144); [set_solver|].
      destruct (Z.land st 240 =? 128) eqn:H128; [|done].
      apply Z.eqb_eq in H128. exfalso. apply (Hno st m v); [by left | done].
    + left. simpl. rewrite String.eqb_refl, Hst. simpl. set_solver.
    + right. eauto.
Qed.

Section SamplesRing.
Context {G : Type} `{PyRandom G}.

(** X21: the note of a sample is released by nothing but the drain.  For a
    text with a sample trigger, played with nothing in its way, the loop
    sends no note-off to the Samples device for the note of the trigger,
    and the whole call sends exactly one: the note rings from its tick to
    the [finally] block. *)
Theorem sample_notes_ring_until_the_drain at_first (g0 : G) text ch :
  In ch (chars text) -> char_in ch Speedcore2Midi.SAMPLES = true ->
  let mapped := fst (Speedcore2Midi.text_to_event_queue at_first g0 text) in
  let note := clamp (Speedcore2Midi.SAMPLE_NOTES at_first ch) in
  let off := Send "Samples" [Speedcore2Midi.status 128 "Samples"; note; 0] in
  count_occ output_eq_dec
    (out (state_of (Speedcore2Midi.try_block quiet (fst mapped) (snd mapped)))) off
    = 0%nat /\
  count_occ output_eq_dec
    (fst (Speedcore2Midi.play_event_queue quiet (fst mapped) (snd mapped))) off
    = 1%nat.
Proof.
  intros Hin Hs. cbn zeta.
  set (q := fst (fst (Speedcore2Midi.text_to_event_queue at_first g0 text))).
  set (c := snd (fst (Speedcore2Midi.text_to_event_queue at_first g0 text))).
  set (n := clamp (Speedcore2Midi.SAMPLE_NOTES at_first ch)).
  assert (Forall (playable (map fst Speedcore2Midi.DEVICES)) q) as Hplay
    by apply speed_queue_playable.
  assert (Forall sample_is_note_on q) as Hons by apply speed_queue_sample_ons.
  destruct (speed_sample_event at_first g0 text ch Hin Hs) as (t & Hev). fold q n in Hev.
  unfold Speedcore2Midi.play_event_queue.
  pose proof (running_inv (map fst Speedcore2Midi.DEVICES) Speedcore2Midi.status
                (list CharTiming) (fun q tick => Some (Speedcore2Midi.echo q tick))
                quiet speedcore_status_ok q (map ct_tick c) c (fun _ => eq_refl))
    as [Hkeys Hheld].
  destruct (running_completes (map fst Speedcore2Midi.DEVICES) Speedcore2Midi.status
              (list CharTiming) (fun q tick => Some (Speedcore2Midi.echo q tick))
              (fun _ => True)
              (fun st t _ => ex_intro _ (fst (Speedcore2Midi.echo st t))
                 (ex_intro _ (snd (Speedcore2Midi.echo st t))
                    (conj (f_equal Some (surjective_pairing _)) I)))
              q (map ct_tick c) c) as (s & Hrun & Hout).
  { eapply Forall_impl; [exact Hplay|]. by intros e []. }
  { eapply Forall_impl; [exact Hplay|]. by intros e []. }
  { done. }
  unfold Speedcore2Midi.try_block. rewrite Hrun in *. cbn [state_of] in *.
  set (max_tick := max_tick_of (sort_by_tick q) (map ct_tick c)) in *.
  assert (forall st m v, In (Send "Samples" [st; m; v]) (without_echo (out s)) ->
            st = 148) as Hsends.
  { intros st m v Ho. rewrite Hout in Ho.
    apply schedule_messages in Ho as [Ho|(e & He & Ho)]; [done|].
    rewrite Forall_forall in Hons. pose proof (Hons e) as Hon.
    unfold sample_is_note_on in Hon. unfold message_of in Ho.
    destruct (String.eqb (ev_action e) "on") eqn:Ea.
    - destruct Ho as [Ho|[]]. injection Ho as Hd Hst _ _. rewrite Hd in Hst.
      by rewrite <- Hst.
    - destruct (String.eqb (ev_action e) "off");
        [|destruct (String.eqb (ev_action e) "cc"); [|done]];
        destruct Ho as [Ho|[]]; injection Ho as Hd _ _ _;
        rewrite Hon in Ea by (by apply list_elem_of_In || done); done. }
  assert (~ In (Send "Samples" [Speedcore2Midi.status 128 "Samples"; n; 0]) (out s))
    as Hnone.
  { intros Ho.
    assert (In (Send "Samples" [Speedcore2Midi.status 128 "Samples"; n; 0])
               (without_echo (out s))) as Ho'.
    { unfold without_echo. apply filter_In. by split. }
    apply Hsends in Ho'. vm_compute in Ho'. discriminate Ho'. }
  split; [by apply count_occ_not_In|].
  rewrite finish_accepted by done. cbn [fst state_of].
  rewrite !count_occ_app, (proj1 (count_occ_not_In _ _ _) Hnone).
  rewrite drain_count by (rewrite Hkeys; apply speedcore_devices_distinct).
  assert (n ∈ notes_of (active_notes s) "Samples") as Hn.
  { specialize (Hheld "Samples"). rewrite bool_decide_eq_true_2 in Hheld by compute_done.
    rewrite <- Hheld, held_without_echo. unfold held. apply held_ons.
    - intros st m v Ho. apply Hsends in Ho as ->. done.
    - right. exists 148, 127. split; [|done]. rewrite Hout.
      rewrite Forall_forall in Hplay.
      destruct (Hplay (Ev t "Samples" "on" n 127)) as [Ht _];
        [by apply list_elem_of_In|]. simpl in Ht.
      apply (schedule_covers _ _ _ _ (Ev t "Samples" "on" n 127)); [done| |simpl; auto].
      pose proof (max_tick_above (sort_by_tick q) (map ct_tick c) t) as Hlt.
      assert (t < max_tick); [|simpl; lia].
      apply Hlt, in_or_app. left.
      apply list_elem_of_In. rewrite sort_by_tick_perm. apply list_elem_of_In.
      change t with (ev_tick (Ev t "Samples" "on" n 127)). by apply in_map. }
  destruct (decide (n ∈ notes_of (active_notes s) "Samples")); [|done].
  simpl. done.
Qed.

End SamplesRing.

Lemma sample_notes_witness :
  In "@"%char (chars "a@") /\ char_in "@" Speedcore2Midi.SAMPLES = true /\
  count_occ output_eq_dec
    (fst (Speedcore2Midi.play_event_queue quiet
       (fst (fst (Speedcore2Midi.text_to_event_queue true (0 : Z) "a@")))
       (snd (fst (Speedcore2Midi.text_to_event_queue true (0 : Z) "a@")))))
    (Send "Samples" [132; 0; 0]) = 1%nat.
Proof.
  assert (In "@"%char (chars "a@")) as Hin by (simpl; auto).
  split; [exact Hin|]. split; [reflexivity|].
  exact (proj2 (sample_notes_ring_until_the_drain (G := Z) true 0 "a@" "@"%char
                  Hin eq_refl)).
Defined.

(** ** What acid2midi leaves to chance *)

Section Chance.
Context {G1 : Type} `{PyRandom G1} {G2 : Type} `{PyRandom G2}.

Lemma acid_encode_without_vowel (st1 : mapper G1) (st2 : mapper G2) i ch :
  char_in (lower ch) VOWELS = false ->
  pushes st1 = pushes st2 -> char_timing st1 = char_timing st2 ->
  current_time st1 = current_time st2 ->
  let st1' := Acid2Midi.encode st1 i ch in
  let st2' := Acid2Midi.encode st2 i ch in
  pushes st1' = pushes st2' /\ char_timing st1' = char_timing st2' /\
  current_time st1' = current_time st2'.
Proof.
  intros Hv Hp Hc Ht. cbn zeta. unfold Acid2Midi.encode. rewrite Hp, Hc, Ht.
  destruct (Ascii.eqb ch " " || char_in (lower ch) PUNCTUATION); [done|].
  destruct (negb (char_in (lower ch) ENCODABLE)); [done|].
  unfold Acid2Midi.bassline. rewrite Hv.
  by repeat match goal with |- context [if char_in ?c ?s then _ else _] =>
    destruct (char_in c s) end.
Qed.

Lemma acid_text_without_vowel text i (st1 : mapper G1) (st2 : mapper G2) :
  forallb (fun ch => negb (char_in (lower ch) VOWELS)) text = true ->
  pushes st1 = pushes st2 -> char_timing st1 = char_timing st2 ->
  current_time st1 = current_time st2 ->
  let st1' := enumerate_from Acid2Midi.encode i text st1 in
  let st2' := enumerate_from Acid2Midi.encode i text st2 in
  pushes st1' = pushes st2' /\ char_timing st1' = char_timing st2'.
Proof.
  cbn zeta. revert i st1 st2. induction text as [|ch text IH];
    intros i st1 st2 Hno Hp Hc Ht; simpl; [done|].
  simpl in Hno. apply andb_true_iff in Hno as [Hv Hno]. apply negb_true_iff in Hv.
  destruct (acid_encode_without_vowel st1 st2 i ch Hv Hp Hc Ht) as (Hp' & Hc' & Ht').
  by apply IH.
Qed.

(** X22: acid2midi leaves nothing but the length of a vowel to chance.
    For a text without a vowel the queue and the echo list do not depend on
    the generator: two generators of any kind, in any state and seeded in
    any way, give the same. *)
Theorem acid2midi_draws_for_vowels_only (g1 : G1) (g2 : G2) text :
  forallb (fun ch => negb (char_in (lower ch) VOWELS)) (chars text) = true ->
  fst (Acid2Midi.text_to_event_queue g1 text) =
  fst (Acid2Midi.text_to_event_queue g2 text).
Proof.
  intros Hno. unfold Acid2Midi.text_to_event_queue, Acid2Midi.encode_text. cbn [fst].
  destruct (acid_text_without_vowel (chars text) 0
              (Mapper (seed_str (G := G1) text) [] [] 0)
              (Mapper (seed_str (G := G2) text) [] [] 0) Hno) as [Hp Hc]; try done.
  by rewrite Hp, Hc.
Qed.

End Chance.

Lemma draws_for_vowels_witness :
  forallb (fun ch => negb (char_in (lower ch) VOWELS)) (chars "Txt 12, Zzz.") = true /\
  fst (Acid2Midi.text_to_event_queue (G := Z) 5 "Txt 12, Zzz.") =
  fst (Acid2Midi.text_to_event_queue (G := unit) tt "Txt 12, Zzz.").
Proof.
  split; [reflexivity|].
  apply (acid2midi_draws_for_vowels_only (G1 := Z) (G2 := unit)).
  reflexivity.
Defined.

(** A listing as [aconnect -l] prints it, with a line of connections *)
Example typical_listing :
  Alsa.get_alsa_ports (Exit0 (listing_text
    [chars "client 0: 'System' [type=kernel]";
     chars "    0 'Timer           '";
     chars "    1 'Announce        '";
     chars "client 128: 'RtMidiOut Client' [type=user,pid=4242]";
     chars "    0 'TextMIDI_TB303  '";
     "009"%char :: chars "Connecting To: 129:0";
     chars "client 129: 'FL Studio' [type=user,pid=77]";
     chars "    0 'virtual-1'"])) =
    Some [("System:Timer", "0:0"); ("System:Announce", "0:1");
          ("RtMidiOut Client:TextMIDI_TB303", "128:0");
          ("FL Studio:virtual-1", "129:0")] /\
  Alsa.connect_midi_ports
    (fun _ => Alsa.Attempt
       (Exit0 (listing_text
          [chars "client 128: 'RtMidiOut Client' [type=user,pid=4242]";
           chars "    0 'TextMIDI_TB303  '";
           chars "client 129: 'FL Studio' [type=user,pid=77]";
           chars "    0 'virtual-1'"]))
       (Exit0 ""))
    "TextMIDI_TB303" "virtual-1" =
    ([Alsa.ListPorts; Alsa.RunAconnect "128:0" "129:0";
      Alsa.PrintConnected "TextMIDI_TB303" "virtual-1"], Some true).
Proof. split; reflexivity. Qed.

(** ** How long a run lasts *)





Section RunLength.
Variable devices : list string.
Variable status : Z -> string -> Z.
Variable E : Type.
Variable echo : E -> Z -> option (E * list ascii).
Variable echo_ok : E -> Prop.
Hypothesis echo_ok_step : forall st t,
  echo_ok st -> exists st' cs, echo st t = Some (st', cs) /\ echo_ok st'.


End RunLength.

Section RunLengths.
Context {G : Type} `{PyRandom G}.







End RunLengths.

(** ** The space that main appends *)

Section PlaysAll.
Variable devices : list string.
Variable status : Z -> string -> Z.
Variable E : Type.
Variable echo : E -> Z -> option (E * list ascii).
Variable echo_ok : E -> Prop.
Hypothesis echo_ok_step : forall st t,
  echo_ok st -> exists st' cs, echo st t = Some (st', cs) /\ echo_ok st'.

(** With nothing in its way a run sends the message of every event of a
    queue that can be played. *)
Lemma running_plays_all event_queue echo_ticks e0 e o :
  Forall (fun e => 0 <= ev_tick e) event_queue ->
  Forall (fun e => In (ev_device e) devices) event_queue ->
  echo_ok e0 ->
  In e event_queue -> In o (message_of status e) ->
  In o (fst (finish status E quiet
               (running devices status E echo quiet event_queue echo_ticks e0))).
Proof.
  intros Hge Hk He0 He Ho.
  destruct (finish_completes devices status E echo echo_ok echo_ok_step
              event_queue echo_ticks e0 Hge Hk He0) as [_ Hout].
  assert (In o (without_echo
                  (fst (finish status E quiet
                          (running devices status E echo quiet event_queue echo_ticks
                                   e0))))) as Hin.
  { rewrite Hout. apply in_or_app. left.
    apply (schedule_covers status event_queue 0 _ e o He); [|done].
    rewrite Forall_forall in Hge. split; [by apply Hge, list_elem_of_In|].
    assert (ev_tick e < max_tick_of (sort_by_tick event_queue) echo_ticks); [|lia].
    apply max_tick_above, in_or_app. left. apply list_elem_of_In.
    rewrite sort_by_tick_perm. apply list_elem_of_In. by apply in_map. }
  unfold without_echo in Hin. by apply filter_In in Hin as [Hin _].
Qed.

End PlaysAll.

Section FinalSpace.
Context {G : Type} `{PyRandom G}.

(** The last round of acid2midi on a text that ends with a space *)
Lemma acid_final_space (g0 : G) phrase :
  let mapped := fst (Acid2Midi.text_to_event_queue g0 (phrase +:+ " ")) in
  let t := Z.of_nat (count_if advances (chars phrase)) in
  last (snd mapped) = Some (CT t (len (chars phrase)) " ") /\
  forall e, In e (Acid2Midi.separator t) -> In e (fst mapped).
Proof.
  cbn zeta. split.
  - rewrite acid_echo_list, chars_append, imap_app. simpl.
    rewrite last_snoc. f_equal. rewrite Nat.add_0_r, take_app_length.
    by f_equal.
  - unfold Acid2Midi.text_to_event_queue, Acid2Midi.encode_text.
    rewrite chars_append, enumerate_from_app. cbn [fst].
    set (st := enumerate_from Acid2Midi.encode 0 (chars phrase) _).
    assert (current_time st = Z.of_nat (count_if advances (chars phrase))) as <-.
    { unfold st.
      destruct (acid_timing (chars phrase) 0 (Mapper (seed_str (phrase +:+ " ")) [] [] 0))
        as [_ ->]. simpl. lia. }
    intros e He. apply list_elem_of_In. rewrite merged_perm.
    simpl. unfold Acid2Midi.encode. simpl.
    apply list_elem_of_In, in_or_app. by right.
Qed.

(** The last round of speedcore2midi on a text that ends with a space,
    with what it draws *)
Lemma speed_final_space at_first (g0 : G) phrase :
  let mapped := fst (Speedcore2Midi.text_to_event_queue at_first g0 (phrase +:+ " ")) in
  let t := len (chars phrase) in
  last (snd mapped) = Some (CT t t " ") /\
  exists sweep n1 v1 n2 v2 n3 v3 crash,
    forall e,
      In e [Ev t "TB303" "cc" 74 sweep;
            Ev t "PadSynth" "on" n1 v1; Ev (t + 1) "PadSynth" "off" n1 0;
            Ev t "PadSynth" "on" n2 v2; Ev (t + 1) "PadSynth" "off" n2 0;
            Ev t "PadSynth" "on" n3 v3; Ev (t + 1) "PadSynth" "off" n3 0;
            Ev t "BP909" "on" DRUM_crash crash; Ev (t + 1) "BP909" "off" DRUM_crash 0] ->
      In e (fst mapped).
Proof.
  cbn zeta. split.
  - rewrite speed_echo_list, chars_append, imap_app. simpl.
    rewrite List.filter_app. simpl. rewrite last_snoc. f_equal.
    rewrite Nat.add_0_r. unfold len. f_equal.
  - unfold Speedcore2Midi.text_to_event_queue, Speedcore2Midi.encode_text.
    rewrite chars_append, enumerate_from_app. cbn [fst].
    set (st := enumerate_from (Speedcore2Midi.encode at_first) 0 (chars phrase) _).
    assert (current_time st = len (chars phrase)) as <-.
    { unfold st.
      destruct (speed_timing at_first (chars phrase) 0
                  (Mapper (seed_str (phrase +:+ " ")) [] [] 0)) as [_ ->]. simpl. lia. }
    simpl. unfold Speedcore2Midi.encode. simpl.
    unfold Speedcore2Midi.separator, rbind, rret. simpl. unfold rbind, rret.
    repeat match goal with
    | |- context [randint ?a ?b ?g] => destruct (randint a b g) as [? ?]
    end.
    do 8 eexists. intros e He. apply list_elem_of_In. rewrite merged_perm.
    apply list_elem_of_In, in_or_app. right. simpl. exact He.
Qed.

(** C10: [main] maps the phrase (the joined arguments, or the default
    text) with one space appended, never the phrase itself, and plays
    what that gives, whatever it meets outside.  The space is the last
    entry of the echo list, standing at the index after the phrase; the
    queue holds the control change and the pad chord of that space at its
    tick (in speedcore2midi the crash as well), and with nothing in its
    way [main] sends each of them.  For an empty phrase acid2midi plays
    the space and nothing else, and the queue of speedcore2midi is the
    nine events of the space.  In speedcore2midi this is the run on a
    command line that the module-level code lets through. *)
Theorem main_appends_one_space (g0 : G) :
  (forall argv,
     let phrase := if 1 <? len argv then join_spaces (tail argv)
                   else Acid2Midi.DEFAULT_TEXT in
     let mapped := fst (Acid2Midi.text_to_event_queue g0 (phrase +:+ " ")) in
     let t := Z.of_nat (count_if advances (chars phrase)) in
     (forall env,
        Acid2Midi.main g0 true env argv =
          Acid2Midi.play_event_queue env (fst mapped) (snd mapped)) /\
     last (snd mapped) = Some (CT t (len (chars phrase)) " ") /\
     (forall e,
        In e [Ev t "TB303" "cc" 71 60;
              Ev t "PadSynth" "on" 60 60; Ev (t + 4) "PadSynth" "off" 60 0;
              Ev t "PadSynth" "on" 63 60; Ev (t + 4) "PadSynth" "off" 63 0;
              Ev t "PadSynth" "on" 67 60; Ev (t + 4) "PadSynth" "off" 67 0] ->
        In e (fst mapped) /\
        forall o, In o (message_of Acid2Midi.status e) ->
                  In o (fst (Acid2Midi.main g0 true quiet argv)))) /\
  (forall max_str_digits at_first argv,
     let phrase := if (1 <? len argv) && negb (Speedcore2Midi.isdigit (nth 1 argv ""))
                   then join_spaces (tail argv) else Speedcore2Midi.DEFAULT_TEXT in
     let mapped :=
       fst (Speedcore2Midi.text_to_event_queue at_first g0 (phrase +:+ " ")) in
     let t := len (chars phrase) in
     (forall env run,
        Speedcore2Midi.script max_str_digits at_first g0 true env argv = inr run ->
        run = Speedcore2Midi.play_event_queue env (fst mapped) (snd mapped)) /\
     last (snd mapped) = Some (CT t t " ") /\
     exists sweep n1 v1 n2 v2 n3 v3 crash,
       forall e,
         In e [Ev t "TB303" "cc" 74 sweep;
               Ev t "PadSynth" "on" n1 v1; Ev (t + 1) "PadSynth" "off" n1 0;
               Ev t "PadSynth" "on" n2 v2; Ev (t + 1) "PadSynth" "off" n2 0;
               Ev t "PadSynth" "on" n3 v3; Ev (t + 1) "PadSynth" "off" n3 0;
               Ev t "BP909" "on" DRUM_crash crash;
               Ev (t + 1) "BP909" "off" DRUM_crash 0] ->
         In e (fst mapped) /\
         forall o, In o (message_of Speedcore2Midi.status e) ->
                   In o (fst (Speedcore2Midi.play_event_queue quiet (fst mapped)
                                (snd mapped)))) /\
  (forall prog,
     Acid2Midi.main g0 true quiet [prog; ""] =
       ([Echo " ";
         Send "PadSynth" [144; 60; 60]; Send "PadSynth" [144; 63; 60];
         Send "PadSynth" [144; 67; 60]; Send "TB303" [176; 71; 60];
         Sleep; Sleep; Sleep; Sleep;
         Send "PadSynth" [128; 60; 0]; Send "PadSynth" [128; 63; 0];
         Send "PadSynth" [128; 67; 0]; Sleep; Sleep; AllNotesOff], false)) /\
  (forall max_str_digits at_first prog,
     (exists run,
        Speedcore2Midi.script max_str_digits at_first g0 true quiet [prog; ""] =
          inr run) /\
     exists sweep n1 v1 n2 v2 n3 v3 crash,
       fst (fst (Speedcore2Midi.text_to_event_queue at_first g0 " ")) ≡ₚ
         [Ev 0 "TB303" "cc" 74 sweep;
          Ev 0 "PadSynth" "on" n1 v1; Ev 1 "PadSynth" "off" n1 0;
          Ev 0 "PadSynth" "on" n2 v2; Ev 1 "PadSynth" "off" n2 0;
          Ev 0 "PadSynth" "on" n3 v3; Ev 1 "PadSynth" "off" n3 0;
          Ev 0 "BP909" "on" DRUM_crash crash; Ev 1 "BP909" "off" DRUM_crash 0]).
Proof.
  split; [|split; [|split]].
  - intros argv. cbn zeta.
    set (phrase := if 1 <? len argv then join_spaces (tail argv)
                   else Acid2Midi.DEFAULT_TEXT).
    assert (forall env,
              Acid2Midi.main g0 true env argv =
                Acid2Midi.play_event_queue env
                  (fst (fst (Acid2Midi.text_to_event_queue g0 (phrase +:+ " "))))
                  (snd (fst (Acid2Midi.text_to_event_queue g0 (phrase +:+ " ")))))
      as Hmain.
    { intros env. unfold Acid2Midi.main, Acid2Midi.main_text. fold phrase.
      by destruct (Acid2Midi.text_to_event_queue g0 (phrase +:+ " ")) as [[q c] g]. }
    destruct (acid_final_space g0 phrase) as [Hlast Hsep]. cbn zeta in Hlast, Hsep.
    split; [exact Hmain|]. split; [exact Hlast|].
    intros e He.
    assert (In e (fst (fst (Acid2Midi.text_to_event_queue g0 (phrase +:+ " ")))))
      as Hin.
    { apply Hsep. simpl in He |- *. intuition. }
    split; [exact Hin|]. intros o Ho. rewrite Hmain.
    pose proof (acid_queue_playable g0 (phrase +:+ " ")) as Hplay.
    pose proof (acid_echo_list_indexed g0 (phrase +:+ " ")) as Hidx. cbn zeta in Hidx.
    unfold Acid2Midi.play_event_queue, Acid2Midi.try_block.
    apply (running_plays_all Acid2Midi.DEVICES Acid2Midi.status (list CharTiming)
             (Acid2Midi.echo (Acid2Midi.char_ready_ticks _) (len _))
             (fun rem => forall k, len _ - len rem <= k < len _ ->
                is_Some (Acid2Midi.char_ready_ticks _ !! k))
             (fun st t => acid2midi_echo_ok _ _ st t) _ _ _ e o); try done.
    + eapply Forall_impl; [exact Hplay|]. by intros e' [].
    + eapply Forall_impl; [exact Hplay|]. by intros e' [].
    + intros k Hk. apply Hidx. lia.
  - intros max_str_digits at_first argv. cbn zeta.
    set (phrase := if (1 <? len argv) && negb (Speedcore2Midi.isdigit (nth 1 argv ""))
                   then join_spaces (tail argv) else Speedcore2Midi.DEFAULT_TEXT).
    destruct (speed_final_space at_first g0 phrase)
      as [Hlast (sweep & n1 & v1 & n2 & v2 & n3 & v3 & crash & Hsep)].
    cbn zeta in Hlast, Hsep.
    split; [|split; [exact Hlast|]].
    { intros env run Hrun. apply script_returns in Hrun as ->.
      unfold Speedcore2Midi.main, Speedcore2Midi.main_text. fold phrase.
      by destruct (Speedcore2Midi.text_to_event_queue at_first g0 (phrase +:+ " "))
        as [[q c] g]. }
    exists sweep, n1, v1, n2, v2, n3, v3, crash. intros e He.
    split; [by apply Hsep|]. intros o Ho.
    pose proof (speed_queue_playable at_first g0 (phrase +:+ " ")) as Hplay.
    unfold Speedcore2Midi.play_event_queue, Speedcore2Midi.try_block.
    apply (running_plays_all (map fst Speedcore2Midi.DEVICES) Speedcore2Midi.status
             (list CharTiming) (fun q tick => Some (Speedcore2Midi.echo q tick))
             (fun _ => True)
             (fun st t _ => ex_intro _ (fst (Speedcore2Midi.echo st t))
                (ex_intro _ (snd (Speedcore2Midi.echo st t))
                   (conj (f_equal Some (surjective_pairing _)) I))) _ _ _ e o);
      try done.
    + eapply Forall_impl; [exact Hplay|]. by intros e' [].
    + eapply Forall_impl; [exact Hplay|]. by intros e' [].
    + by apply Hsep.
  - intros prog. vm_compute. reflexivity.
  - intros max_str_digits at_first prog. split.
    { eexists. by apply script_runs_main. }
    unfold Speedcore2Midi.text_to_event_queue, Speedcore2Midi.encode_text.
    cbn [fst]. simpl. unfold Speedcore2Midi.encode. simpl.
    unfold Speedcore2Midi.separator, rbind, rret. simpl. unfold rbind, rret.
    repeat match goal with
    | |- context [randint ?a ?b ?g] => destruct (randint a b g) as [? ?]
    end.
    do 8 eexists. rewrite merged_perm. simpl. reflexivity.
Qed.

End FinalSpace.
